(** * gcache2: the Simple and LRU caches

    A shallow embedding of [simple.go] (the unordered [SimpleCache]) and of
    the LRU cache ([LRUCache], backed by a hash map and a [container/list]
    recency list), with the properties of the two eviction indexes.

    Conventions of the embedding.
    - Instants and durations ([time.Time], [time.Duration]) are integers
      ([Z]); [Add] is [+], [Before] is [<], [After] is [>].  The clock is
      controlled: every operation receives the reading [clk] that
      [c.clock.Now()] returns while it runs.
    - Go's [int] is [Z] (no overflow is modelled for lengths and counts).
    - A Go result [(interface{}, error)] is a pair
      [(option V * option error)]: [None] on the left is the [nil] value,
      [None] on the right the [nil] error.
    - The hooks [addedFunc], [evictedFunc] and [purgeVisitorFunc] are opaque
      callbacks: the configuration records whether each is set, and the
      cache state logs every call made to them, the most recent first.
    - [c.stats] is the pair of counters [hitCount], [missCount].
    - The mutex is not modelled: the embedding describes one operation at a
      time, as the lock serialises them. *)

From Stdlib Require Import ZArith Lia.
From stdpp Require Import base option list sorting gmap fin_maps.

(** ** Errors and the shared configuration ([baseCache]) *)

(** [KeyNotFoundError] is the package's sentinel; every other error value
    (the ones a hook returns) is an [OtherError]. *)
Inductive error : Type :=
  | KeyNotFoundError
  | OtherError (tag : nat).

#[global] Instance error_eq_dec : EqDecision error.
Proof. solve_decision. Defined.

(** A call made to one of the notification hooks. *)
Inductive hookCall (K V : Type) : Type :=
  | AddedCall (k : K) (v : V)
  | EvictedCall (k : K) (v : V)
  | PurgeVisitorCall (k : K) (v : V).
Arguments AddedCall {K V} k v.
Arguments EvictedCall {K V} k v.
Arguments PurgeVisitorCall {K V} k v.

(** What a public read hands back: either it returns, or it goes on to
    [baseCache.load] (the load coordinator, which lives outside the two
    files under study) for [key] with the given [isWait] flag; what the
    coordinator then does, calls to [Set] included, is not part of the
    read as embedded here. *)
Inductive outcome (K V : Type) : Type :=
  | Returns (v : option V) (err : option error)
  | CallsLoad (key : K) (isWait : bool).
Arguments Returns {K V} v err.
Arguments CallsLoad {K V} key isWait.

Module Base.
(** The fields of [baseCache] the two caches read.  [size] is the bound
    [SimpleCache] consults, [capacity] the one [LRUCache] consults. *)
Record baseCache (K V : Type) : Type := {
  size : Z;
  capacity : Z;
  expiration : option Z;
  serializeFunc : option (K → V → V * option error);
  deserializeFunc : option (K → V → option V * option error);
  addedFunc : bool;
  evictedFunc : bool;
  purgeVisitorFunc : bool;
  loaderExpireFunc : bool
}.
Arguments size {K V} _.
Arguments capacity {K V} _.
Arguments expiration {K V} _.
Arguments serializeFunc {K V} _.
Arguments deserializeFunc {K V} _.
Arguments addedFunc {K V} _.
Arguments evictedFunc {K V} _.
Arguments purgeVisitorFunc {K V} _.
Arguments loaderExpireFunc {K V} _.

(** What [set] gets from the serialize hook, when there is one. *)
Definition serialize {K V : Type} (cb : baseCache K V) (key : K) (value : V)
    : V * option error :=
  match serializeFunc cb with
  | Some f => f key value
  | None => (value, None)
  end.

(** The serialize hook, if any, never returns an error. *)
Definition serialize_total {K V : Type} (cb : baseCache K V) : Prop :=
  ∀ key value, (serialize cb key value).2 = None.
(** The deserialize hook, if any, never returns [KeyNotFoundError]. *)
Definition deserialize_no_KeyNotFound {K V : Type} (cb : baseCache K V) : Prop :=
  ∀ f key value, deserializeFunc cb = Some f → (f key value).2 ≠ Some KeyNotFoundError.
End Base.

(** ** The unordered cache: [simple.go] *)

Module Simple.
Section Simple.
Context `{Countable K} {V : Type}.

Record simpleItem : Type := {
  value : V;
  expiration : option Z
}.

Record SimpleCache : Type := {
  base : Base.baseCache K V;
  store : gmap K simpleItem;
  hitCount : nat;
  missCount : nat;
  hookCalls : list (hookCall K V)
}.

Definition with_store (s : gmap K simpleItem) (c : SimpleCache) : SimpleCache :=
  {| base := base c; store := s; hitCount := hitCount c;
     missCount := missCount c; hookCalls := hookCalls c |}.

Definition call_hook (enabled : bool) (e : hookCall K V) (c : SimpleCache) : SimpleCache :=
  if enabled
  then {| base := base c; store := store c; hitCount := hitCount c;
          missCount := missCount c; hookCalls := e :: hookCalls c |}
  else c.

Definition IncrHitCount (c : SimpleCache) : SimpleCache :=
  {| base := base c; store := store c; hitCount := S (hitCount c);
     missCount := missCount c; hookCalls := hookCalls c |}.

Definition IncrMissCount (c : SimpleCache) : SimpleCache :=
  {| base := base c; store := store c; hitCount := hitCount c;
     missCount := S (missCount c); hookCalls := hookCalls c |}.

(** [init]: a fresh map (the size hint has no observable effect). *)
Definition init (c : SimpleCache) : SimpleCache := with_store ∅ c.

Definition newSimpleCache (cb : Base.baseCache K V) : SimpleCache :=
  init {| base := cb; store := ∅; hitCount := 0; missCount := 0; hookCalls := [] |}.

(** [simpleItem.IsExpired]; [now = None] is the [nil] argument, which
    makes the item read its clock. *)
Definition IsExpired (clk : Z) (si : simpleItem) (now : option Z) : bool :=
  match expiration si with
  | None => false
  | Some t => bool_decide (t < default clk now)%Z
  end.

Definition remove (key : K) (c : SimpleCache) : SimpleCache * option error :=
  match store c !! key with
  | Some item =>
      (call_hook (Base.evictedFunc (base c)) (EvictedCall key (value item))
         (with_store (delete key (store c)) c), None)
  | None => (c, Some KeyNotFoundError)
  end.

(** The test of the loop of [evict]:
    [item.expiration == nil || now.After( *item.expiration)]. *)
Definition evictable (now : Z) (item : simpleItem) : bool :=
  match expiration item with
  | None => true
  | Some t => bool_decide (now > t)%Z
  end.

(** The [range] loop of [evict].  [order] is the order in which the
    iteration yields the keys of the map, which Go leaves unspecified.
    The loop only stacks the deferred [c.remove(key)] calls (the last
    deferred on top); the map is not touched while it runs. *)
Fixpoint evict_range (now : Z) (st : gmap K simpleItem) (count current : Z)
    (deferred : list K) (order : list K) : list K :=
  match order with
  | [] => deferred
  | key :: rest =>
      match st !! key with
      | None => evict_range now st count current deferred rest
      | Some item =>
          if bool_decide (current >= count)%Z then deferred
          else if evictable now item
               then evict_range now st count (current + 1)%Z (key :: deferred) rest
               else evict_range now st count current deferred rest
      end
  end.

(** The deferred calls run when [evict] returns, the last deferred first. *)
Definition run_deferred (deferred : list K) (c : SimpleCache) : SimpleCache :=
  foldl (λ c' key, (remove key c').1) c deferred.

Definition evict (order : list K) (clk : Z) (count : Z) (c : SimpleCache) : SimpleCache :=
  run_deferred (evict_range clk (store c) count 0%Z [] order) c.

Definition set_expiration (key : K) (t : Z) (c : SimpleCache) : SimpleCache :=
  with_store (alter (λ item, {| value := value item; expiration := Some t |}) key (store c)) c.

(** [set].  The item it returns is the one the map holds under [key] when
    it returns, so the embedding returns [key] as the handle to it. *)
Definition set (order : list K) (clk : Z) (key : K) (value0 : V) (c : SimpleCache)
    : SimpleCache * (option K * option error) :=
  match Base.serialize (base c) key value0 with
  | (_, Some err) => (c, (None, Some err))
  | (value1, None) =>
      let c1 :=
        match store c !! key with
        | Some item =>
            with_store (<[key := {| value := value1; expiration := expiration item |}]> (store c)) c
        | None =>
            let c0 :=
              if bool_decide (Z.of_nat (size (store c)) >= Base.size (base c))%Z
                 && bool_decide (Base.size (base c) > 0)%Z
              then evict order clk 1 c else c in
            with_store (<[key := {| value := value1; expiration := None |}]> (store c0)) c0
        end in
      let c2 :=
        match Base.expiration (base c) with
        | Some d => set_expiration key (clk + d)%Z c1
        | None => c1
        end in
      (call_hook (Base.addedFunc (base c)) (AddedCall key value1) c2, (Some key, None))
  end.

(** [Set] (the name is reserved in Rocq, hence the underscore). *)
Definition Set_ (order : list K) (clk : Z) (key : K) (value0 : V) (c : SimpleCache)
    : SimpleCache * option error :=
  let '(c', (_, err)) := set order clk key value0 c in (c', err).

Definition SetWithExpire (order : list K) (clk : Z) (key : K) (value0 : V)
    (expiration0 : Z) (c : SimpleCache) : SimpleCache * option error :=
  match set order clk key value0 c with
  | (c', (_, Some err)) => (c', Some err)
  | (c', (item, None)) =>
      (match item with
       | Some k => set_expiration k (clk + expiration0)%Z c'
       | None => c'
       end, None)
  end.

Definition get (clk : Z) (key : K) (onLoad : bool) (c : SimpleCache)
    : SimpleCache * (option V * option error) :=
  match store c !! key with
  | None =>
      ((if negb onLoad then IncrMissCount c else c), (None, Some KeyNotFoundError))
  | Some item =>
      if IsExpired clk item None
      then ((remove key c).1, (None, Some KeyNotFoundError))
      else
        let c1 := if negb onLoad then IncrHitCount c else c in
        match Base.deserializeFunc (base c) with
        | Some f => (c1, f key (value item))
        | None => (c1, (Some (value item), None))
        end
  end.

Definition unsafeGet := get.

Definition getWithLoader (key : K) (isWait : bool) (c : SimpleCache) : outcome K V :=
  if Base.loaderExpireFunc (base c)
  then CallsLoad key isWait
  else Returns None (Some KeyNotFoundError).

Definition Get (clk : Z) (key : K) (c : SimpleCache) : SimpleCache * outcome K V :=
  let '(c', (v, err)) := get clk key false c in
  if bool_decide (err = Some KeyNotFoundError)
  then (c', getWithLoader key true c')
  else (c', Returns v err).

Definition GetIFPresent (clk : Z) (key : K) (c : SimpleCache) : SimpleCache * outcome K V :=
  let '(c', (v, err)) := get clk key false c in
  if bool_decide (err = Some KeyNotFoundError)
  then (c', getWithLoader key false c')
  else (c', Returns v None).

Definition Remove (key : K) (c : SimpleCache) : SimpleCache * option error :=
  remove key c.

Definition Len (c : SimpleCache) : Z := Z.of_nat (size (store c)).

(** [Purge]: the visitor sees every entry, in iteration order, and the
    map is replaced by a fresh one. *)
Definition Purge (order : list K) (c : SimpleCache) : SimpleCache :=
  let c1 :=
    if Base.purgeVisitorFunc (base c)
    then foldl (λ c' key,
                  match store c !! key with
                  | Some item => call_hook true (PurgeVisitorCall key (value item)) c'
                  | None => c'
                  end) c order
    else c in
  init c1.

(** [order] is an order in which [range c.store] may yield the keys:
    each key of the map once. *)
Definition range_order (order : list K) (c : SimpleCache) : Prop :=
  NoDup order ∧ ∀ k, k ∈ order ↔ is_Some (store c !! k).


(** *** The eviction rule as the specification words it

    "[Evict(n)] first removes up to [n] entries whose expiration instant
    has already passed (in mapping-iteration order), and only if fewer
    than [n] expired entries exist does it remove additional non-expired
    entries in mapping-iteration order, until [n] entries are removed or
    the mapping is empty."  These definitions follow that sentence, not
    the code; they are compared with [evict] below. *)
Definition expiration_passed (now : Z) (st : gmap K simpleItem) (k : K) : bool :=
  match st !! k with
  | Some {| expiration := Some t |} => bool_decide (now > t)%Z
  | _ => false
  end.

Definition present (st : gmap K simpleItem) (k : K) : bool :=
  bool_decide (is_Some (st !! k)).

Definition spec_victims (order : list K) (now : Z) (n : nat) (st : gmap K simpleItem)
    : list K :=
  let entries := List.filter (present st) order in
  let expired := firstn n (List.filter (expiration_passed now st) entries) in
  let others := List.filter (λ k, negb (expiration_passed now st k)) entries in
  expired ++ firstn (n - length expired) others.

(** The entries the loop of [evict] selects: present, and either without
    expiration or with an expiration strictly in the past. *)
Definition candidate (now : Z) (st : gmap K simpleItem) (k : K) : bool :=
  match st !! k with
  | Some item => evictable now item
  | None => false
  end.

Definition delete_all (ks : list K) (st : gmap K simpleItem) : gmap K simpleItem :=
  foldr delete st ks.

(** The calls [c.evictedFunc] receives when the keys of [victims] are
    removed from [c], the most recent first. *)
Definition evicted_calls (c : SimpleCache) (victims : list K) : list (hookCall K V) :=
  if Base.evictedFunc (base c)
  then omap (λ k, (λ item, EvictedCall k (value item)) <$> store c !! k) victims
  else [].

(** *** Bulk reads: [keys], [Keys], [GetALL]

    [Keys] and [GetALL] probe every key of a snapshot with
    [GetIFPresent].  They are embedded as far as they stay within this
    file: they answer [None] as soon as a probe goes on to
    [baseCache.load]. *)

(** [keys]: the keys of the map, in iteration order. *)
Definition keys (order : list K) (c : SimpleCache) : list K :=
  List.filter (present (store c)) order.

(** The loop of [Keys] over the snapshot [ks]; [acc] is the slice built
    so far. *)
Fixpoint Keys_loop (clk : Z) (ks : list K) (c : SimpleCache) (acc : list K)
    : option (SimpleCache * list K) :=
  match ks with
  | [] => Some (c, acc)
  | k :: rest =>
      match GetIFPresent clk k c with
      | (c', Returns _ None) => Keys_loop clk rest c' (acc ++ [k])
      | (c', Returns _ (Some _)) => Keys_loop clk rest c' acc
      | (_, CallsLoad _ _) => None
      end
  end.

Definition Keys (order : list K) (clk : Z) (c : SimpleCache)
    : option (SimpleCache * list K) :=
  Keys_loop clk (keys order c) c [].

(** The loop of [GetALL]; the values of the result are what
    [GetIFPresent] returned, [nil] included. *)
Fixpoint GetALL_loop (clk : Z) (ks : list K) (c : SimpleCache) (m : gmap K (option V))
    : option (SimpleCache * gmap K (option V)) :=
  match ks with
  | [] => Some (c, m)
  | k :: rest =>
      match GetIFPresent clk k c with
      | (c', Returns v None) => GetALL_loop clk rest c' (<[k := v]> m)
      | (c', Returns _ (Some _)) => GetALL_loop clk rest c' m
      | (_, CallsLoad _ _) => None
      end
  end.

Definition GetALL (order : list K) (clk : Z) (c : SimpleCache)
    : option (SimpleCache * gmap K (option V)) :=
  GetALL_loop clk (keys order c) c ∅.

(** The entry of [k] is there and not expired at [clk]. *)
Definition live (clk : Z) (st : gmap K simpleItem) (k : K) : bool :=
  match st !! k with
  | Some item => negb (IsExpired clk item None)
  | None => false
  end.

(** The entry of [k] is there and expired at [clk]. *)
Definition stale (clk : Z) (st : gmap K simpleItem) (k : K) : bool :=
  match st !! k with
  | Some item => IsExpired clk item None
  | None => false
  end.

(** What a hit on [k] returns: the stored value, through the deserialize
    hook when there is one. *)
Definition read_value (c : SimpleCache) (k : K) : option (option V) :=
  (λ item, match Base.deserializeFunc (base c) with
           | Some f => (f k (value item)).1
           | None => Some (value item)
           end) <$> store c !! k.

(** *** Sequences of operations

    The operations that iterate over the map carry the order in which the
    iteration yields the keys.  A [Get] or a [GetIFPresent] stands for the
    call as far as this file goes: what [baseCache.load] does after a miss,
    when a loader is configured, is not part of the step. *)
Inductive op : Type :=
  | OpSet (order : list K) (clk : Z) (key : K) (value0 : V)
  | OpSetWithExpire (order : list K) (clk : Z) (key : K) (value0 : V) (expiration0 : Z)
  | OpGet (clk : Z) (key : K)
  | OpGetIFPresent (clk : Z) (key : K)
  | OpRemove (key : K)
  | OpPurge (order : list K).

Definition step (o : op) (c : SimpleCache) : SimpleCache :=
  match o with
  | OpSet order clk k v => (Set_ order clk k v c).1
  | OpSetWithExpire order clk k v d => (SetWithExpire order clk k v d c).1
  | OpGet clk k => (Get clk k c).1
  | OpGetIFPresent clk k => (GetIFPresent clk k c).1
  | OpRemove k => (Remove k c).1
  | OpPurge order => Purge order c
  end.

Fixpoint run (ops : list op) (c : SimpleCache) : SimpleCache :=
  match ops with
  | [] => c
  | o :: rest => run rest (step o c)
  end.

(** The order an operation carries is one the iteration may follow in the
    state it runs in. *)
Definition op_order_ok (o : op) (c : SimpleCache) : Prop :=
  match o with
  | OpSet order _ _ _ | OpSetWithExpire order _ _ _ _ | OpPurge order => range_order order c
  | OpGet _ _ | OpGetIFPresent _ _ | OpRemove _ => True
  end.

Fixpoint orders_ok (ops : list op) (c : SimpleCache) : Prop :=
  match ops with
  | [] => True
  | o :: rest => op_order_ok o c ∧ orders_ok rest (step o c)
  end.

Definition sets_expiration (o : op) : bool :=
  match o with OpSetWithExpire _ _ _ _ _ => true | _ => false end.

(** The calls [c.purgeVisitorFunc] receives when [Purge] visits the keys
    of [order], the most recent first. *)
Definition purge_calls (c : SimpleCache) (order : list K) : list (hookCall K V) :=
  if Base.purgeVisitorFunc (base c)
  then omap (λ k, (λ item, PurgeVisitorCall k (value item)) <$> store c !! k) (reverse order)
  else [].

End Simple.
Arguments simpleItem V : clear implicits.
Arguments SimpleCache K {_ _} V.
Arguments op K V : clear implicits.
End Simple.

(** ** The recency-ordered cache: [LRUCache] *)

Module LRU.
Section LRU.
Context `{Countable K} {V : Type}.

Record lruItem : Type := {
  key : K;
  value : V;
  expiration : option Z
}.

(** The map holds pointers to list elements and each element points to
    its item, which [set] and [SetWithExpire] mutate in place.  A pointer
    to an element is its index in [heap], the arena of the elements
    allocated so far (an element and the item it points to are allocated
    together and never separated, so one cell stands for both; a removed
    element stays allocated, as it does in Go while something points to
    it).  [evictList] is the recency list, front first. *)
Record LRUCache : Type := {
  base : Base.baseCache K V;
  store : gmap K nat;
  evictList : list nat;
  heap : list lruItem;
  hitCount : nat;
  missCount : nat;
  hookCalls : list (hookCall K V)
}.

Definition with_store (s : gmap K nat) (c : LRUCache) : LRUCache :=
  {| base := base c; store := s; evictList := evictList c; heap := heap c;
     hitCount := hitCount c; missCount := missCount c; hookCalls := hookCalls c |}.

Definition with_evictList (l : list nat) (c : LRUCache) : LRUCache :=
  {| base := base c; store := store c; evictList := l; heap := heap c;
     hitCount := hitCount c; missCount := missCount c; hookCalls := hookCalls c |}.

Definition with_heap (h : list lruItem) (c : LRUCache) : LRUCache :=
  {| base := base c; store := store c; evictList := evictList c; heap := h;
     hitCount := hitCount c; missCount := missCount c; hookCalls := hookCalls c |}.

Definition call_hook (enabled : bool) (e : hookCall K V) (c : LRUCache) : LRUCache :=
  if enabled
  then {| base := base c; store := store c; evictList := evictList c; heap := heap c;
          hitCount := hitCount c; missCount := missCount c;
          hookCalls := e :: hookCalls c |}
  else c.

Definition IncrHitCount (c : LRUCache) : LRUCache :=
  {| base := base c; store := store c; evictList := evictList c; heap := heap c;
     hitCount := S (hitCount c); missCount := missCount c; hookCalls := hookCalls c |}.

Definition IncrMissCount (c : LRUCache) : LRUCache :=
  {| base := base c; store := store c; evictList := evictList c; heap := heap c;
     hitCount := hitCount c; missCount := S (missCount c); hookCalls := hookCalls c |}.

(** *** [container/list], on lists of element pointers *)

(** [l.MoveToFront(e)]: nothing happens when [e] is not an element of [l]. *)
Definition list_MoveToFront (e : nat) (l : list nat) : list nat :=
  if bool_decide (e ∈ l) then e :: filter (λ x, x ≠ e) l else l.

Definition list_PushFront (e : nat) (l : list nat) : list nat := e :: l.

Definition list_Remove (e : nat) (l : list nat) : list nat := filter (λ x, x ≠ e) l.

Definition list_Back (l : list nat) : option nat := last l.

Definition list_Len (l : list nat) : Z := Z.of_nat (length l).

(** *** The cache *)

Definition init (c : LRUCache) : LRUCache :=
  with_store ∅ (with_evictList [] c).

Definition newLRUCache (cb : Base.baseCache K V) : LRUCache :=
  init {| base := cb; store := ∅; evictList := []; heap := [];
          hitCount := 0; missCount := 0; hookCalls := [] |}.

Definition isExpired (clk : Z) (it : lruItem) (now : option Z) : bool :=
  match expiration it with
  | None => false
  | Some t => bool_decide (t < default clk now)%Z
  end.

(** Every operation below answers [None] where the Go code would
    dereference a pointer to nothing (an element that was never
    allocated). *)
Definition removeElement (e : nat) (c : LRUCache) : option LRUCache :=
  entry ← heap c !! e;
  Some (call_hook (Base.evictedFunc (base c)) (EvictedCall (key entry) (value entry))
          (with_store (delete (key entry) (store c))
             (with_evictList (list_Remove e (evictList c)) c))).

Fixpoint evict_loop (n : nat) (c : LRUCache) : option LRUCache :=
  match n with
  | O => Some c
  | S n' =>
      match list_Back (evictList c) with
      | None => Some c
      | Some ent => c' ← removeElement ent c; evict_loop n' c'
      end
  end.

(** [for i := 0; i < count; i++]: [count] rounds, none when [count <= 0]. *)
Definition evict (count : Z) (c : LRUCache) : option LRUCache :=
  evict_loop (Z.to_nat count) c.

Definition set_value (e : nat) (v : V) (c : LRUCache) : LRUCache :=
  with_heap (alter (λ it, {| key := key it; value := v; expiration := expiration it |}) e (heap c)) c.

Definition set_expiration (e : nat) (t : Z) (c : LRUCache) : LRUCache :=
  with_heap (alter (λ it, {| key := key it; value := value it; expiration := Some t |}) e (heap c)) c.

(** [set]; the item it returns is designated by the pointer to its
    element. *)
Definition set (clk : Z) (key0 : K) (value0 : V) (c : LRUCache)
    : option (LRUCache * (option nat * option error)) :=
  match Base.serialize (base c) key0 value0 with
  | (_, Some err) => Some (c, (None, Some err))
  | (value1, None) =>
      r ← match store c !! key0 with
          | Some it =>
              _ ← heap c !! it;
              Some (set_value it value1
                      (with_evictList (list_MoveToFront it (evictList c)) c), it)
          | None =>
              c0 ← (if bool_decide (list_Len (evictList c) >= Base.capacity (base c))%Z
                    then evict 1 c else Some c);
              let e := length (heap c0) in
              Some (with_store (<[key0 := e]> (store c0))
                      (with_evictList (list_PushFront e (evictList c0))
                         (with_heap (heap c0 ++ [{| key := key0; value := value1;
                                                    expiration := None |}]) c0)), e)
          end;
      let c2 :=
        match Base.expiration (base c) with
        | Some d => set_expiration r.2 (clk + d)%Z r.1
        | None => r.1
        end in
      Some (call_hook (Base.addedFunc (base c)) (AddedCall key0 value1) c2, (Some r.2, None))
  end.

(** [Set] (the name is reserved in Rocq, hence the underscore). *)
Definition Set_ (clk : Z) (key0 : K) (value0 : V) (c : LRUCache)
    : option (LRUCache * option error) :=
  r ← set clk key0 value0 c; Some (r.1, r.2.2).

(** [SetWithExpire]; the type assertion [item.( *lruItem)] fails on a
    [nil] item, which [set] never returns together with a [nil] error. *)
Definition SetWithExpire (clk : Z) (key0 : K) (value0 : V) (expiration0 : Z)
    (c : LRUCache) : option (LRUCache * option error) :=
  r ← set clk key0 value0 c;
  match r with
  | (c', (_, Some err)) => Some (c', Some err)
  | (c', (Some item, None)) => Some (set_expiration item (clk + expiration0)%Z c', None)
  | (c', (None, None)) => None
  end.

Definition get (clk : Z) (key0 : K) (onLoad : bool) (c : LRUCache)
    : option (LRUCache * (option V * option error)) :=
  match store c !! key0 with
  | None =>
      Some ((if negb onLoad then IncrMissCount c else c), (None, Some KeyNotFoundError))
  | Some entry =>
      item ← heap c !! entry;
      if isExpired clk item None
      then
        c1 ← removeElement entry c;
        Some ((if negb onLoad then IncrMissCount c1 else c1), (None, Some KeyNotFoundError))
      else
        let c1 := with_evictList (list_MoveToFront entry (evictList c)) c in
        let c2 := if negb onLoad then IncrHitCount c1 else c1 in
        match Base.deserializeFunc (base c) with
        | Some f => Some (c2, f key0 (value item))
        | None => Some (c2, (Some (value item), None))
        end
  end.

Definition unsafeGet := get.

Definition getWithLoader (key0 : K) (isWait : bool) (c : LRUCache) : outcome K V :=
  if Base.loaderExpireFunc (base c)
  then CallsLoad key0 isWait
  else Returns None (Some KeyNotFoundError).

Definition Get (clk : Z) (key0 : K) (c : LRUCache) : option (LRUCache * outcome K V) :=
  r ← get clk key0 false c;
  if bool_decide (r.2.2 = Some KeyNotFoundError)
  then Some (r.1, getWithLoader key0 true r.1)
  else Some (r.1, Returns r.2.1 r.2.2).

Definition GetIFPresent (clk : Z) (key0 : K) (c : LRUCache)
    : option (LRUCache * outcome K V) :=
  r ← get clk key0 false c;
  if bool_decide (r.2.2 = Some KeyNotFoundError)
  then Some (r.1, getWithLoader key0 false r.1)
  else Some (r.1, Returns r.2.1 r.2.2).

Definition remove (key0 : K) (c : LRUCache) : option (LRUCache * option error) :=
  match store c !! key0 with
  | Some ent => c' ← removeElement ent c; Some (c', None)
  | None => Some (c, Some KeyNotFoundError)
  end.

Definition Remove := remove.

(** The visitor loop of [Purge], over the keys in iteration order. *)
Fixpoint purge_range (c0 : LRUCache) (order : list K) (c : LRUCache) : option LRUCache :=
  match order with
  | [] => Some c
  | key0 :: rest =>
      match store c0 !! key0 with
      | None => purge_range c0 rest c
      | Some item =>
          it ← heap c0 !! item;
          purge_range c0 rest (call_hook true (PurgeVisitorCall key0 (value it)) c)
      end
  end.

Definition Purge (order : list K) (c : LRUCache) : option LRUCache :=
  c1 ← (if Base.purgeVisitorFunc (base c) then purge_range c order c else Some c);
  Some (init c1).

Definition Len (c : LRUCache) : Z := Z.of_nat (size (store c)).

(** The key of the item an element points to, and the keys of the
    recency list, front first. *)
Definition elem_key (c : LRUCache) (e : nat) : option K := key <$> heap c !! e.

Definition list_keys (c : LRUCache) : list K := omap (elem_key c) (evictList c).


(** *** Sequences of operations *)

Inductive op : Type :=
  | OpSet (clk : Z) (key0 : K) (value0 : V)
  | OpSetWithExpire (clk : Z) (key0 : K) (value0 : V) (expiration0 : Z)
  | OpGet (clk : Z) (key0 : K)
  | OpGetIFPresent (clk : Z) (key0 : K)
  | OpRemove (key0 : K)
  | OpEvict (count : Z)
  | OpPurge (order : list K).

Definition step (o : op) (c : LRUCache) : option LRUCache :=
  match o with
  | OpSet clk k v => fst <$> Set_ clk k v c
  | OpSetWithExpire clk k v d => fst <$> SetWithExpire clk k v d c
  | OpGet clk k => fst <$> Get clk k c
  | OpGetIFPresent clk k => fst <$> GetIFPresent clk k c
  | OpRemove k => fst <$> Remove k c
  | OpEvict n => evict n c
  | OpPurge order => Purge order c
  end.

Fixpoint run (ops : list op) (c : LRUCache) : option LRUCache :=
  match ops with
  | [] => Some c
  | o :: rest => c' ← step o c; run rest c'
  end.

Definition op_key (o : op) : option K :=
  match o with
  | OpSet _ k _ | OpSetWithExpire _ k _ _ | OpGet _ k | OpGetIFPresent _ k
  | OpRemove k => Some k
  | OpEvict _ | OpPurge _ => None
  end.

Definition is_set (o : op) : bool :=
  match o with OpSet _ _ _ => true | _ => false end.

(** The position, counted from 1, of the last operation of [ops] on the
    key [k]; 0 when there is none.  It is read off the sequence alone.
    For a key the cache still holds after [ops], that operation is a [Set]
    or a read that hit: any other operation on the key finds it absent or
    leaves it absent. *)
Definition last_touch (ops : list op) (k : K) : nat :=
  match list_find (λ o, op_key o = Some k) (reverse ops) with
  | Some (i, _) => length ops - i
  | None => 0
  end.

(** The number of distinct keys a sequence of operations mentions. *)
Definition distinct_keys (ops : list op) : nat :=
  size (list_to_set (omap op_key ops) : gset K).

(** *** The invariant tying the map to the recency list *)

Record bijection (c : LRUCache) : Prop := {
  bij_NoDup : NoDup (evictList c);
  bij_store : ∀ k e, store c !! k = Some e →
                e ∈ evictList c ∧ ∃ it, heap c !! e = Some it ∧ key it = k;
  bij_list : ∀ e, e ∈ evictList c →
                ∃ it, heap c !! e = Some it ∧ store c !! key it = Some e
}.

(** The calls [c.evictedFunc] receives when the elements [es] are
    removed from [c] one after the other, the most recent first. *)
Definition evicted_calls (c : LRUCache) (es : list nat) : list (hookCall K V) :=
  if Base.evictedFunc (base c)
  then omap (λ e, (λ it, EvictedCall (key it) (value it)) <$> heap c !! e) es
  else [].

(** [k1] was touched after [k2] in [ops]. *)
Definition more_recent (ops : list op) (k1 k2 : K) : Prop :=
  last_touch ops k2 < last_touch ops k1.

(** The keys of [l] go from the most to the least recently touched. *)
Definition recency_sorted (ops : list op) (l : list K) : Prop :=
  StronglySorted (more_recent ops) l.

(** *** Bulk reads: [keys], [Keys], [GetALL]

    As for the unordered cache, [Keys] and [GetALL] answer [None] as soon
    as a probe goes on to [baseCache.load] (or where the Go code would
    dereference a pointer to nothing). *)

Definition present (st : gmap K nat) (k : K) : bool :=
  bool_decide (is_Some (st !! k)).

(** [order] is an order in which [range c.store] may yield the keys. *)
Definition range_order (order : list K) (c : LRUCache) : Prop :=
  NoDup order ∧ ∀ k, k ∈ order ↔ is_Some (store c !! k).

(** [keys]: the keys of the map, in iteration order. *)
Definition keys (order : list K) (c : LRUCache) : list K :=
  List.filter (present (store c)) order.

Fixpoint Keys_loop (clk : Z) (ks : list K) (c : LRUCache) (acc : list K)
    : option (LRUCache * list K) :=
  match ks with
  | [] => Some (c, acc)
  | k :: rest =>
      r ← GetIFPresent clk k c;
      match r with
      | (c', Returns _ None) => Keys_loop clk rest c' (acc ++ [k])
      | (c', Returns _ (Some _)) => Keys_loop clk rest c' acc
      | (_, CallsLoad _ _) => None
      end
  end.

Definition Keys (order : list K) (clk : Z) (c : LRUCache) : option (LRUCache * list K) :=
  Keys_loop clk (keys order c) c [].

Fixpoint GetALL_loop (clk : Z) (ks : list K) (c : LRUCache) (m : gmap K (option V))
    : option (LRUCache * gmap K (option V)) :=
  match ks with
  | [] => Some (c, m)
  | k :: rest =>
      r ← GetIFPresent clk k c;
      match r with
      | (c', Returns v None) => GetALL_loop clk rest c' (<[k := v]> m)
      | (c', Returns _ (Some _)) => GetALL_loop clk rest c' m
      | (_, CallsLoad _ _) => None
      end
  end.

Definition GetALL (order : list K) (clk : Z) (c : LRUCache)
    : option (LRUCache * gmap K (option V)) :=
  GetALL_loop clk (keys order c) c ∅.

(** The item the map leads to for [k]. *)
Definition item_of (c : LRUCache) (k : K) : option lruItem :=
  store c !! k ≫= λ e, heap c !! e.

(** The entry of [k] is there and not expired at [clk]; there and expired
    at [clk]. *)
Definition live (clk : Z) (c : LRUCache) (k : K) : bool :=
  match item_of c k with
  | Some it => negb (isExpired clk it None)
  | None => false
  end.

Definition stale (clk : Z) (c : LRUCache) (k : K) : bool :=
  match item_of c k with
  | Some it => isExpired clk it None
  | None => false
  end.

(** What a lookup that finds the live item [it] under [k] returns: the
    stored value, through the deserialize hook when there is one. *)
Definition read_result (c : LRUCache) (k : K) (it : lruItem) : option V * option error :=
  match Base.deserializeFunc (base c) with
  | Some f => f k (value it)
  | None => (Some (value it), None)
  end.

(** The entry of [k] is live at [clk] and its value is read without
    error. *)
Definition readable (clk : Z) (c : LRUCache) (k : K) : bool :=
  match item_of c k with
  | Some it => negb (isExpired clk it None) && bool_decide ((read_result c k it).2 = None)
  | None => false
  end.

Definition is_read (o : op) : bool :=
  match o with OpGet _ _ | OpGetIFPresent _ _ => true | _ => false end.

(** The number of reads ([Get], [GetIFPresent]) in a sequence. *)
Definition reads (ops : list op) : nat := length (List.filter is_read ops).

(** The calls [c.purgeVisitorFunc] receives when [Purge] visits the keys
    of [order], the most recent first. *)
Definition purge_calls (c : LRUCache) (order : list K) : list (hookCall K V) :=
  if Base.purgeVisitorFunc (base c)
  then omap (λ k, (λ it, PurgeVisitorCall k (value it)) <$> item_of c k) (reverse order)
  else [].

End LRU.
Arguments lruItem K V : clear implicits.
Arguments LRUCache K {_ _} V.
Arguments op K V : clear implicits.
End LRU.

(** ** Concrete caches, with natural numbers for keys and values *)

Module Examples.
(** A configuration without hooks or loader. *)
Definition config (size capacity : Z) (expiration : option Z) : Base.baseCache nat nat :=
  {| Base.size := size; Base.capacity := capacity; Base.expiration := expiration;
     Base.serializeFunc := None; Base.deserializeFunc := None;
     Base.addedFunc := false; Base.evictedFunc := false;
     Base.purgeVisitorFunc := false; Base.loaderExpireFunc := false |}.

(** The same with the eviction hook set, to observe the evicted keys. *)
Definition observed_config (size capacity : Z) (expiration : option Z)
    : Base.baseCache nat nat :=
  {| Base.size := size; Base.capacity := capacity; Base.expiration := expiration;
     Base.serializeFunc := None; Base.deserializeFunc := None;
     Base.addedFunc := false; Base.evictedFunc := true;
     Base.purgeVisitorFunc := false; Base.loaderExpireFunc := false |}.

(** Hooks that always fail. *)
Definition failing_serialize (key value : nat) : nat * option error :=
  (value, Some (OtherError 1)).

Definition failing_deserialize (key value : nat) : option nat * option error :=
  (None, Some (OtherError 2)).

Definition hooked_config (ser : bool) (de : bool) : Base.baseCache nat nat :=
  {| Base.size := 0; Base.capacity := 10; Base.expiration := None;
     Base.serializeFunc := if ser then Some failing_serialize else None;
     Base.deserializeFunc := if de then Some failing_deserialize else None;
     Base.addedFunc := true; Base.evictedFunc := true;
     Base.purgeVisitorFunc := false; Base.loaderExpireFunc := false |}.

(** A configuration whose added, evicted and purge-visitor hooks are set,
    to observe what they are told. *)
Definition visited_config (size capacity : Z) (expiration : option Z)
    : Base.baseCache nat nat :=
  {| Base.size := size; Base.capacity := capacity; Base.expiration := expiration;
     Base.serializeFunc := None; Base.deserializeFunc := None;
     Base.addedFunc := true; Base.evictedFunc := true;
     Base.purgeVisitorFunc := true; Base.loaderExpireFunc := false |}.

(** A configuration with a loader and no hooks. *)
Definition loader_config (size capacity : Z) (expiration : option Z)
    : Base.baseCache nat nat :=
  {| Base.size := size; Base.capacity := capacity; Base.expiration := expiration;
     Base.serializeFunc := None; Base.deserializeFunc := None;
     Base.addedFunc := false; Base.evictedFunc := false;
     Base.purgeVisitorFunc := false; Base.loaderExpireFunc := true |}.

Definition simple_of (cb : Base.baseCache nat nat)
    (entries : list (nat * Simple.simpleItem nat)) : Simple.SimpleCache nat nat :=
  {| Simple.base := cb; Simple.store := list_to_map entries;
     Simple.hitCount := 0; Simple.missCount := 0; Simple.hookCalls := [] |}.

Definition item (value : nat) (expiration : option Z) : Simple.simpleItem nat :=
  {| Simple.value := value; Simple.expiration := expiration |}.

(** The LRU cache a sequence of operations builds from scratch (the empty
    cache if the sequence were to fail). *)
Definition lru_after (cb : Base.baseCache nat nat) (ops : list (LRU.op nat nat))
    : LRU.LRUCache nat nat :=
  default (LRU.newLRUCache cb) (LRU.run ops (LRU.newLRUCache cb)).
End Examples.

(** * Auxiliary facts about lists *)

Section ListFacts.
Context {A : Type} `{EqDecision A}.
Implicit Types (l : list A) (x e : A).

Lemma filter_ne_notin e l : e ∉ l → filter (λ x, x ≠ e) l = l.
Proof.
  induction l as [|y l IH]; intros Hin; [done|].
  apply not_elem_of_cons in Hin as [Hne Hin].
  rewrite filter_cons_True by done. by rewrite IH.
Qed.

Lemma filter_ne_last e l :
  NoDup l → last l = Some e → filter (λ x, x ≠ e) l = take (length l - 1) l.
Proof.
  intros Hnd Hlast. apply last_Some in Hlast as [l' ->].
  apply NoDup_app in Hnd as (_ & Hdisj & _).
  rewrite filter_app, filter_ne_notin.
  - rewrite filter_cons_False, filter_nil by naive_solver.
    rewrite length_app. simpl.
    replace (length l' + 1 - 1) with (length l') by lia.
    by rewrite take_app_length, app_nil_r.
  - intros Hin. apply (Hdisj e Hin). apply list_elem_of_here.
Qed.

Lemma filter_ne_length e l :
  NoDup l → e ∈ l → length (filter (λ x, x ≠ e) l) = length l - 1.
Proof.
  induction l as [|y l IH]; intros Hnd Hin; [by apply elem_of_nil in Hin|].
  apply NoDup_cons in Hnd as [Hy Hnd].
  destruct (decide (y = e)) as [->|Hne].
  - rewrite filter_cons_False by naive_solver.
    rewrite filter_ne_notin by done. simpl. lia.
  - rewrite filter_cons_True by done. simpl.
    apply elem_of_cons in Hin as [->|Hin]; [done|].
    rewrite IH by done. destruct l; [by apply elem_of_nil in Hin|simpl; lia].
Qed.
End ListFacts.

Section OmapFacts.
Context {A B : Type} `{EqDecision A} `{EqDecision B}.
Implicit Types (f : A → option B) (l : list A).

Lemma omap_ext_in f g l : (∀ x, x ∈ l → f x = g x) → omap f l = omap g l.
Proof.
  induction l as [|x l IH]; intros Hfg; [done|]. csimpl.
  rewrite (Hfg x) by apply list_elem_of_here.
  rewrite IH; [done|]. intros y Hy. apply Hfg. by apply list_elem_of_further.
Qed.

Lemma omap_length_total f l :
  (∀ x, x ∈ l → is_Some (f x)) → length (omap f l) = length l.
Proof.
  induction l as [|x l IH]; intros Hf; [done|]. csimpl.
  destruct (Hf x) as [y ->]; [apply list_elem_of_here|]. csimpl.
  rewrite IH; [done|]. intros z Hz. apply Hf. by apply list_elem_of_further.
Qed.

Lemma omap_NoDup f l :
  NoDup l →
  (∀ x y k, x ∈ l → y ∈ l → f x = Some k → f y = Some k → x = y) →
  NoDup (omap f l).
Proof.
  induction l as [|x l IH]; intros Hnd Hinj; csimpl; [constructor|].
  apply NoDup_cons in Hnd as [Hx Hnd].
  assert (NoDup (omap f l)) as IH'.
  { apply IH; [done|]. intros y z k Hy Hz. apply Hinj; by apply list_elem_of_further. }
  destruct (f x) as [k|] eqn:Hfx; [|done].
  apply NoDup_cons. split; [|done].
  intros Hin. apply list_elem_of_omap in Hin as (y & Hy & Hfy).
  assert (x = y) as ->; [|done].
  eapply Hinj; eauto using list_elem_of_here, list_elem_of_further.
Qed.

(** Filtering out one element filters out its image, when no other
    element of the list has the same image. *)
Lemma omap_filter_ne f l e k :
  f e = Some k →
  (∀ x, x ∈ l → f x = Some k → x = e) →
  omap f (filter (λ x, x ≠ e) l) = filter (λ y, y ≠ k) (omap f l).
Proof.
  intros Hfe. induction l as [|x l IH]; intros Hinj; [done|].
  assert (omap f (filter (λ x, x ≠ e) l) = filter (λ y, y ≠ k) (omap f l)) as IH'.
  { apply IH. intros y Hy. apply Hinj. by apply list_elem_of_further. }
  destruct (decide (x = e)) as [->|Hne].
  - rewrite filter_cons_False by naive_solver. csimpl. rewrite Hfe.
    rewrite filter_cons_False by naive_solver. done.
  - rewrite filter_cons_True by done. csimpl.
    destruct (f x) as [k'|] eqn:Hfx; [|done].
    rewrite filter_cons_True; [by rewrite IH'|].
    intros ->. apply Hne, Hinj; [apply list_elem_of_here|done].
Qed.

Lemma omap_take_total f l n :
  (∀ x, x ∈ l → is_Some (f x)) → omap f (take n l) = take n (omap f l).
Proof.
  revert n. induction l as [|x l IH]; intros n Hf; [by destruct n|].
  destruct n as [|n]; [done|]. csimpl.
  destruct (Hf x) as [y ->]; [apply list_elem_of_here|]. csimpl.
  rewrite IH; [done|]. intros z Hz. apply Hf. by apply list_elem_of_further.
Qed.
End OmapFacts.

(** * Properties of the unordered cache *)

Section SimpleProofs.
Context `{Countable K} {V : Type}.
Implicit Types (c : Simple.SimpleCache K V) (st : gmap K (Simple.simpleItem V)).
Implicit Types (item : Simple.simpleItem V).
Implicit Types (order victims : list K) (k key : K).

Lemma simple_remove_store key c :
  Simple.store (Simple.remove key c).1 = delete key (Simple.store c).
Proof.
  unfold Simple.remove. destruct (Simple.store c !! key) as [item|] eqn:E; simpl.
  - unfold Simple.call_hook. by destruct (Base.evictedFunc _).
  - symmetry. by apply delete_id.
Qed.

Lemma simple_remove_base key c :
  Simple.base (Simple.remove key c).1 = Simple.base c.
Proof.
  unfold Simple.remove. destruct (Simple.store c !! key); simpl; [|done].
  unfold Simple.call_hook. by destruct (Base.evictedFunc _).
Qed.

Lemma simple_remove_counters key c :
  Simple.hitCount (Simple.remove key c).1 = Simple.hitCount c ∧
  Simple.missCount (Simple.remove key c).1 = Simple.missCount c.
Proof.
  unfold Simple.remove. destruct (Simple.store c !! key); simpl; [|done].
  unfold Simple.call_hook. by destruct (Base.evictedFunc _).
Qed.

(** The loop of [evict] stacks the first [count - current] candidates of
    the iteration order, the last one on top. *)
Lemma simple_evict_range_spec now st order : ∀ count current deferred,
  Simple.evict_range now st count current deferred order
  = reverse (firstn (Z.to_nat (count - current))
               (List.filter (Simple.candidate now st) order)) ++ deferred.
Proof.
  induction order as [|key rest IH]; intros count current deferred; simpl.
  - by rewrite firstn_nil.
  - assert (Hcand : Simple.candidate now st key
                    = from_option (Simple.evictable now) false (st !! key))
      by (unfold Simple.candidate; by destruct (st !! key)).
    rewrite Hcand. destruct (st !! key) as [item|] eqn:E; simpl; [|apply IH].
    case_bool_decide as Hc.
    + replace (Z.to_nat (count - current)) with 0%nat by lia. done.
    + destruct (Simple.evictable now item); [|apply IH].
      rewrite IH.
      replace (Z.to_nat (count - current)) with (S (Z.to_nat (count - (current + 1)))) by lia.
      simpl. rewrite reverse_cons, <- app_assoc. done.
Qed.

Lemma simple_run_deferred_reverse victims c :
  Simple.run_deferred (reverse victims) c
  = foldr (λ key c', (Simple.remove key c').1) c victims.
Proof.
  unfold Simple.run_deferred. revert c.
  induction victims as [|k l IH] using rev_ind; intros c; [done|].
  rewrite reverse_snoc. simpl. rewrite IH, foldr_app. done.
Qed.

Lemma simple_remove_all_store victims c :
  Simple.store (foldr (λ key c', (Simple.remove key c').1) c victims)
  = Simple.delete_all victims (Simple.store c).
Proof.
  induction victims as [|k l IH]; simpl; [done|].
  by rewrite simple_remove_store, IH.
Qed.

Lemma simple_remove_all_base victims c :
  Simple.base (foldr (λ key c', (Simple.remove key c').1) c victims) = Simple.base c.
Proof.
  induction victims as [|k l IH]; simpl; [done|].
  by rewrite simple_remove_base, IH.
Qed.

Lemma simple_remove_all_counters victims c :
  Simple.hitCount (foldr (λ key c', (Simple.remove key c').1) c victims) = Simple.hitCount c ∧
  Simple.missCount (foldr (λ key c', (Simple.remove key c').1) c victims) = Simple.missCount c.
Proof.
  induction victims as [|k l IH]; simpl; [done|].
  destruct (simple_remove_counters k (foldr (λ key c', (Simple.remove key c').1) c l)) as [-> ->].
  done.
Qed.

Lemma simple_delete_all_lookup_in victims st k :
  k ∈ victims → Simple.delete_all victims st !! k = None.
Proof.
  induction victims as [|k' l IH]; simpl; intros Hin.
  - by apply elem_of_nil in Hin.
  - destruct (decide (k' = k)) as [->|Hne]; [apply lookup_delete_eq|].
    rewrite lookup_delete_ne by done. apply IH.
    apply elem_of_cons in Hin as [->|]; done.
Qed.

Lemma simple_delete_all_lookup_notin victims st k :
  k ∉ victims → Simple.delete_all victims st !! k = st !! k.
Proof.
  induction victims as [|k' l IH]; simpl; intros Hin; [done|].
  apply not_elem_of_cons in Hin as [Hne Hin].
  rewrite lookup_delete_ne by done. by apply IH.
Qed.

Lemma simple_delete_all_size victims st :
  NoDup victims → (∀ k, k ∈ victims → is_Some (st !! k)) →
  size (Simple.delete_all victims st) = size st - length victims.
Proof.
  induction victims as [|k l IH]; intros Hnd Hin; simpl; [lia|].
  apply NoDup_cons in Hnd as [Hk Hnd].
  assert (is_Some (Simple.delete_all l st !! k)) as Hitem.
  { rewrite simple_delete_all_lookup_notin by done. apply Hin, list_elem_of_here. }
  pose proof (map_size_delete_Some k _ Hitem) as Hs. unfold Simple.delete_all in *.
  rewrite IH in Hs.
  - lia.
  - done.
  - intros k' Hk'. apply Hin. by apply list_elem_of_further.
Qed.

Lemma simple_remove_all_hookCalls victims c :
  NoDup victims →
  Simple.hookCalls (foldr (λ key c', (Simple.remove key c').1) c victims)
  = Simple.evicted_calls c victims ++ Simple.hookCalls c.
Proof.
  unfold Simple.evicted_calls.
  induction victims as [|k l IH]; intros Hnd; simpl.
  - by destruct (Base.evictedFunc _).
  - apply NoDup_cons in Hnd as [Hk Hnd]. specialize (IH Hnd).
    set (c' := foldr (λ key c', (Simple.remove key c').1) c l) in *.
    assert (Simple.store c' !! k = Simple.store c !! k) as Hlk.
    { unfold c'. rewrite simple_remove_all_store.
      by apply simple_delete_all_lookup_notin. }
    assert (Simple.base c' = Simple.base c) as Hb
      by apply simple_remove_all_base.
    unfold Simple.remove. rewrite Hlk, Hb.
    destruct (Simple.store c !! k) as [item|]; simpl; [|done].
    unfold Simple.call_hook. destruct (Base.evictedFunc (Simple.base c)); simpl; [|done].
    by rewrite IH.
Qed.

(** What [evict] does, in full: it removes the first [count] candidates
    of the iteration order, and nothing else. *)
Lemma simple_evict_spec order clk count c :
  let victims := firstn (Z.to_nat count)
                   (List.filter (Simple.candidate clk (Simple.store c)) order) in
  Simple.store (Simple.evict order clk count c) = Simple.delete_all victims (Simple.store c)
  ∧ Simple.base (Simple.evict order clk count c) = Simple.base c
  ∧ Simple.hitCount (Simple.evict order clk count c) = Simple.hitCount c
  ∧ Simple.missCount (Simple.evict order clk count c) = Simple.missCount c
  ∧ (NoDup order →
     Simple.hookCalls (Simple.evict order clk count c)
     = Simple.evicted_calls c victims ++ Simple.hookCalls c).
Proof.
  intros victims. unfold Simple.evict.
  rewrite simple_evict_range_spec, app_nil_r, Z.sub_0_r, simple_run_deferred_reverse.
  fold victims.
  split; [apply simple_remove_all_store|].
  split; [apply simple_remove_all_base|].
  split; [apply simple_remove_all_counters|].
  split; [apply simple_remove_all_counters|].
  intros Hnd. apply simple_remove_all_hookCalls.
  unfold victims. 
  assert (NoDup (List.filter (Simple.candidate clk (Simple.store c)) order)) as Hf.
  { apply NoDup_ListNoDup, List.NoDup_filter, NoDup_ListNoDup, Hnd. }
  rewrite <- (take_drop (Z.to_nat count)) in Hf. by apply NoDup_app in Hf as [? _].
Qed.

Lemma simple_candidate_present now st k :
  Simple.candidate now st k = true → is_Some (st !! k).
Proof. unfold Simple.candidate. destruct (st !! k); [eauto|done]. Qed.


Lemma simple_call_hook_store b e c : Simple.store (Simple.call_hook b e c) = Simple.store c.
Proof. by destruct b. Qed.

Lemma simple_call_hook_base b e c : Simple.base (Simple.call_hook b e c) = Simple.base c.
Proof. by destruct b. Qed.

Lemma simple_evict_base order clk count c :
  Simple.base (Simple.evict order clk count c) = Simple.base c.
Proof. apply simple_evict_spec. Qed.

(** When [set] does not fail, the map holds the serialized value under
    [key], with the default expiration when one is configured and
    otherwise the expiration the entry had (none for a new entry). *)
Lemma simple_set_ok order clk key v c v1 :
  Base.serialize (Simple.base c) key v = (v1, None) →
  ∃ c', Simple.set order clk key v c = (c', (Some key, None))
    ∧ Simple.base c' = Simple.base c
    ∧ Simple.hitCount c' = Simple.hitCount c
    ∧ Simple.missCount c' = Simple.missCount c
    ∧ Simple.store c' !! key
      = Some {| Simple.value := v1;
                Simple.expiration :=
                  match Base.expiration (Simple.base c) with
                  | Some d => Some (clk + d)%Z
                  | None => Simple.store c !! key ≫= Simple.expiration
                  end |}.
Proof.
  intros Hser. unfold Simple.set. rewrite Hser.
  eexists. split; [reflexivity|].
  set (c1 := match Simple.store c !! key with Some _ => _ | None => _ end).
  assert (Simple.base c1 = Simple.base c ∧ Simple.hitCount c1 = Simple.hitCount c
          ∧ Simple.missCount c1 = Simple.missCount c
          ∧ Simple.store c1 !! key
            = Some {| Simple.value := v1;
                      Simple.expiration := Simple.store c !! key ≫= Simple.expiration |})
    as (Hb & Hh & Hm & Hlk).
  { unfold c1. destruct (Simple.store c !! key) as [item|]; simpl.
    - by rewrite lookup_insert_eq.
    - rewrite lookup_insert_eq.
      destruct (_ && _); [|done].
      destruct (simple_evict_spec order clk 1 c) as (_ & ? & ? & ? & _). done. }
  rewrite simple_call_hook_base, simple_call_hook_store.
  unfold Simple.call_hook.
  destruct (Base.expiration (Simple.base c)) as [d|]; simpl.
  - rewrite lookup_alter_eq, Hlk. by destruct (Base.addedFunc _).
  - by destruct (Base.addedFunc _).
Qed.

Lemma simple_set_error order clk key v c v1 err :
  Base.serialize (Simple.base c) key v = (v1, Some err) →
  Simple.set order clk key v c = (c, (None, Some err)).
Proof. intros Hser. unfold Simple.set. by rewrite Hser. Qed.

Lemma simple_get_hit clk key c item :
  Simple.store c !! key = Some item →
  Simple.IsExpired clk item None = false →
  Simple.get clk key false c
  = (Simple.IncrHitCount c,
     match Base.deserializeFunc (Simple.base c) with
     | Some f => f key (Simple.value item)
     | None => (Some (Simple.value item), None)
     end).
Proof.
  intros Hlk Hexp. unfold Simple.get. rewrite Hlk, Hexp. simpl.
  by destruct (Base.deserializeFunc _).
Qed.

Lemma simple_get_absent clk key c :
  Simple.store c !! key = None →
  Simple.get clk key false c = (Simple.IncrMissCount c, (None, Some KeyNotFoundError)).
Proof. intros Hlk. unfold Simple.get. by rewrite Hlk. Qed.

Lemma simple_get_expired clk key c item :
  Simple.store c !! key = Some item →
  Simple.IsExpired clk item None = true →
  Simple.get clk key false c = ((Simple.remove key c).1, (None, Some KeyNotFoundError)).
Proof. intros Hlk Hexp. unfold Simple.get. by rewrite Hlk, Hexp. Qed.

Lemma simple_IsExpired_iff clk item :
  Simple.IsExpired clk item None = true
  ↔ ∃ t, Simple.expiration item = Some t ∧ (t < clk)%Z.
Proof.
  unfold Simple.IsExpired. destruct (Simple.expiration item) as [t|]; simpl.
  - rewrite bool_decide_eq_true. split; [eauto|]. by intros (? & [= <-] & ?).
  - split; [done|]. by intros (? & ? & _).
Qed.

Lemma simple_serialize_None c key v :
  Base.serializeFunc (Simple.base c) = None →
  Base.serialize (Simple.base c) key v = (v, None).
Proof. unfold Base.serialize. by intros ->. Qed.

Lemma simple_Set_ok order clk key v c v1 :
  Base.serialize (Simple.base c) key v = (v1, None) →
  ∃ c', Simple.Set_ order clk key v c = (c', None)
    ∧ Simple.base c' = Simple.base c
    ∧ Simple.store c' !! key
      = Some {| Simple.value := v1;
                Simple.expiration :=
                  match Base.expiration (Simple.base c) with
                  | Some d => Some (clk + d)%Z
                  | None => Simple.store c !! key ≫= Simple.expiration
                  end |}.
Proof.
  intros Hser.
  destruct (simple_set_ok order clk key v c v1 Hser) as (c' & Hset & Hb & _ & _ & Hlk).
  exists c'. unfold Simple.Set_. by rewrite Hset.
Qed.

Lemma simple_SetWithExpire_ok order clk key v d c v1 :
  Base.serialize (Simple.base c) key v = (v1, None) →
  ∃ c', Simple.SetWithExpire order clk key v d c = (c', None)
    ∧ Simple.base c' = Simple.base c
    ∧ Simple.store c' !! key
      = Some {| Simple.value := v1; Simple.expiration := Some (clk + d)%Z |}.
Proof.
  intros Hser.
  destruct (simple_set_ok order clk key v c v1 Hser) as (c' & Hset & Hb & _ & _ & Hlk).
  unfold Simple.SetWithExpire. rewrite Hset. eexists. split; [done|].
  split; [done|]. simpl. by rewrite lookup_alter_eq, Hlk.
Qed.

Lemma simple_Get_found clk key c item :
  Simple.store c !! key = Some item →
  Simple.IsExpired clk item None = false →
  Base.deserializeFunc (Simple.base c) = None →
  Simple.Get clk key c = (Simple.IncrHitCount c, Returns (Some (Simple.value item)) None).
Proof.
  intros Hlk Hexp Hde. unfold Simple.Get.
  rewrite (simple_get_hit clk key c item Hlk Hexp), Hde. done.
Qed.

Lemma simple_Get_expired clk key c item :
  Simple.store c !! key = Some item →
  Simple.IsExpired clk item None = true →
  Base.loaderExpireFunc (Simple.base c) = false →
  Simple.Get clk key c = ((Simple.remove key c).1, Returns None (Some KeyNotFoundError)).
Proof.
  intros Hlk Hexp Hlo. unfold Simple.Get.
  rewrite (simple_get_expired clk key c item Hlk Hexp). simpl.
  unfold Simple.getWithLoader. by rewrite simple_remove_base, Hlo.
Qed.

(** The two sides of the expiration instant, for an entry that carries
    one. *)
Lemma simple_Get_boundary clk key c item t :
  Simple.store c !! key = Some item →
  Simple.expiration item = Some t →
  Base.deserializeFunc (Simple.base c) = None →
  Base.loaderExpireFunc (Simple.base c) = false →
  ((clk ≤ t)%Z → (Simple.Get clk key c).2 = Returns (Some (Simple.value item)) None)
  ∧ ((t < clk)%Z →
     (Simple.Get clk key c).2 = Returns None (Some KeyNotFoundError)
     ∧ Simple.store (Simple.Get clk key c).1 !! key = None).
Proof.
  intros Hlk Ht Hde Hlo. split; intros Hclk.
  - rewrite (simple_Get_found clk key c item); [done|done| |done].
    apply not_true_is_false. rewrite simple_IsExpired_iff.
    intros (t' & Ht' & Hlt). rewrite Ht in Ht'. injection Ht' as <-. lia.
  - rewrite (simple_Get_expired clk key c item); [|done| |done].
    + simpl. split; [done|]. rewrite simple_remove_store. apply lookup_delete_eq.
    + apply simple_IsExpired_iff. eauto.
Qed.

(** With nothing to evict, [evict] leaves the map as it is: an entry
    whose expiration has not passed is never a candidate. *)
Lemma simple_evict_all_unexpired order clk count c :
  (∀ k item, Simple.store c !! k = Some item →
             ∃ t, Simple.expiration item = Some t ∧ (clk ≤ t)%Z) →
  Simple.store (Simple.evict order clk count c) = Simple.store c.
Proof.
  intros Hall.
  destruct (simple_evict_spec order clk count c) as (-> & _).
  assert (List.filter (Simple.candidate clk (Simple.store c)) order = []) as ->.
  { induction order as [|k order IH]; [done|]. simpl.
    unfold Simple.candidate at 1.
    destruct (Simple.store c !! k) as [item|] eqn:Hk; [|done].
    destruct (Hall k item Hk) as (t & Ht & Hle).
    unfold Simple.evictable. rewrite Ht.
    rewrite bool_decide_eq_false_2 by lia. done. }
  by rewrite firstn_nil.
Qed.


Lemma simple_set_store order clk key v c v1 :
  Base.serialize (Simple.base c) key v = (v1, None) →
  Simple.store (Simple.set order clk key v c).1
  = <[key := {| Simple.value := v1;
                Simple.expiration :=
                  match Base.expiration (Simple.base c) with
                  | Some d => Some (clk + d)%Z
                  | None => Simple.store c !! key ≫= Simple.expiration
                  end |}]>
      (match Simple.store c !! key with
       | Some _ => Simple.store c
       | None =>
           if bool_decide (Z.of_nat (size (Simple.store c)) >= Base.size (Simple.base c))%Z
              && bool_decide (Base.size (Simple.base c) > 0)%Z
           then Simple.store (Simple.evict order clk 1 c)
           else Simple.store c
       end).
Proof.
  intros Hser. unfold Simple.set. rewrite Hser. simpl.
  rewrite simple_call_hook_store.
  destruct (Simple.store c !! key) as [item|] eqn:Hk; simpl.
  - destruct (Base.expiration (Simple.base c)) as [d|]; simpl; [|done].
    by rewrite alter_insert_eq.
  - destruct (_ && _); destruct (Base.expiration (Simple.base c)) as [d|]; simpl;
      by rewrite ?alter_insert_eq.
Qed.

(** The map grows past any bound when every entry it holds carries an
    expiration that has not passed: [evict] finds nothing to remove and
    [set] inserts all the same. *)
Lemma simple_set_overflow order clk key v c v1 :
  Base.serialize (Simple.base c) key v = (v1, None) →
  Simple.store c !! key = None →
  (∀ k item, Simple.store c !! k = Some item →
             ∃ t, Simple.expiration item = Some t ∧ (clk ≤ t)%Z) →
  size (Simple.store (Simple.Set_ order clk key v c).1) = S (size (Simple.store c)).
Proof.
  intros Hser Hk Hall.
  assert (Simple.store (Simple.Set_ order clk key v c).1
          = Simple.store (Simple.set order clk key v c).1) as ->.
  { unfold Simple.Set_. by destruct (Simple.set order clk key v c) as [c' [i e]]. }
  rewrite (simple_set_store order clk key v c v1 Hser), Hk.
  rewrite simple_evict_all_unexpired by done.
  destruct (_ && _); by apply map_size_insert_None.
Qed.

Lemma simple_range_order_dom order c :
  NoDup order → list_to_set order = dom (Simple.store c) → Simple.range_order order c.
Proof.
  intros Hnd Hdom. split; [done|]. intros k.
  by rewrite <- elem_of_dom, <- Hdom, elem_of_list_to_set.
Qed.

Lemma simple_evictable_iff now item :
  Simple.evictable now item = true
  ↔ Simple.expiration item = None
    ∨ ∃ t, Simple.expiration item = Some t ∧ (t < now)%Z.
Proof.
  unfold Simple.evictable. destruct (Simple.expiration item) as [t|].
  - rewrite bool_decide_eq_true. split.
    + intros Hgt. right. exists t. split; [done|lia].
    + intros [Hn|(t' & [= <-] & Hlt)]; [done|lia].
  - split; [by left|done].
Qed.

(** C2 (as amended). [evict] makes one pass over the map, in iteration
    order, and removes the first [n] entries it meets that either have
    no expiration or have an expiration strictly in the past; the former
    are candidates on the same footing as the latter.  Stated for [n] no
    larger than the number of such entries. *)
Theorem simple_evict_first_candidates order clk (n : nat) c :
  Simple.range_order order c →
  n ≤ length (List.filter (Simple.candidate clk (Simple.store c)) order) →
  let victims := firstn n (List.filter (Simple.candidate clk (Simple.store c)) order) in
  let c' := Simple.evict order clk (Z.of_nat n) c in
  length victims = n
  ∧ Forall (λ k, ∃ item, Simple.store c !! k = Some item
                   ∧ (Simple.expiration item = None
                      ∨ ∃ t, Simple.expiration item = Some t ∧ (t < clk)%Z)) victims
  ∧ Simple.store c' = Simple.delete_all victims (Simple.store c)
  ∧ size (Simple.store c') = size (Simple.store c) - n
  ∧ Simple.hookCalls c' = Simple.evicted_calls c victims ++ Simple.hookCalls c.
Proof.
  intros [Hnd Hdom] Hn victims c'.
  destruct (simple_evict_spec order clk (Z.of_nat n) c) as (Hs & _ & _ & _ & Hca).
  rewrite Nat2Z.id in Hs, Hca. fold victims c' in Hs, Hca.
  assert (length victims = n) as Hlen by (unfold victims; rewrite length_take; lia).
  assert (∀ k, k ∈ victims → Simple.candidate clk (Simple.store c) k = true) as Hcand.
  { intros k Hk. unfold victims in Hk.
    apply elem_of_take in Hk as (i & Hi & _). apply list_elem_of_lookup_2 in Hi.
    apply list_elem_of_In, filter_In in Hi as [_ ?]. done. }
  assert (NoDup victims) as Hndv.
  { assert (NoDup (List.filter (Simple.candidate clk (Simple.store c)) order)) as Hf
      by (apply NoDup_ListNoDup, List.NoDup_filter, NoDup_ListNoDup, Hnd).
    rewrite <- (take_drop n) in Hf. by apply NoDup_app in Hf as [? _]. }
  split_and!; [done| |done| |by apply Hca].
  - apply Forall_forall. intros k Hk. specialize (Hcand k Hk).
    unfold Simple.candidate in Hcand.
    destruct (Simple.store c !! k) as [item|]; [|done].
    exists item. split; [done|]. by apply simple_evictable_iff.
  - rewrite Hs, simple_delete_all_size, Hlen; [done|done|].
    intros k Hk. by eapply simple_candidate_present, Hcand.
Qed.

(** A lookup that finds an expired entry removes it, reports the key as
    not found, and leaves both counters as they were. *)
Lemma simple_get_expired_counters clk key c item :
  Simple.store c !! key = Some item →
  Simple.IsExpired clk item None = true →
  (Simple.get clk key false c).2 = (None, Some KeyNotFoundError)
  ∧ Simple.missCount (Simple.get clk key false c).1 = Simple.missCount c
  ∧ Simple.hitCount (Simple.get clk key false c).1 = Simple.hitCount c.
Proof.
  intros Hlk Hexp. rewrite (simple_get_expired clk key c item Hlk Hexp). simpl.
  destruct (simple_remove_counters key c) as [-> ->]. done.
Qed.

Lemma simple_Set_error order clk key v c v1 err :
  Base.serialize (Simple.base c) key v = (v1, Some err) →
  Simple.Set_ order clk key v c = (c, Some err)
  ∧ ∀ d, Simple.SetWithExpire order clk key v d c = (c, Some err).
Proof.
  intros Hser. unfold Simple.Set_, Simple.SetWithExpire.
  by rewrite (simple_set_error order clk key v c v1 err Hser).
Qed.

(** [Set] then [Get], without hooks and with no expiration in effect
    for the key. *)
Lemma simple_Set_Get order clk clk' key v c :
  Base.serializeFunc (Simple.base c) = None →
  Base.deserializeFunc (Simple.base c) = None →
  Base.expiration (Simple.base c) = None →
  (∀ item, Simple.store c !! key = Some item → Simple.expiration item = None) →
  ∃ c1, Simple.Set_ order clk key v c = (c1, None)
        ∧ (Simple.Get clk' key c1).2 = Returns (Some v) None.
Proof.
  intros Hser Hde Hexp Hnone.
  destruct (simple_Set_ok order clk key v c v (simple_serialize_None c key v Hser))
    as (c1 & Hset & Hb & Hlk).
  exists c1. split; [done|]. rewrite Hexp in Hlk.
  assert (Simple.store c !! key ≫= Simple.expiration = None) as Hno.
  { destruct (Simple.store c !! key) as [item|] eqn:Hk; [|done]. simpl. by apply Hnone. }
  rewrite Hno in Hlk.
  rewrite (simple_Get_found clk' key c1 _ Hlk); [done|done|by rewrite Hb].
Qed.

(** [GetIFPresent] returns the value of the deserialize hook and drops
    its error, unless the error is [KeyNotFoundError]. *)
Lemma simple_GetIFPresent_drops_error clk key c item f v' err :
  Simple.store c !! key = Some item →
  Simple.IsExpired clk item None = false →
  Base.deserializeFunc (Simple.base c) = Some f →
  f key (Simple.value item) = (v', Some err) →
  err ≠ KeyNotFoundError →
  Simple.GetIFPresent clk key c = (Simple.IncrHitCount c, Returns v' None)
  ∧ Simple.Get clk key c = (Simple.IncrHitCount c, Returns v' (Some err)).
Proof.
  intros Hlk Hexp Hde Hf Hne. unfold Simple.GetIFPresent, Simple.Get.
  rewrite (simple_get_hit clk key c item Hlk Hexp), Hde, Hf.
  rewrite bool_decide_eq_false_2; [done|]. by intros [= ->].
Qed.

(** The expiration boundary, through the two ways of setting the
    instant. *)
Lemma simple_expiration_boundary order clk0 key v d c clk :
  Base.serializeFunc (Simple.base c) = None →
  Base.deserializeFunc (Simple.base c) = None →
  Base.loaderExpireFunc (Simple.base c) = false →
  ∀ c1,
    (Simple.SetWithExpire order clk0 key v d c = (c1, None)
     ∨ (Base.expiration (Simple.base c) = Some d
        ∧ Simple.Set_ order clk0 key v c = (c1, None))) →
    ((clk ≤ clk0 + d)%Z → (Simple.Get clk key c1).2 = Returns (Some v) None)
    ∧ ((clk0 + d < clk)%Z →
       (Simple.Get clk key c1).2 = Returns None (Some KeyNotFoundError)
       ∧ Simple.store (Simple.Get clk key c1).1 !! key = None).
Proof.
  intros Hser Hde Hlo c1 Hset.
  pose proof (simple_serialize_None c key v Hser) as Hser'.
  assert (Simple.base c1 = Simple.base c
          ∧ Simple.store c1 !! key
            = Some {| Simple.value := v; Simple.expiration := Some (clk0 + d)%Z |})
    as [Hb Hlk].
  { destruct Hset as [Hset|[Hexp Hset]].
    - destruct (simple_SetWithExpire_ok order clk0 key v d c v Hser') as (c' & Hset' & ? & ?).
      rewrite Hset in Hset'. by injection Hset' as <-.
    - destruct (simple_Set_ok order clk0 key v c v Hser') as (c' & Hset' & ? & Hlk).
      rewrite Hset in Hset'. injection Hset' as <-. by rewrite Hexp in Hlk. }
  apply (simple_Get_boundary clk key c1 _ (clk0 + d)%Z Hlk); [done| |]; by rewrite Hb.
Qed.

End SimpleProofs.

(** C2, witness: three entries, of which the one without expiration comes
    second in the iteration and the expired one third. *)
Lemma simple_evict_first_candidates_witness :
  let c := Examples.simple_of (Examples.observed_config 2 2 None)
             [(1, Examples.item 10 None); (2, Examples.item 20 (Some 5%Z));
              (3, Examples.item 30 (Some 100%Z))] in
  Simple.range_order [3; 1; 2] c
  ∧ Simple.store (Simple.evict [3; 1; 2] 50 1 c) = Simple.delete_all [1] (Simple.store c)
  ∧ Simple.hookCalls (Simple.evict [3; 1; 2] 50 1 c) = [EvictedCall 1 10].
Proof.
  intros c.
  assert (Simple.range_order [3; 1; 2] c) as Hrange.
  { apply simple_range_order_dom.
    - apply (bool_decide_unpack _). vm_compute. reflexivity.
    - apply (bool_decide_unpack _). vm_compute. reflexivity. }
  assert (1 ≤ length (List.filter (Simple.candidate 50 (Simple.store c)) [3; 1; 2])) as Hn.
  { vm_compute. lia. }
  split; [exact Hrange|].
  destruct (simple_evict_first_candidates [3; 1; 2] 50 1 c Hrange Hn) as (_ & _ & Hs & _ & Hca).
  split; [exact Hs|exact Hca].
Defined.

(** C2, counterexample.  With an entry that never expires ahead of an
    expired one in the iteration, the rule of the specification removes
    the expired entry and [evict] the other; with an entry that never
    expires behind one whose expiration has not passed, the rule removes
    the latter (the first non-expired entry met) and [evict] the former. *)
Lemma simple_evict_differs_from_spec_rule :
  let c1 := Examples.simple_of (Examples.config 2 2 None)
              [(1, Examples.item 10 None); (2, Examples.item 20 (Some 5%Z))] in
  let c2 := Examples.simple_of (Examples.config 2 2 None)
              [(1, Examples.item 10 None); (2, Examples.item 20 (Some 100%Z))] in
  (Simple.range_order [1; 2] c1
   ∧ Simple.spec_victims [1; 2] 50 1 (Simple.store c1) = [2]
   ∧ dom (Simple.store (Simple.evict [1; 2] 50 1 c1)) = {[2]}
   ∧ Simple.store (Simple.evict [1; 2] 50 1 c1)
     ≠ Simple.delete_all (Simple.spec_victims [1; 2] 50 1 (Simple.store c1)) (Simple.store c1))
  ∧ (Simple.range_order [2; 1] c2
     ∧ Simple.spec_victims [2; 1] 50 1 (Simple.store c2) = [2]
     ∧ dom (Simple.store (Simple.evict [2; 1] 50 1 c2)) = {[2]}
     ∧ Simple.store (Simple.evict [2; 1] 50 1 c2)
       ≠ Simple.delete_all (Simple.spec_victims [2; 1] 50 1 (Simple.store c2)) (Simple.store c2)).
Proof.
  intros c1 c2. split; split_and!.
  - apply simple_range_order_dom; apply (bool_decide_unpack _); vm_compute; reflexivity.
  - vm_compute. reflexivity.
  - apply (bool_decide_unpack _). vm_compute. reflexivity.
  - intros Heq. apply (f_equal (λ m, bool_decide (is_Some (m !! 2)))) in Heq.
    vm_compute in Heq. discriminate.
  - apply simple_range_order_dom; apply (bool_decide_unpack _); vm_compute; reflexivity.
  - vm_compute. reflexivity.
  - apply (bool_decide_unpack _). vm_compute. reflexivity.
  - intros Heq. apply (f_equal (λ m, bool_decide (is_Some (m !! 2)))) in Heq.
    vm_compute in Heq. discriminate.
Qed.

(** C1, the failing input.  A Simple cache of size 1 with a default
    time-to-live: whatever the iteration orders, the second [Set] finds the
    map full, [evict] finds no entry it accepts to remove, and the map ends
    up with two entries. *)
Theorem simple_capacity_exceeded (order1 order2 : list nat) :
  let c0 := Simple.newSimpleCache (Examples.config 1 1 (Some 100%Z)) in
  let c1 := (Simple.Set_ order1 0 1 10 c0).1 in
  let c2 := (Simple.Set_ order2 1 2 20 c1).1 in
  Base.size (Simple.base c2) = 1%Z ∧ Simple.Len c1 = 1%Z ∧ Simple.Len c2 = 2%Z.
Proof.
  intros c0 c1 c2.
  assert (c1 = Examples.simple_of (Examples.config 1 1 (Some 100%Z))
                 [(1, Examples.item 10 (Some 100%Z))]) as Hc1.
  { vm_compute. reflexivity. }
  assert (Simple.base c2 = Simple.base c1) as Hb.
  { destruct (simple_Set_ok order2 1 2 20 c1 20 eq_refl) as (c' & Hset & Hb & _).
    unfold c2. by rewrite Hset. }
  split; [by rewrite Hb, Hc1|]. split; [by rewrite Hc1|].
  unfold Simple.Len, c2.
  rewrite (simple_set_overflow order2 1 2 20 c1 20); [by rewrite Hc1|done|by rewrite Hc1|].
  rewrite Hc1. intros k item Hk. simpl in Hk.
  apply lookup_insert_Some in Hk as [[_ <-]|[_ Hk]]; [|by rewrite lookup_empty in Hk].
  exists 100%Z. split; [done|lia].
Qed.

(** C7, the failing input.  A Simple cache holds key 1 with expiration
    instant 5; a [Get] at instant 10 reports the key as not found, and the
    miss counter has not moved. *)
Theorem simple_expired_get_not_counted :
  let c := (Simple.SetWithExpire [] 0 1 10 5
              (Simple.newSimpleCache (Examples.config 0 0 None))).1 in
  (Simple.Get 10 1 c).2 = Returns None (Some KeyNotFoundError)
  ∧ Simple.missCount (Simple.Get 10 1 c).1 = Simple.missCount c
  ∧ Simple.hitCount (Simple.Get 10 1 c).1 = Simple.hitCount c.
Proof. vm_compute. done. Qed.

(** * Properties of the recency-ordered cache *)

Section LRUProofs.
Context `{Countable K} {V : Type}.
Implicit Types (c : LRU.LRUCache K V) (e : nat) (k key : K) (it : LRU.lruItem K V).

Lemma lru_elem_key_Some c e k :
  LRU.elem_key c e = Some k ↔ ∃ it, LRU.heap c !! e = Some it ∧ LRU.key it = k.
Proof.
  unfold LRU.elem_key. destruct (LRU.heap c !! e) as [it|]; simpl; split.
  - intros [= <-]. eauto.
  - by intros (? & [= <-] & <-).
  - done.
  - by intros (? & ? & _).
Qed.

(** The invariant only reads the map, the list and the keys of the
    elements of the list. *)
Lemma lru_bijection_ext c c' :
  LRU.store c' = LRU.store c →
  LRU.evictList c' = LRU.evictList c →
  (∀ e, e ∈ LRU.evictList c → LRU.elem_key c' e = LRU.elem_key c e) →
  LRU.bijection c → LRU.bijection c'.
Proof.
  intros Hs Hl Hk [Hnd Hst Hli]. split; rewrite ?Hs, ?Hl.
  - done.
  - intros k e Hke. destruct (Hst k e Hke) as (Hin & Hit).
    split; [done|]. apply lru_elem_key_Some. rewrite Hk by done.
    by apply lru_elem_key_Some.
  - intros e Hin. destruct (Hli e Hin) as (it & Hit & Hke).
    assert (LRU.elem_key c' e = Some (LRU.key it)) as Hk'.
    { rewrite Hk by done. apply lru_elem_key_Some. eauto. }
    apply lru_elem_key_Some in Hk' as (it' & Hit' & Hkey).
    exists it'. by rewrite Hkey.
Qed.

Lemma lru_list_keys_ext c c' :
  LRU.evictList c' = LRU.evictList c →
  (∀ e, e ∈ LRU.evictList c → LRU.elem_key c' e = LRU.elem_key c e) →
  LRU.list_keys c' = LRU.list_keys c.
Proof. intros Hl Hk. unfold LRU.list_keys. rewrite Hl. by apply omap_ext_in. Qed.

Lemma lru_bijection_elem_key c e :
  LRU.bijection c → e ∈ LRU.evictList c →
  ∃ k, LRU.elem_key c e = Some k ∧ LRU.store c !! k = Some e.
Proof.
  intros Hb Hin. destruct (LRU.bij_list c Hb e Hin) as (it & Hit & Hk).
  exists (LRU.key it). split; [|done]. apply lru_elem_key_Some. eauto.
Qed.

Lemma lru_bijection_store_key c k e :
  LRU.bijection c → LRU.store c !! k = Some e →
  e ∈ LRU.evictList c ∧ LRU.elem_key c e = Some k.
Proof.
  intros Hb Hk. destruct (LRU.bij_store c Hb k e Hk) as (Hin & Hit).
  split; [done|]. by apply lru_elem_key_Some.
Qed.

Lemma lru_elem_key_inj c e1 e2 k :
  LRU.bijection c → e1 ∈ LRU.evictList c → e2 ∈ LRU.evictList c →
  LRU.elem_key c e1 = Some k → LRU.elem_key c e2 = Some k → e1 = e2.
Proof.
  intros Hb H1 H2 Hk1 Hk2.
  destruct (lru_bijection_elem_key c e1 Hb H1) as (k1 & Hk1' & Hs1).
  destruct (lru_bijection_elem_key c e2 Hb H2) as (k2 & Hk2' & Hs2).
  congruence.
Qed.

Lemma lru_list_keys_elem_of c k :
  LRU.bijection c → k ∈ LRU.list_keys c ↔ is_Some (LRU.store c !! k).
Proof.
  intros Hb. unfold LRU.list_keys. rewrite list_elem_of_omap. split.
  - intros (e & Hin & Hk).
    destruct (lru_bijection_elem_key c e Hb Hin) as (k' & Hk' & Hs).
    exists e. congruence.
  - intros [e He]. exists e. by apply lru_bijection_store_key.
Qed.

Lemma lru_list_keys_NoDup c : LRU.bijection c → NoDup (LRU.list_keys c).
Proof.
  intros Hb. apply omap_NoDup; [apply Hb|].
  intros e1 e2 k. by apply lru_elem_key_inj.
Qed.

Lemma lru_list_keys_length c :
  LRU.bijection c → length (LRU.list_keys c) = length (LRU.evictList c).
Proof.
  intros Hb. apply omap_length_total. intros e Hin.
  destruct (lru_bijection_elem_key c e Hb Hin) as (k & -> & _). eauto.
Qed.

Lemma lru_store_size c :
  LRU.bijection c → size (LRU.store c) = length (LRU.list_keys c).
Proof.
  intros Hb. rewrite <- size_dom.
  assert (dom (LRU.store c) = list_to_set (LRU.list_keys c)) as ->.
  { apply set_eq. intros k.
    rewrite elem_of_dom, elem_of_list_to_set. symmetry. by apply lru_list_keys_elem_of. }
  apply size_list_to_set, lru_list_keys_NoDup, Hb.
Qed.

(** The map and the list have the same number of entries. *)
Lemma lru_bijection_Len c :
  LRU.bijection c → size (LRU.store c) = length (LRU.evictList c).
Proof. intros Hb. by rewrite lru_store_size, lru_list_keys_length. Qed.

Lemma lru_new_bijection cb : LRU.bijection (LRU.newLRUCache (K:=K) (V:=V) cb).
Proof.
  split; simpl.
  - constructor.
  - intros k e Hk. by rewrite lookup_empty in Hk.
  - intros e He. by apply elem_of_nil in He.
Qed.

Lemma lru_init_bijection c : LRU.bijection (LRU.init c).
Proof.
  split; simpl.
  - constructor.
  - intros k e Hk. by rewrite lookup_empty in Hk.
  - intros e He. by apply elem_of_nil in He.
Qed.

Lemma lru_call_hook_proj b ev c :
  LRU.store (LRU.call_hook b ev c) = LRU.store c
  ∧ LRU.evictList (LRU.call_hook b ev c) = LRU.evictList c
  ∧ LRU.heap (LRU.call_hook b ev c) = LRU.heap c
  ∧ LRU.base (LRU.call_hook b ev c) = LRU.base c
  ∧ LRU.hitCount (LRU.call_hook b ev c) = LRU.hitCount c
  ∧ LRU.missCount (LRU.call_hook b ev c) = LRU.missCount c
  ∧ LRU.hookCalls (LRU.call_hook b ev c) = (if b then [ev] else []) ++ LRU.hookCalls c.
Proof. by destruct b. Qed.

Lemma lru_elem_key_heap c c' e :
  LRU.heap c' = LRU.heap c → LRU.elem_key c' e = LRU.elem_key c e.
Proof. unfold LRU.elem_key. by intros ->. Qed.

(** Removing an element of the list removes its key from the map and
    keeps the two structures in step. *)
Lemma lru_removeElement_spec c e :
  LRU.bijection c → e ∈ LRU.evictList c →
  ∃ c' it,
    LRU.removeElement e c = Some c'
    ∧ LRU.heap c !! e = Some it
    ∧ LRU.store c !! LRU.key it = Some e
    ∧ LRU.store c' = delete (LRU.key it) (LRU.store c)
    ∧ LRU.evictList c' = filter (λ x, x ≠ e) (LRU.evictList c)
    ∧ LRU.heap c' = LRU.heap c
    ∧ LRU.base c' = LRU.base c
    ∧ LRU.hitCount c' = LRU.hitCount c
    ∧ LRU.missCount c' = LRU.missCount c
    ∧ LRU.hookCalls c' = LRU.evicted_calls c [e] ++ LRU.hookCalls c
    ∧ LRU.bijection c'
    ∧ LRU.list_keys c' = filter (λ k, k ≠ LRU.key it) (LRU.list_keys c).
Proof.
  intros Hb Hin.
  destruct (LRU.bij_list c Hb e Hin) as (it & Hit & Hk).
  unfold LRU.removeElement. rewrite Hit. simpl.
  eexists _, it. split; [reflexivity|].
  destruct (lru_call_hook_proj (Base.evictedFunc (LRU.base c))
              (EvictedCall (LRU.key it) (LRU.value it))
              (LRU.with_store (delete (LRU.key it) (LRU.store c))
                 (LRU.with_evictList (LRU.list_Remove e (LRU.evictList c)) c)))
    as (Hs & Hl & Hh & Hba & Hhi & Hmi & Hca).
  simpl in *. unfold LRU.list_Remove in *.
  set (c' := LRU.call_hook _ _ _) in *.
  do 9 (split; [try done|]).
  { rewrite Hca. unfold LRU.evicted_calls. simpl. rewrite Hit. simpl.
    by destruct (Base.evictedFunc _). }
  assert (∀ e', LRU.elem_key c' e' = LRU.elem_key c e') as Hek
    by (intros e'; by apply lru_elem_key_heap).
  split.
  - split; rewrite ?Hs, ?Hl.
    + apply NoDup_filter, Hb.
    + intros k' e' Hke'. apply lookup_delete_Some in Hke' as [Hne Hke'].
      destruct (LRU.bij_store c Hb k' e' Hke') as (Hin' & it' & Hit' & Hk').
      split; [|rewrite Hh; eauto].
      apply list_elem_of_filter. split; [|done]. intros ->. congruence.
    + intros e' He'. apply list_elem_of_filter in He' as [Hne He'].
      destruct (LRU.bij_list c Hb e' He') as (it' & Hit' & Hk').
      exists it'. rewrite Hh. split; [done|].
      rewrite lookup_delete_ne; [done|]. intros Heq. rewrite Heq in Hk. congruence.
  - unfold LRU.list_keys. rewrite Hl.
    rewrite (omap_ext_in (LRU.elem_key c') (LRU.elem_key c)) by (intros; apply Hek).
    apply omap_filter_ne.
    + apply lru_elem_key_Some. eauto.
    + intros e' He' Hk'. eapply lru_elem_key_inj; eauto. apply lru_elem_key_Some. eauto.
Qed.


Lemma lru_evicted_calls_app c es1 es2 :
  LRU.evicted_calls c (es1 ++ es2) = LRU.evicted_calls c es1 ++ LRU.evicted_calls c es2.
Proof.
  unfold LRU.evicted_calls. destruct (Base.evictedFunc _); [|done]. apply omap_app.
Qed.

Lemma lru_evicted_calls_ext c c' es :
  LRU.heap c' = LRU.heap c → LRU.base c' = LRU.base c →
  LRU.evicted_calls c' es = LRU.evicted_calls c es.
Proof. unfold LRU.evicted_calls. by intros -> ->. Qed.

(** [evict] removes from the back of the list: after [n] rounds the
    list is the old one without its last [n] elements. *)
Lemma lru_evict_loop_spec n : ∀ c,
  LRU.bijection c →
  ∃ c',
    LRU.evict_loop n c = Some c'
    ∧ LRU.bijection c'
    ∧ LRU.evictList c' = take (length (LRU.evictList c) - n) (LRU.evictList c)
    ∧ LRU.list_keys c' = take (length (LRU.list_keys c) - n) (LRU.list_keys c)
    ∧ LRU.store c' ⊆ LRU.store c
    ∧ LRU.heap c' = LRU.heap c
    ∧ LRU.base c' = LRU.base c
    ∧ LRU.hitCount c' = LRU.hitCount c
    ∧ LRU.missCount c' = LRU.missCount c
    ∧ LRU.hookCalls c'
      = LRU.evicted_calls c (drop (length (LRU.evictList c) - n) (LRU.evictList c))
        ++ LRU.hookCalls c.
Proof.
  induction n as [|n IH]; intros c Hb; simpl.
  - exists c. rewrite !Nat.sub_0_r, !firstn_all, drop_all.
    split_and!; try done. unfold LRU.evicted_calls. by destruct (Base.evictedFunc _).
  - unfold LRU.list_Back.
    destruct (last (LRU.evictList c)) as [b|] eqn:Hlast.
    + assert (b ∈ LRU.evictList c) as Hin by (by apply last_Some_elem_of).
      destruct (lru_removeElement_spec c b Hb Hin)
        as (c1 & it & -> & Hit & Hk & Hs1 & Hl1 & Hh1 & Hba1 & Hhi1 & Hmi1 & Hca1 & Hb1 & Hlk1).
      simpl.
      destruct (IH c1 Hb1) as (c' & -> & Hb' & Hl' & Hlk' & Hs' & Hh' & Hba' & Hhi' & Hmi' & Hca').
      exists c'. split; [done|]. split; [done|].
      pose proof (filter_ne_last b (LRU.evictList c) (LRU.bij_NoDup c Hb) Hlast) as Hfl.
      rewrite Hfl in Hl1.
      assert (LRU.list_keys c1 = take (length (LRU.list_keys c) - 1) (LRU.list_keys c)) as Hlk1'.
      { unfold LRU.list_keys at 1. rewrite Hl1.
        rewrite (omap_ext_in (LRU.elem_key c1) (LRU.elem_key c))
          by (intros; by apply lru_elem_key_heap).
        rewrite lru_list_keys_length by done.
        apply omap_take_total. intros e He.
        destruct (lru_bijection_elem_key c e Hb He) as (k & -> & _). eauto. }
      assert (length (LRU.evictList c) ≠ 0) as Hlen.
      { intros Hz. apply length_zero_iff_nil in Hz. rewrite Hz in Hin.
        by apply elem_of_nil in Hin. }
      assert (length (LRU.list_keys c) ≠ 0) as Hlenk
        by (by rewrite lru_list_keys_length).
      split_and!.
      * rewrite Hl', Hl1, length_take, take_take. f_equal. lia.
      * rewrite Hlk', Hlk1', length_take, take_take. f_equal. lia.
      * etrans; [done|]. rewrite Hs1. apply delete_subseteq.
      * congruence.
      * congruence.
      * congruence.
      * congruence.
      * rewrite Hca', Hca1, app_assoc. f_equal.
        rewrite (lru_evicted_calls_ext c c1) by done.
        rewrite <- lru_evicted_calls_app. f_equal.
        rewrite Hl1, length_take.
        apply last_Some in Hlast as [l' Hl].
        rewrite Hl, length_app. simpl.
        replace (length l' + 1 - 1) with (length l') by lia.
        rewrite take_app_length.
        replace (length l' `min` (length l' + 1)) with (length l') by lia.
        replace (length l' + 1 - S n) with (length l' - n) by lia.
        rewrite drop_app_le by lia. done.
    + exists c. apply last_None in Hlast.
      assert (LRU.list_keys c = []) as Hlk
        by (unfold LRU.list_keys; by rewrite Hlast).
      rewrite Hlast, Hlk. simpl.
      split_and!; try done. unfold LRU.evicted_calls. by destruct (Base.evictedFunc _).
Qed.


(** Rewriting the item of an element in place, its key untouched,
    changes neither the invariant nor the keys of the list. *)
Lemma lru_alter_heap_spec (f : LRU.lruItem K V → LRU.lruItem K V) e c :
  (∀ it, LRU.key (f it) = LRU.key it) →
  let c' := LRU.with_heap (alter f e (LRU.heap c)) c in
  (∀ e', LRU.elem_key c' e' = LRU.elem_key c e')
  ∧ (LRU.bijection c → LRU.bijection c')
  ∧ LRU.list_keys c' = LRU.list_keys c.
Proof.
  intros Hf c'.
  assert (∀ e', LRU.elem_key c' e' = LRU.elem_key c e') as Hek.
  { intros e'. unfold LRU.elem_key, c'. simpl. rewrite list_lookup_alter.
    case_decide as Hd; [|done]. subst e'.
    destruct (LRU.heap c !! e); simpl; [by rewrite Hf|done]. }
  split; [done|]. split.
  - apply lru_bijection_ext; [done|done|]. intros; apply Hek.
  - apply lru_list_keys_ext; [done|]. intros; apply Hek.
Qed.

(** Pushing a fresh element for an absent key. *)
Lemma lru_push_spec c k v1 :
  LRU.bijection c → LRU.store c !! k = None →
  let e := length (LRU.heap c) in
  let item := {| LRU.key := k; LRU.value := v1; LRU.expiration := None |} in
  let c' := LRU.with_store (<[k := e]> (LRU.store c))
              (LRU.with_evictList (LRU.list_PushFront e (LRU.evictList c))
                 (LRU.with_heap (LRU.heap c ++ [item]) c)) in
  LRU.bijection c' ∧ LRU.list_keys c' = k :: LRU.list_keys c
  ∧ LRU.heap c' !! e = Some item.
Proof.
  intros Hb Hk e item c'.
  assert (LRU.heap c' !! e = Some item) as He.
  { unfold c', e. simpl. by rewrite list_lookup_middle. }
  assert (∀ e', e' ∈ LRU.evictList c → LRU.heap c' !! e' = LRU.heap c !! e') as Hold.
  { intros e' He'. destruct (LRU.bij_list c Hb e' He') as (it' & Hit' & _).
    unfold c'. simpl. rewrite Hit'. by apply lookup_app_l_Some. }
  assert (e ∉ LRU.evictList c) as Hfresh.
  { intros Hin. destruct (LRU.bij_list c Hb e Hin) as (it' & Hit' & _).
    apply lookup_lt_Some in Hit'. unfold e in Hit'. lia. }
  split; [|split; [|done]].
  - split; unfold c' at 1; simpl; unfold LRU.list_PushFront.
    + apply NoDup_cons. split; [done|apply Hb].
    + intros k' e' Hk'. apply lookup_insert_Some in Hk' as [[<- <-]|[Hne Hk']].
      * split; [apply list_elem_of_here|]. eauto.
      * destruct (LRU.bij_store c Hb k' e' Hk') as (Hin & it' & Hit' & Hkey).
        split; [by apply list_elem_of_further|].
        exists it'. by rewrite Hold.
    + intros e' He'. apply elem_of_cons in He' as [->|He'].
      * exists item. split; [done|]. simpl. by rewrite lookup_insert_eq.
      * destruct (LRU.bij_list c Hb e' He') as (it' & Hit' & Hkey).
        exists it'. rewrite Hold by done. split; [done|].
        rewrite lookup_insert_ne; [done|]. intros Heq. rewrite Heq in Hk. congruence.
  - unfold LRU.list_keys. unfold c' at 2. simpl. unfold LRU.list_PushFront. csimpl.
    unfold LRU.elem_key at 1. rewrite He. simpl. f_equal.
    apply omap_ext_in. intros e' He'. unfold LRU.elem_key. by rewrite Hold.
Qed.

(** Moving an element of the list to its front. *)
Lemma lru_MoveToFront_spec c e k :
  LRU.bijection c → LRU.store c !! k = Some e →
  let c' := LRU.with_evictList (LRU.list_MoveToFront e (LRU.evictList c)) c in
  LRU.bijection c'
  ∧ LRU.evictList c' = e :: filter (λ x, x ≠ e) (LRU.evictList c)
  ∧ LRU.list_keys c' = k :: filter (λ k', k' ≠ k) (LRU.list_keys c).
Proof.
  intros Hb Hk c'.
  destruct (lru_bijection_store_key c k e Hb Hk) as (Hin & Hek).
  assert (LRU.evictList c' = e :: filter (λ x, x ≠ e) (LRU.evictList c)) as Hl.
  { unfold c', LRU.list_MoveToFront. simpl. by rewrite bool_decide_eq_true_2. }
  split; [|split; [done|]].
  - split; rewrite ?Hl.
    + apply NoDup_cons. split; [|apply NoDup_filter, Hb].
      rewrite list_elem_of_filter. by intros [? _].
    + intros k' e' Hk'. destruct (LRU.bij_store c Hb k' e' Hk') as (Hin' & Hit').
      split; [|done]. destruct (decide (e' = e)) as [->|Hne]; [apply list_elem_of_here|].
      apply list_elem_of_further, list_elem_of_filter. done.
    + intros e' He'. apply (LRU.bij_list c Hb).
      apply elem_of_cons in He' as [->|He']; [done|].
      by apply list_elem_of_filter in He' as [_ ?].
  - unfold LRU.list_keys. rewrite Hl. csimpl.
    change (LRU.elem_key c' e) with (LRU.elem_key c e). rewrite Hek. f_equal.
    apply (omap_filter_ne (LRU.elem_key c)); [done|].
    intros e' He' Hk'. by eapply lru_elem_key_inj.
Qed.


Lemma lru_set_error clk k v c v1 err :
  Base.serialize (LRU.base c) k v = (v1, Some err) →
  LRU.set clk k v c = Some (c, (None, Some err)).
Proof. intros Hser. unfold LRU.set. by rewrite Hser. Qed.

(** [set] on a key the map holds: the element moves to the front and its
    item takes the new value. *)
Lemma lru_set_existing clk k v c v1 e it :
  LRU.bijection c →
  Base.serialize (LRU.base c) k v = (v1, None) →
  LRU.store c !! k = Some e → LRU.heap c !! e = Some it →
  ∃ c',
    LRU.set clk k v c = Some (c', (Some e, None))
    ∧ LRU.bijection c'
    ∧ LRU.store c' = LRU.store c
    ∧ LRU.evictList c' = e :: filter (λ x, x ≠ e) (LRU.evictList c)
    ∧ LRU.list_keys c' = k :: filter (λ k', k' ≠ k) (LRU.list_keys c)
    ∧ LRU.heap c' !! e
      = Some {| LRU.key := k; LRU.value := v1;
                LRU.expiration :=
                  match Base.expiration (LRU.base c) with
                  | Some d => Some (clk + d)%Z
                  | None => LRU.expiration it
                  end |}
    ∧ LRU.base c' = LRU.base c
    ∧ LRU.hitCount c' = LRU.hitCount c
    ∧ LRU.missCount c' = LRU.missCount c
    ∧ LRU.hookCalls c'
      = (if Base.addedFunc (LRU.base c) then [AddedCall k v1] else []) ++ LRU.hookCalls c.
Proof.
  intros Hb Hser Hk Hit.
  assert (LRU.key it = k) as Hkey.
  { destruct (LRU.bij_store c Hb k e Hk) as (_ & it' & Hit' & ?). congruence. }
  unfold LRU.set. rewrite Hser, Hk, Hit. simpl.
  eexists. split; [reflexivity|].
  destruct (lru_MoveToFront_spec c e k Hb Hk) as (Hb1 & Hl1 & Hlk1).
  set (c1 := LRU.with_evictList (LRU.list_MoveToFront e (LRU.evictList c)) c) in *.
  set (fv := λ it0 : LRU.lruItem K V,
         {| LRU.key := LRU.key it0; LRU.value := v1; LRU.expiration := LRU.expiration it0 |}).
  destruct (lru_alter_heap_spec fv e c1 (λ _, eq_refl)) as (_ & Hb2 & Hlk2).
  change (LRU.with_heap (alter fv e (LRU.heap c1)) c1) with (LRU.set_value e v1 c1) in *.
  set (c2 := LRU.set_value e v1 c1) in *.
  assert (LRU.heap c2 !! e = Some (fv it)) as Hh2.
  { unfold c2, LRU.set_value. simpl. by rewrite list_lookup_alter_eq, Hit. }
  set (c3 := match Base.expiration (LRU.base c) with
             | Some d => LRU.set_expiration e (clk + d) c2
             | None => c2
             end).
  assert (LRU.bijection c3 ∧ LRU.store c3 = LRU.store c
          ∧ LRU.evictList c3 = LRU.evictList c1
          ∧ LRU.list_keys c3 = LRU.list_keys c1
          ∧ LRU.heap c3 !! e
            = Some {| LRU.key := k; LRU.value := v1;
                      LRU.expiration :=
                        match Base.expiration (LRU.base c) with
                        | Some d => Some (clk + d)%Z
                        | None => LRU.expiration it
                        end |}
          ∧ LRU.base c3 = LRU.base c ∧ LRU.hitCount c3 = LRU.hitCount c
          ∧ LRU.missCount c3 = LRU.missCount c ∧ LRU.hookCalls c3 = LRU.hookCalls c)
    as (Hb3 & Hs3 & Hl3 & Hlk3 & Hh3 & Hba3 & Hhi3 & Hmi3 & Hca3).
  { unfold c3. destruct (Base.expiration (LRU.base c)) as [d|].
    - set (fe := λ it0 : LRU.lruItem K V,
             {| LRU.key := LRU.key it0; LRU.value := LRU.value it0;
                LRU.expiration := Some (clk + d)%Z |}).
      destruct (lru_alter_heap_spec fe e c2 (λ _, eq_refl)) as (_ & Hb3 & Hlk3).
      split_and!; try done.
      + by apply Hb3, Hb2.
      + by rewrite <- Hlk2.
      + change (LRU.heap (LRU.set_expiration e (clk + d) c2))
          with (alter fe e (LRU.heap c2)).
        rewrite list_lookup_alter_eq, Hh2. unfold fe, fv. simpl. by rewrite Hkey.
    - split_and!; try done.
      + by apply Hb2.
      + rewrite Hh2. unfold fv. by rewrite Hkey. }
  destruct (lru_call_hook_proj (Base.addedFunc (LRU.base c)) (AddedCall k v1) c3)
    as (Hs & Hl & Hh & Hba & Hhi & Hmi & Hca).
  fold c3. set (c4 := LRU.call_hook _ _ c3) in *.
  split_and!; try congruence.
  - eapply lru_bijection_ext; [exact Hs|exact Hl| |exact Hb3].
    intros e' _. by apply lru_elem_key_heap.
  - rewrite <- Hlk1, <- Hlk3. apply lru_list_keys_ext; [done|].
    intros e' _. by apply lru_elem_key_heap.
Qed.

(** The tail of [set] for an absent key: push, default expiration,
    added hook. *)
Lemma lru_insert_spec clk k v1 c0 (dflt : option Z) (added : bool) :
  LRU.bijection c0 → LRU.store c0 !! k = None →
  let e := length (LRU.heap c0) in
  let c1 := LRU.with_store (<[k := e]> (LRU.store c0))
              (LRU.with_evictList (LRU.list_PushFront e (LRU.evictList c0))
                 (LRU.with_heap (LRU.heap c0 ++ [{| LRU.key := k; LRU.value := v1;
                                                    LRU.expiration := None |}]) c0)) in
  let c2 := match dflt with
            | Some d => LRU.set_expiration e (clk + d) c1
            | None => c1
            end in
  let c3 := LRU.call_hook added (AddedCall k v1) c2 in
  LRU.bijection c3
  ∧ LRU.store c3 = <[k := e]> (LRU.store c0)
  ∧ LRU.evictList c3 = e :: LRU.evictList c0
  ∧ LRU.list_keys c3 = k :: LRU.list_keys c0
  ∧ LRU.heap c3 !! e
    = Some {| LRU.key := k; LRU.value := v1;
              LRU.expiration := (λ d, (clk + d)%Z) <$> dflt |}
  ∧ LRU.base c3 = LRU.base c0
  ∧ LRU.hitCount c3 = LRU.hitCount c0
  ∧ LRU.missCount c3 = LRU.missCount c0
  ∧ LRU.hookCalls c3 = (if added then [AddedCall k v1] else []) ++ LRU.hookCalls c0.
Proof.
  intros Hb Hk e c1 c2 c3.
  destruct (lru_push_spec c0 k v1 Hb Hk) as (Hb1 & Hlk1 & Hh1).
  fold e c1 in Hb1, Hlk1, Hh1.
  assert (LRU.bijection c2 ∧ LRU.store c2 = LRU.store c1
          ∧ LRU.evictList c2 = LRU.evictList c1
          ∧ LRU.list_keys c2 = LRU.list_keys c1
          ∧ LRU.heap c2 !! e
            = Some {| LRU.key := k; LRU.value := v1;
                      LRU.expiration := (λ d, (clk + d)%Z) <$> dflt |}
          ∧ LRU.base c2 = LRU.base c1 ∧ LRU.hitCount c2 = LRU.hitCount c1
          ∧ LRU.missCount c2 = LRU.missCount c1 ∧ LRU.hookCalls c2 = LRU.hookCalls c1)
    as (Hb2 & Hs2 & Hl2 & Hlk2 & Hh2 & Hba2 & Hhi2 & Hmi2 & Hca2).
  { unfold c2. destruct dflt as [d|]; [|done].
    set (fe := λ it0 : LRU.lruItem K V,
             {| LRU.key := LRU.key it0; LRU.value := LRU.value it0;
                LRU.expiration := Some (clk + d)%Z |}).
    destruct (lru_alter_heap_spec fe e c1 (λ _, eq_refl)) as (_ & Hb2 & Hlk2).
    split_and!; try done.
    - by apply Hb2.
    - change (LRU.heap (LRU.set_expiration e (clk + d) c1))
        with (alter fe e (LRU.heap c1)).
      by rewrite list_lookup_alter_eq, Hh1. }
  destruct (lru_call_hook_proj added (AddedCall k v1) c2)
    as (Hs & Hl & Hh & Hba & Hhi & Hmi & Hca).
  fold c3 in Hs, Hl, Hh, Hba, Hhi, Hmi, Hca.
  split_and!; try congruence.
  - eapply lru_bijection_ext; [exact Hs|exact Hl| |exact Hb2].
    intros e' _. by apply lru_elem_key_heap.
  - rewrite Hs, Hs2. done.
  - rewrite Hl, Hl2. done.
  - rewrite <- Hlk1, <- Hlk2. apply lru_list_keys_ext; [done|].
    intros e' _. by apply lru_elem_key_heap.
  - rewrite Hba, Hba2. done.
  - rewrite Hhi, Hhi2. done.
  - rewrite Hmi, Hmi2. done.
  - rewrite Hca, Hca2. done.
Qed.

(** [set] on a key the map does not hold: when the list is full its back
    element is evicted first, then a fresh element is pushed in front. *)
Lemma lru_set_new clk k v c v1 :
  LRU.bijection c →
  Base.serialize (LRU.base c) k v = (v1, None) →
  LRU.store c !! k = None →
  let full := bool_decide (LRU.list_Len (LRU.evictList c) >= Base.capacity (LRU.base c))%Z in
  let e := length (LRU.heap c) in
  ∃ c',
    LRU.set clk k v c = Some (c', (Some e, None))
    ∧ LRU.bijection c'
    ∧ LRU.store c' !! k = Some e
    ∧ LRU.evictList c'
      = e :: (if full then take (length (LRU.evictList c) - 1) (LRU.evictList c)
              else LRU.evictList c)
    ∧ LRU.list_keys c'
      = k :: (if full then take (length (LRU.list_keys c) - 1) (LRU.list_keys c)
              else LRU.list_keys c)
    ∧ LRU.heap c' !! e
      = Some {| LRU.key := k; LRU.value := v1;
                LRU.expiration := (λ d, (clk + d)%Z) <$> Base.expiration (LRU.base c) |}
    ∧ LRU.base c' = LRU.base c
    ∧ LRU.hitCount c' = LRU.hitCount c
    ∧ LRU.missCount c' = LRU.missCount c
    ∧ LRU.hookCalls c'
      = (if Base.addedFunc (LRU.base c) then [AddedCall k v1] else [])
        ++ (if full
            then LRU.evicted_calls c
                   (drop (length (LRU.evictList c) - 1) (LRU.evictList c))
            else [])
        ++ LRU.hookCalls c.
Proof.
  intros Hb Hser Hk full e.
  assert (∃ c0,
    (if full then LRU.evict 1 c else Some c) = Some c0
    ∧ LRU.bijection c0
    ∧ LRU.evictList c0
      = (if full then take (length (LRU.evictList c) - 1) (LRU.evictList c)
         else LRU.evictList c)
    ∧ LRU.list_keys c0
      = (if full then take (length (LRU.list_keys c) - 1) (LRU.list_keys c)
         else LRU.list_keys c)
    ∧ LRU.store c0 ⊆ LRU.store c
    ∧ LRU.heap c0 = LRU.heap c
    ∧ LRU.base c0 = LRU.base c
    ∧ LRU.hitCount c0 = LRU.hitCount c
    ∧ LRU.missCount c0 = LRU.missCount c
    ∧ LRU.hookCalls c0
      = (if full
         then LRU.evicted_calls c (drop (length (LRU.evictList c) - 1) (LRU.evictList c))
         else [])
        ++ LRU.hookCalls c)
    as (c0 & Hev & Hb0 & Hl0 & Hlk0 & Hs0 & Hh0 & Hba0 & Hhi0 & Hmi0 & Hca0).
  { destruct full.
    - apply (lru_evict_loop_spec 1 c Hb).
    - exists c. split_and!; done. }
  assert (LRU.store c0 !! k = None) as Hk0 by (by eapply lookup_weaken_None).
  unfold LRU.set. rewrite Hser, Hk. fold full. rewrite Hev. simpl.
  eexists. rewrite Hh0. split; [reflexivity|].
  destruct (lru_insert_spec clk k v1 c0 (Base.expiration (LRU.base c))
              (Base.addedFunc (LRU.base c)) Hb0 Hk0)
    as (Hb3 & Hs3 & Hl3 & Hlk3 & Hh3 & Hba3 & Hhi3 & Hmi3 & Hca3).
  rewrite Hh0 in Hb3, Hs3, Hl3, Hlk3, Hh3, Hba3, Hhi3, Hmi3, Hca3.
  fold e in Hb3, Hs3, Hl3, Hlk3, Hh3, Hba3, Hhi3, Hmi3, Hca3 |- *.
  split_and!.
  - exact Hb3.
  - rewrite Hs3. apply lookup_insert_eq.
  - by rewrite Hl3, Hl0.
  - by rewrite Hlk3, Hlk0.
  - exact Hh3.
  - congruence.
  - congruence.
  - congruence.
  - by rewrite Hca3, Hca0.
Qed.

Lemma lru_get_absent clk k onLoad c :
  LRU.store c !! k = None →
  LRU.get clk k onLoad c
  = Some ((if negb onLoad then LRU.IncrMissCount c else c), (None, Some KeyNotFoundError)).
Proof. intros Hk. unfold LRU.get. by rewrite Hk. Qed.

Lemma lru_isExpired_iff clk it :
  LRU.isExpired clk it None = true ↔ ∃ t, LRU.expiration it = Some t ∧ (t < clk)%Z.
Proof.
  unfold LRU.isExpired. destruct (LRU.expiration it) as [t|]; simpl.
  - rewrite bool_decide_eq_true. split; [eauto|]. by intros (? & [= <-] & ?).
  - split; [done|]. by intros (? & ? & _).
Qed.

(** A lookup that finds an expired entry removes it and counts a miss. *)
Lemma lru_get_expired clk k onLoad c e it :
  LRU.bijection c →
  LRU.store c !! k = Some e → LRU.heap c !! e = Some it →
  LRU.isExpired clk it None = true →
  ∃ c',
    LRU.get clk k onLoad c = Some (c', (None, Some KeyNotFoundError))
    ∧ LRU.bijection c'
    ∧ LRU.store c' = delete k (LRU.store c)
    ∧ LRU.evictList c' = filter (λ x, x ≠ e) (LRU.evictList c)
    ∧ LRU.list_keys c' = filter (λ k', k' ≠ k) (LRU.list_keys c)
    ∧ LRU.heap c' = LRU.heap c
    ∧ LRU.base c' = LRU.base c
    ∧ LRU.hitCount c' = LRU.hitCount c
    ∧ LRU.missCount c' = (if onLoad then 0 else 1) + LRU.missCount c
    ∧ LRU.hookCalls c' = LRU.evicted_calls c [e] ++ LRU.hookCalls c.
Proof.
  intros Hb Hk Hit Hexp.
  destruct (LRU.bij_store c Hb k e Hk) as (Hin & it' & Hit' & Hkey).
  assert (it' = it) as -> by congruence.
  destruct (lru_removeElement_spec c e Hb Hin)
    as (c1 & it' & Hrm & Hit1 & Hk1 & Hs1 & Hl1 & Hh1 & Hba1 & Hhi1 & Hmi1 & Hca1 & Hb1 & Hlk1).
  assert (it' = it) as -> by congruence.
  unfold LRU.get. rewrite Hk, Hit. simpl. rewrite Hexp, Hrm. simpl.
  eexists. split; [reflexivity|]. rewrite Hkey in Hs1, Hlk1.
  destruct onLoad; simpl.
  - split_and!; done.
  - split_and!; try done.
    + eapply lru_bijection_ext; [| | |exact Hb1]; done.
    + by rewrite Hmi1.
Qed.

(** A lookup that finds a live entry moves it to the front and counts a
    hit; the value goes through the deserialize hook when there is one. *)
Lemma lru_get_hit clk k onLoad c e it :
  LRU.bijection c →
  LRU.store c !! k = Some e → LRU.heap c !! e = Some it →
  LRU.isExpired clk it None = false →
  ∃ c',
    LRU.get clk k onLoad c
    = Some (c', match Base.deserializeFunc (LRU.base c) with
                | Some f => f k (LRU.value it)
                | None => (Some (LRU.value it), None)
                end)
    ∧ LRU.bijection c'
    ∧ LRU.store c' = LRU.store c
    ∧ LRU.evictList c' = e :: filter (λ x, x ≠ e) (LRU.evictList c)
    ∧ LRU.list_keys c' = k :: filter (λ k', k' ≠ k) (LRU.list_keys c)
    ∧ LRU.heap c' = LRU.heap c
    ∧ LRU.base c' = LRU.base c
    ∧ LRU.hitCount c' = (if onLoad then 0 else 1) + LRU.hitCount c
    ∧ LRU.missCount c' = LRU.missCount c
    ∧ LRU.hookCalls c' = LRU.hookCalls c.
Proof.
  intros Hb Hk Hit Hexp.
  destruct (lru_MoveToFront_spec c e k Hb Hk) as (Hb1 & Hl1 & Hlk1).
  set (c1 := LRU.with_evictList (LRU.list_MoveToFront e (LRU.evictList c)) c) in *.
  exists (if negb onLoad then LRU.IncrHitCount c1 else c1). split.
  - unfold LRU.get. rewrite Hk, Hit. simpl. rewrite Hexp. fold c1.
    by destruct (Base.deserializeFunc _).
  - destruct onLoad; simpl.
    + split_and!; done.
    + split_and!; try done.
      eapply lru_bijection_ext; [| | |exact Hb1]; done.
Qed.

Lemma lru_get_total clk k onLoad c :
  LRU.bijection c →
  ∃ c' r, LRU.get clk k onLoad c = Some (c', r)
          ∧ LRU.bijection c' ∧ LRU.base c' = LRU.base c.
Proof.
  intros Hb. destruct (LRU.store c !! k) as [e|] eqn:Hk.
  - destruct (LRU.bij_store c Hb k e Hk) as (Hin & it & Hit & Hkey).
    destruct (LRU.isExpired clk it None) eqn:Hexp.
    + destruct (lru_get_expired clk k onLoad c e it Hb Hk Hit Hexp)
        as (c' & -> & Hb' & _ & _ & _ & _ & Hba & _). eauto.
    + destruct (lru_get_hit clk k onLoad c e it Hb Hk Hit Hexp)
        as (c' & -> & Hb' & _ & _ & _ & _ & Hba & _). eauto.
  - rewrite lru_get_absent by done. eexists _, _. split; [done|].
    destruct onLoad; simpl; [done|]. split; [|done].
    eapply lru_bijection_ext; [| | |exact Hb]; done.
Qed.

Lemma lru_serialize_cases (c : LRU.LRUCache K V) k v :
  (∃ v1, Base.serialize (LRU.base c) k v = (v1, None))
  ∨ (∃ v1 err, Base.serialize (LRU.base c) k v = (v1, Some err)).
Proof. destruct (Base.serialize (LRU.base c) k v) as [v1 [err|]]; eauto. Qed.

(** [set] never dereferences a dangling pointer and keeps the map and
    the list in step; on success the item it returns is allocated. *)
Lemma lru_set_total clk k v c :
  LRU.bijection c →
  ∃ c' item err,
    LRU.set clk k v c = Some (c', (item, err))
    ∧ LRU.bijection c' ∧ LRU.base c' = LRU.base c
    ∧ (err = None → ∃ e, item = Some e ∧ LRU.store c' !! k = Some e).
Proof.
  intros Hb. destruct (lru_serialize_cases c k v) as [[v1 Hser]|(v1 & err & Hser)].
  - destruct (LRU.store c !! k) as [e|] eqn:Hk.
    + destruct (LRU.bij_store c Hb k e Hk) as (Hin & it & Hit & Hkey).
      destruct (lru_set_existing clk k v c v1 e it Hb Hser Hk Hit)
        as (c' & -> & Hb' & Hs' & _ & _ & _ & Hba' & _).
      eexists _, _, _. split_and!; try done. intros _. exists e. by rewrite Hs'.
    + destruct (lru_set_new clk k v c v1 Hb Hser Hk)
        as (c' & -> & Hb' & Hs' & _ & _ & _ & Hba' & _).
      eexists _, _, _. split_and!; try done. eauto.
  - rewrite (lru_set_error clk k v c v1 err Hser).
    eexists _, _, _. split_and!; done.
Qed.

Lemma lru_Set_total clk k v c :
  LRU.bijection c →
  ∃ c' err, LRU.Set_ clk k v c = Some (c', err)
            ∧ LRU.bijection c' ∧ LRU.base c' = LRU.base c.
Proof.
  intros Hb. destruct (lru_set_total clk k v c Hb) as (c' & item & err & Hset & Hb' & Hba & _).
  unfold LRU.Set_. rewrite Hset. simpl. eauto.
Qed.

Lemma lru_set_expiration_bijection e t c :
  LRU.bijection c → LRU.bijection (LRU.set_expiration e t c).
Proof.
  intros Hb. unfold LRU.set_expiration.
  by apply (lru_alter_heap_spec
              (λ it0, {| LRU.key := LRU.key it0; LRU.value := LRU.value it0;
                         LRU.expiration := Some t |}) e c (λ _, eq_refl)).
Qed.

Lemma lru_SetWithExpire_total clk k v d c :
  LRU.bijection c →
  ∃ c' err, LRU.SetWithExpire clk k v d c = Some (c', err)
            ∧ LRU.bijection c' ∧ LRU.base c' = LRU.base c.
Proof.
  intros Hb.
  destruct (lru_set_total clk k v c Hb) as (c' & item & err & Hset & Hb' & Hba & Hok).
  unfold LRU.SetWithExpire. rewrite Hset. simpl.
  destruct err as [err|].
  - destruct item; simpl; eauto.
  - destruct (Hok eq_refl) as (e & -> & _).
    eexists _, _. split; [done|]. split; [|done].
    by apply lru_set_expiration_bijection.
Qed.

Lemma lru_Get_total clk k c :
  LRU.bijection c →
  ∃ c' r, LRU.Get clk k c = Some (c', r)
          ∧ LRU.bijection c' ∧ LRU.base c' = LRU.base c.
Proof.
  intros Hb. destruct (lru_get_total clk k false c Hb) as (c' & r & Hget & Hb' & Hba).
  unfold LRU.Get. rewrite Hget. simpl. case_bool_decide; eauto.
Qed.

Lemma lru_GetIFPresent_total clk k c :
  LRU.bijection c →
  ∃ c' r, LRU.GetIFPresent clk k c = Some (c', r)
          ∧ LRU.bijection c' ∧ LRU.base c' = LRU.base c.
Proof.
  intros Hb. destruct (lru_get_total clk k false c Hb) as (c' & r & Hget & Hb' & Hba).
  unfold LRU.GetIFPresent. rewrite Hget. simpl. case_bool_decide; eauto.
Qed.

Lemma lru_remove_total k c :
  LRU.bijection c →
  ∃ c' err, LRU.remove k c = Some (c', err)
            ∧ LRU.bijection c' ∧ LRU.base c' = LRU.base c.
Proof.
  intros Hb. unfold LRU.remove. destruct (LRU.store c !! k) as [e|] eqn:Hk; [|eauto].
  destruct (LRU.bij_store c Hb k e Hk) as (Hin & _).
  destruct (lru_removeElement_spec c e Hb Hin)
    as (c' & it & -> & _ & _ & _ & _ & _ & Hba & _ & _ & _ & Hb' & _).
  simpl. eauto.
Qed.

Lemma lru_evict_total count c :
  LRU.bijection c →
  ∃ c', LRU.evict count c = Some c' ∧ LRU.bijection c' ∧ LRU.base c' = LRU.base c.
Proof.
  intros Hb. unfold LRU.evict.
  destruct (lru_evict_loop_spec (Z.to_nat count) c Hb)
    as (c' & -> & Hb' & _ & _ & _ & _ & Hba & _). eauto.
Qed.

Lemma lru_purge_range_total c0 order : ∀ c,
  LRU.bijection c0 →
  ∃ c', LRU.purge_range c0 order c = Some c' ∧ LRU.base c' = LRU.base c.
Proof.
  induction order as [|k order IH]; intros c Hb; simpl; [eauto|].
  destruct (LRU.store c0 !! k) as [e|] eqn:Hk; [|by apply IH].
  destruct (LRU.bij_store c0 Hb k e Hk) as (_ & it & -> & _). simpl.
  destruct (IH (LRU.call_hook true (PurgeVisitorCall k (LRU.value it)) c) Hb)
    as (c' & Hc' & Hba).
  exists c'. split; [exact Hc'|exact Hba].
Qed.

Lemma lru_Purge_total order c :
  LRU.bijection c →
  ∃ c', LRU.Purge order c = Some c' ∧ LRU.bijection c' ∧ LRU.base c' = LRU.base c
        ∧ LRU.store c' = ∅ ∧ LRU.evictList c' = [].
Proof.
  intros Hb. unfold LRU.Purge.
  destruct (Base.purgeVisitorFunc (LRU.base c)).
  - destruct (lru_purge_range_total c order c Hb) as (c' & -> & Hba). simpl.
    eexists. split; [done|]. split; [apply lru_init_bijection|]. done.
  - simpl. eexists. split; [done|]. split; [apply lru_init_bijection|]. done.
Qed.

(** Every operation runs to completion from a state that satisfies the
    invariant, and re-establishes it. *)
Lemma lru_step_total o c :
  LRU.bijection c →
  ∃ c', LRU.step o c = Some c' ∧ LRU.bijection c' ∧ LRU.base c' = LRU.base c.
Proof.
  intros Hb. destruct o as [clk k v|clk k v d|clk k|clk k|k|n|order]; simpl.
  - destruct (lru_Set_total clk k v c Hb) as (c' & err & -> & ? & ?). simpl. eauto.
  - destruct (lru_SetWithExpire_total clk k v d c Hb) as (c' & err & -> & ? & ?).
    simpl. eauto.
  - destruct (lru_Get_total clk k c Hb) as (c' & r & -> & ? & ?). simpl. eauto.
  - destruct (lru_GetIFPresent_total clk k c Hb) as (c' & r & -> & ? & ?). simpl. eauto.
  - unfold LRU.Remove.
    destruct (lru_remove_total k c Hb) as (c' & err & -> & ? & ?). simpl. eauto.
  - by apply lru_evict_total.
  - destruct (lru_Purge_total order c Hb) as (c' & -> & ? & ? & _). eauto.
Qed.

Lemma lru_run_total ops : ∀ c,
  LRU.bijection c →
  ∃ c', LRU.run ops c = Some c' ∧ LRU.bijection c' ∧ LRU.base c' = LRU.base c.
Proof.
  induction ops as [|o ops IH]; intros c Hb; simpl; [eauto|].
  destruct (lru_step_total o c Hb) as (c1 & -> & Hb1 & Hba1). simpl.
  destruct (IH c1 Hb1) as (c' & -> & Hb' & Hba'). exists c'. split_and!; congruence.
Qed.

Lemma lru_run_app ops1 ops2 c :
  LRU.run (ops1 ++ ops2) c = LRU.run ops1 c ≫= LRU.run ops2.
Proof.
  revert c. induction ops1 as [|o ops1 IH]; intros c; simpl; [done|].
  destruct (LRU.step o c) as [c1|]; simpl; [apply IH|done].
Qed.

(** ** Recency order *)

Lemma lru_last_touch_snoc (ops : list (LRU.op K V)) o k :
  LRU.last_touch (ops ++ [o]) k
  = if decide (LRU.op_key o = Some k) then S (length ops) else LRU.last_touch ops k.
Proof.
  unfold LRU.last_touch. rewrite reverse_snoc, length_app. simpl.
  case_decide as Hd.
  - f_equal. lia.
  - destruct (list_find _ (reverse ops)) as [[i x]|] eqn:Hf; simpl; [|done].
    apply list_find_Some in Hf as (Hi & _).
    apply lookup_lt_Some in Hi. rewrite length_reverse in Hi. lia.
Qed.

Lemma lru_last_touch_le (ops : list (LRU.op K V)) k :
  LRU.last_touch ops k ≤ length ops.
Proof.
  unfold LRU.last_touch. destruct (list_find _ _) as [[i x]|]; lia.
Qed.

Lemma lru_recency_sorted_sublist (ops : list (LRU.op K V)) (l1 l2 : list K) :
  l1 `sublist_of` l2 → LRU.recency_sorted ops l2 → LRU.recency_sorted ops l1.
Proof.
  unfold LRU.recency_sorted. induction 1 as [|x l1 l2 Hsub IH|x l1 l2 Hsub IH]; intros Hs.
  - constructor.
  - apply StronglySorted_cons in Hs as [Hx Hs].
    apply StronglySorted_cons. split; [|by apply IH].
    rewrite Forall_forall in Hx |- *. intros y Hy. apply Hx.
    by eapply elem_of_sublist.
  - apply StronglySorted_cons in Hs as [_ Hs]. by apply IH.
Qed.

(** An operation that does not concern the keys of [l] leaves [l]
    sorted. *)
Lemma lru_recency_sorted_snoc (ops : list (LRU.op K V)) o (l : list K) :
  (∀ k, LRU.op_key o = Some k → k ∉ l) →
  LRU.recency_sorted ops l → LRU.recency_sorted (ops ++ [o]) l.
Proof.
  unfold LRU.recency_sorted. intros Hk Hs.
  induction Hs as [|x l Hs IH Hx]; [constructor|].
  assert (∀ y, y ∈ x :: l → LRU.last_touch (ops ++ [o]) y = LRU.last_touch ops y) as Hsame.
  { intros y Hy. rewrite lru_last_touch_snoc. case_decide as Hd; [|done].
    by destruct (Hk y Hd). }
  apply StronglySorted_cons. split.
  - rewrite Forall_forall in Hx |- *. intros y Hy. unfold LRU.more_recent.
    rewrite !Hsame by eauto using list_elem_of_here, list_elem_of_further.
    by apply Hx.
  - apply IH. intros k Hok Hin. apply (Hk k Hok). by apply list_elem_of_further.
Qed.

(** The key an operation touches is more recent than every other key. *)
Lemma lru_recency_sorted_touch (ops : list (LRU.op K V)) o k (l : list K) :
  LRU.op_key o = Some k → k ∉ l →
  LRU.recency_sorted ops l → LRU.recency_sorted (ops ++ [o]) (k :: l).
Proof.
  intros Hok Hk Hs. apply StronglySorted_cons. split.
  - apply Forall_forall. intros y Hy. unfold LRU.more_recent.
    rewrite !lru_last_touch_snoc.
    destruct (decide (LRU.op_key o = Some k)) as [_|]; [|done].
    destruct (decide (LRU.op_key o = Some y)) as [Hy'|_].
    + rewrite Hok in Hy'. injection Hy' as ->. done.
    + pose proof (lru_last_touch_le ops y). lia.
  - apply lru_recency_sorted_snoc; [|done].
    intros k' Hk'. rewrite Hok in Hk'. by injection Hk' as <-.
Qed.

Lemma lru_not_elem_of_filter_ne (k : K) (l : list K) : k ∉ filter (λ k', k' ≠ k) l.
Proof. rewrite list_elem_of_filter. by intros [? _]. Qed.

(** The keys of the list after a successful [set]: the key on top of
    what is left of the old list. *)
Lemma lru_set_keys clk k v c :
  LRU.bijection c → Base.serialize_total (LRU.base c) →
  ∃ c' e l',
    LRU.set clk k v c = Some (c', (Some e, None))
    ∧ LRU.bijection c' ∧ LRU.base c' = LRU.base c
    ∧ (l' `sublist_of` LRU.list_keys c) ∧ (k ∉ l')
    ∧ LRU.list_keys c' = k :: l'.
Proof.
  intros Hb Htot.
  assert (∃ v1, Base.serialize (LRU.base c) k v = (v1, None)) as [v1 Hser].
  { specialize (Htot k v). destruct (Base.serialize (LRU.base c) k v) as [v1 err].
    simpl in Htot. subst err. eauto. }
  destruct (LRU.store c !! k) as [e|] eqn:Hk.
  - destruct (LRU.bij_store c Hb k e Hk) as (Hin & it & Hit & Hkey).
    destruct (lru_set_existing clk k v c v1 e it Hb Hser Hk Hit)
      as (c' & Hset & Hb' & _ & _ & Hlk & _ & Hba & _).
    exists c', e, (filter (λ k', k' ≠ k) (LRU.list_keys c)).
    split_and!; try done; [apply sublist_filter|apply lru_not_elem_of_filter_ne].
  - destruct (lru_set_new clk k v c v1 Hb Hser Hk)
      as (c' & Hset & Hb' & _ & _ & Hlk & _ & Hba & _).
    assert (k ∉ LRU.list_keys c) as Hnin.
    { rewrite lru_list_keys_elem_of by done. rewrite Hk. by intros [? ?]. }
    eexists c', _, _. split_and!; [exact Hset|done|done| | |exact Hlk].
    + case_bool_decide; [apply sublist_take|done].
    + case_bool_decide; [|done]. intros Hin. apply Hnin.
      eapply elem_of_sublist; [exact Hin|apply sublist_take].
Qed.

Lemma lru_get_keys clk k c :
  LRU.bijection c →
  ∃ c' r l',
    LRU.get clk k false c = Some (c', r)
    ∧ LRU.bijection c' ∧ LRU.base c' = LRU.base c
    ∧ (l' `sublist_of` LRU.list_keys c) ∧ (k ∉ l')
    ∧ (LRU.list_keys c' = l' ∨ LRU.list_keys c' = k :: l').
Proof.
  intros Hb. destruct (LRU.store c !! k) as [e|] eqn:Hk.
  - destruct (LRU.bij_store c Hb k e Hk) as (Hin & it & Hit & Hkey).
    destruct (LRU.isExpired clk it None) eqn:Hexp.
    + destruct (lru_get_expired clk k false c e it Hb Hk Hit Hexp)
        as (c' & Hget & Hb' & _ & _ & Hlk & _ & Hba & _).
      eexists c', _, (filter (λ k', k' ≠ k) (LRU.list_keys c)).
      split_and!; [exact Hget|done|done|apply sublist_filter
                  |apply lru_not_elem_of_filter_ne|by left].
    + destruct (lru_get_hit clk k false c e it Hb Hk Hit Hexp)
        as (c' & Hget & Hb' & _ & _ & Hlk & _ & Hba & _).
      eexists c', _, (filter (λ k', k' ≠ k) (LRU.list_keys c)).
      split_and!; [exact Hget|done|done|apply sublist_filter
                  |apply lru_not_elem_of_filter_ne|by right].
  - rewrite lru_get_absent by done. simpl.
    eexists _, _, (LRU.list_keys c). split_and!; [done| |done|done| |by left].
    + eapply lru_bijection_ext; [| | |exact Hb]; done.
    + rewrite lru_list_keys_elem_of by done. rewrite Hk. by intros [? ?].
Qed.

(** How an operation changes the keys of the list: it keeps a sublist
    of them, away from the key it works on, and puts that key on top
    when it touches it. *)
Lemma lru_step_keys o c :
  LRU.bijection c → Base.serialize_total (LRU.base c) →
  ∃ c' l',
    LRU.step o c = Some c'
    ∧ LRU.bijection c' ∧ LRU.base c' = LRU.base c
    ∧ l' `sublist_of` LRU.list_keys c
    ∧ (∀ k, LRU.op_key o = Some k → k ∉ l')
    ∧ (LRU.list_keys c' = l' ∨ ∃ k, LRU.op_key o = Some k ∧ LRU.list_keys c' = k :: l').
Proof.
  intros Hb Htot. destruct o as [clk k v|clk k v d|clk k|clk k|k|n|order]; simpl.
  - destruct (lru_set_keys clk k v c Hb Htot) as (c' & e & l' & Hset & Hb' & Hba & Hsub & Hk & Hlk).
    unfold LRU.Set_. rewrite Hset. simpl. exists c', l'.
    split_and!; try done; [by intros k' [= <-]|right; eauto].
  - destruct (lru_set_keys clk k v c Hb Htot) as (c' & e & l' & Hset & Hb' & Hba & Hsub & Hk & Hlk).
    unfold LRU.SetWithExpire. rewrite Hset. simpl.
    set (fe := λ it0 : LRU.lruItem K V,
             {| LRU.key := LRU.key it0; LRU.value := LRU.value it0;
                LRU.expiration := Some (clk + d)%Z |}).
    destruct (lru_alter_heap_spec fe e c' (λ _, eq_refl)) as (_ & Hb2 & Hlk2).
    eexists _, l'. split_and!; [done|by apply Hb2|done|done|by intros k' [= <-]|].
    right. exists k. split; [done|]. by rewrite <- Hlk.
  - destruct (lru_get_keys clk k c Hb) as (c' & r & l' & Hget & Hb' & Hba & Hsub & Hk & Hlk).
    unfold LRU.Get. rewrite Hget. simpl. exists c', l'.
    split_and!; [by case_bool_decide|done|done|done|by intros k' [= <-]|].
    destruct Hlk; [by left|right; eauto].
  - destruct (lru_get_keys clk k c Hb) as (c' & r & l' & Hget & Hb' & Hba & Hsub & Hk & Hlk).
    unfold LRU.GetIFPresent. rewrite Hget. simpl. exists c', l'.
    split_and!; [by case_bool_decide|done|done|done|by intros k' [= <-]|].
    destruct Hlk; [by left|right; eauto].
  - unfold LRU.Remove, LRU.remove. destruct (LRU.store c !! k) as [e|] eqn:Hk.
    + destruct (LRU.bij_store c Hb k e Hk) as (Hin & it & Hit & Hkey).
      destruct (lru_removeElement_spec c e Hb Hin)
        as (c' & it' & -> & Hit' & _ & _ & _ & _ & Hba & _ & _ & _ & Hb' & Hlk).
      assert (it' = it) as -> by congruence. rewrite Hkey in Hlk. simpl.
      exists c', (filter (λ k', k' ≠ k) (LRU.list_keys c)).
      split_and!; [done|done|done|apply sublist_filter| |by left].
      intros k' [= <-]. apply lru_not_elem_of_filter_ne.
    + simpl. exists c, (LRU.list_keys c). split_and!; [done|done|done|done| |by left].
      intros k' [= <-]. rewrite lru_list_keys_elem_of by done. rewrite Hk. by intros [? ?].
  - unfold LRU.evict.
    destruct (lru_evict_loop_spec (Z.to_nat n) c Hb)
      as (c' & -> & Hb' & _ & Hlk & _ & _ & Hba & _).
    exists c', (take (length (LRU.list_keys c) - Z.to_nat n) (LRU.list_keys c)).
    split_and!; [done|done|done|apply sublist_take|done|by left].
  - destruct (lru_Purge_total order c Hb) as (c' & -> & Hb' & Hba & _ & Hl).
    exists c', []. split_and!; [done|done|done|apply sublist_nil_l|done|left].
    unfold LRU.list_keys. by rewrite Hl.
Qed.

(** The recency list is sorted by last touch, whatever the operations. *)
Lemma lru_run_recency_sorted cb ops : ∀ c,
  Base.serialize_total cb →
  LRU.run ops (LRU.newLRUCache cb) = Some c →
  LRU.bijection c ∧ LRU.base c = cb ∧ LRU.recency_sorted ops (LRU.list_keys c).
Proof.
  induction ops as [|o ops IH] using rev_ind; intros c Htot Hrun.
  - injection Hrun as <-. split; [apply lru_new_bijection|]. split; [done|]. constructor.
  - rewrite lru_run_app in Hrun.
    destruct (LRU.run ops (LRU.newLRUCache cb)) as [c0|] eqn:Hrun0; [|done].
    destruct (IH c0 Htot eq_refl) as (Hb0 & Hba0 & Hs0).
    simpl in Hrun.
    assert (Base.serialize_total (LRU.base c0)) as Htot0 by (by rewrite Hba0).
    destruct (lru_step_keys o c0 Hb0 Htot0) as (c' & l' & Hstep & Hb' & Hba' & Hsub & Hk & Hlk).
    rewrite Hstep in Hrun. simpl in Hrun. injection Hrun as <-.
    split; [done|]. split; [congruence|].
    pose proof (lru_recency_sorted_sublist ops l' _ Hsub Hs0) as Hs'.
    destruct Hlk as [->|(k & Hok & ->)].
    + by apply lru_recency_sorted_snoc.
    + apply lru_recency_sorted_touch; [done|by apply Hk|done].
Qed.

(** ** Reads and writes through the public operations *)

Lemma lru_serialize_None c k v :
  Base.serializeFunc (LRU.base c) = None → Base.serialize (LRU.base c) k v = (v, None).
Proof. unfold Base.serialize. by intros ->. Qed.

(** After a successful [Set] the map leads to an item with the key, the
    serialized value, and the default expiration when one is configured
    (otherwise the expiration the entry had, none for a new entry). *)
Lemma lru_Set_ok clk k v c v1 :
  LRU.bijection c →
  Base.serialize (LRU.base c) k v = (v1, None) →
  ∃ c' e,
    LRU.set clk k v c = Some (c', (Some e, None))
    ∧ LRU.Set_ clk k v c = Some (c', None)
    ∧ LRU.bijection c' ∧ LRU.base c' = LRU.base c
    ∧ LRU.store c' !! k = Some e
    ∧ LRU.heap c' !! e
      = Some {| LRU.key := k; LRU.value := v1;
                LRU.expiration :=
                  match Base.expiration (LRU.base c) with
                  | Some d => Some (clk + d)%Z
                  | None => LRU.store c !! k ≫= λ e0, LRU.heap c !! e0 ≫= LRU.expiration
                  end |}.
Proof.
  intros Hb Hser. destruct (LRU.store c !! k) as [e|] eqn:Hk.
  - destruct (LRU.bij_store c Hb k e Hk) as (Hin & it & Hit & Hkey).
    destruct (lru_set_existing clk k v c v1 e it Hb Hser Hk Hit)
      as (c' & Hset & Hb' & Hs' & _ & _ & Hh' & Hba' & _).
    exists c', e. unfold LRU.Set_. rewrite Hset. simpl. rewrite Hit. simpl.
    split_and!; first [done|by rewrite Hs'].
  - destruct (lru_set_new clk k v c v1 Hb Hser Hk)
      as (c' & Hset & Hb' & Hs' & _ & _ & Hh' & Hba' & _).
    eexists c', _. unfold LRU.Set_. rewrite Hset. simpl.
    split_and!; first [done|rewrite Hh'; by destruct (Base.expiration _)].
Qed.

Lemma lru_SetWithExpire_ok clk k v d c v1 :
  LRU.bijection c →
  Base.serialize (LRU.base c) k v = (v1, None) →
  ∃ c' e,
    LRU.SetWithExpire clk k v d c = Some (c', None)
    ∧ LRU.bijection c' ∧ LRU.base c' = LRU.base c
    ∧ LRU.store c' !! k = Some e
    ∧ LRU.heap c' !! e
      = Some {| LRU.key := k; LRU.value := v1; LRU.expiration := Some (clk + d)%Z |}.
Proof.
  intros Hb Hser.
  destruct (lru_Set_ok clk k v c v1 Hb Hser) as (c1 & e & Hset & _ & Hb1 & Hba1 & Hs1 & Hh1).
  unfold LRU.SetWithExpire. rewrite Hset. simpl.
  eexists _, e. split; [done|].
  split; [by apply lru_set_expiration_bijection|].
  split; [done|]. split; [done|].
  unfold LRU.set_expiration. simpl. by rewrite list_lookup_alter_eq, Hh1.
Qed.

Lemma lru_Get_found clk k c e it :
  LRU.bijection c →
  LRU.store c !! k = Some e → LRU.heap c !! e = Some it →
  LRU.isExpired clk it None = false →
  Base.deserializeFunc (LRU.base c) = None →
  ∃ c', LRU.Get clk k c = Some (c', Returns (Some (LRU.value it)) None)
        ∧ LRU.hitCount c' = S (LRU.hitCount c) ∧ LRU.missCount c' = LRU.missCount c.
Proof.
  intros Hb Hk Hit Hexp Hde.
  destruct (lru_get_hit clk k false c e it Hb Hk Hit Hexp)
    as (c' & Hget & _ & _ & _ & _ & _ & _ & Hhi & Hmi & _).
  rewrite Hde in Hget. exists c'. unfold LRU.Get. rewrite Hget. done.
Qed.

Lemma lru_Get_expired clk k c e it :
  LRU.bijection c →
  LRU.store c !! k = Some e → LRU.heap c !! e = Some it →
  LRU.isExpired clk it None = true →
  Base.loaderExpireFunc (LRU.base c) = false →
  ∃ c', LRU.Get clk k c = Some (c', Returns None (Some KeyNotFoundError))
        ∧ LRU.store c' !! k = None
        ∧ LRU.hitCount c' = LRU.hitCount c ∧ LRU.missCount c' = S (LRU.missCount c).
Proof.
  intros Hb Hk Hit Hexp Hlo.
  destruct (lru_get_expired clk k false c e it Hb Hk Hit Hexp)
    as (c' & Hget & _ & Hs & _ & _ & _ & Hba & Hhi & Hmi & _).
  exists c'. unfold LRU.Get, LRU.getWithLoader. rewrite Hget. simpl.
  rewrite Hba, Hlo. split; [done|]. rewrite Hs. split; [apply lookup_delete_eq|done].
Qed.

Lemma lru_Get_boundary clk k c e it t :
  LRU.bijection c →
  LRU.store c !! k = Some e → LRU.heap c !! e = Some it →
  LRU.expiration it = Some t →
  Base.deserializeFunc (LRU.base c) = None →
  Base.loaderExpireFunc (LRU.base c) = false →
  ((clk ≤ t)%Z → ∃ c', LRU.Get clk k c = Some (c', Returns (Some (LRU.value it)) None))
  ∧ ((t < clk)%Z →
     ∃ c', LRU.Get clk k c = Some (c', Returns None (Some KeyNotFoundError))
           ∧ LRU.store c' !! k = None).
Proof.
  intros Hb Hk Hit Ht Hde Hlo. split; intros Hclk.
  - destruct (lru_Get_found clk k c e it Hb Hk Hit) as (c' & Hget & _); [|done|eauto].
    apply not_true_is_false. rewrite lru_isExpired_iff.
    intros (t' & Ht' & Hlt). rewrite Ht in Ht'. injection Ht' as <-. lia.
  - destruct (lru_Get_expired clk k c e it Hb Hk Hit) as (c' & Hget & Hs & _); [|done|eauto].
    apply lru_isExpired_iff. eauto.
Qed.

Lemma lru_expiration_boundary clk0 k v d c clk :
  LRU.bijection c →
  Base.serializeFunc (LRU.base c) = None →
  Base.deserializeFunc (LRU.base c) = None →
  Base.loaderExpireFunc (LRU.base c) = false →
  ∀ c1,
    (LRU.SetWithExpire clk0 k v d c = Some (c1, None)
     ∨ (Base.expiration (LRU.base c) = Some d ∧ LRU.Set_ clk0 k v c = Some (c1, None))) →
    ((clk ≤ clk0 + d)%Z → ∃ c2, LRU.Get clk k c1 = Some (c2, Returns (Some v) None))
    ∧ ((clk0 + d < clk)%Z →
       ∃ c2, LRU.Get clk k c1 = Some (c2, Returns None (Some KeyNotFoundError))
             ∧ LRU.store c2 !! k = None).
Proof.
  intros Hb Hser Hde Hlo c1 Hset.
  pose proof (lru_serialize_None c k v Hser) as Hser'.
  assert (∃ e, LRU.bijection c1 ∧ LRU.base c1 = LRU.base c
               ∧ LRU.store c1 !! k = Some e
               ∧ LRU.heap c1 !! e
                 = Some {| LRU.key := k; LRU.value := v;
                           LRU.expiration := Some (clk0 + d)%Z |})
    as (e & Hb1 & Hba1 & Hs1 & Hh1).
  { destruct Hset as [Hset|[Hexp Hset]].
    - destruct (lru_SetWithExpire_ok clk0 k v d c v Hb Hser') as (c' & e & Hset' & ? & ? & ? & ?).
      rewrite Hset in Hset'. injection Hset' as <-. eauto.
    - destruct (lru_Set_ok clk0 k v c v Hb Hser') as (c' & e & _ & Hset' & ? & ? & ? & Hh).
      rewrite Hset in Hset'. injection Hset' as <-. rewrite Hexp in Hh. eauto. }
  apply (lru_Get_boundary clk k c1 e _ (clk0 + d)%Z Hb1 Hs1 Hh1); [done| |]; by rewrite Hba1.
Qed.

Lemma lru_Set_Get clk clk' k v c :
  LRU.bijection c →
  Base.serializeFunc (LRU.base c) = None →
  Base.deserializeFunc (LRU.base c) = None →
  Base.expiration (LRU.base c) = None →
  (∀ e it, LRU.store c !! k = Some e → LRU.heap c !! e = Some it →
           LRU.expiration it = None) →
  ∃ c1 c2, LRU.Set_ clk k v c = Some (c1, None)
           ∧ LRU.Get clk' k c1 = Some (c2, Returns (Some v) None).
Proof.
  intros Hb Hser Hde Hexp Hnone.
  destruct (lru_Set_ok clk k v c v Hb (lru_serialize_None c k v Hser))
    as (c1 & e & _ & Hset & Hb1 & Hba1 & Hs1 & Hh1).
  rewrite Hexp in Hh1.
  assert ((LRU.store c !! k ≫= λ e0, LRU.heap c !! e0 ≫= LRU.expiration) = None) as Hno.
  { destruct (LRU.store c !! k) as [e0|] eqn:Hk; [|done]. simpl.
    destruct (LRU.heap c !! e0) as [it|] eqn:Hit; [|done]. simpl. by eapply Hnone. }
  rewrite Hno in Hh1.
  destruct (lru_Get_found clk' k c1 e _ Hb1 Hs1 Hh1) as (c2 & Hget & _);
    [done|by rewrite Hba1|]. eauto.
Qed.

(** [GetIFPresent] hands the error of the deserialize hook to the
    caller, as [Get] does. *)
Lemma lru_GetIFPresent_propagates_error clk k c e it f v' err :
  LRU.store c !! k = Some e → LRU.heap c !! e = Some it →
  LRU.isExpired clk it None = false →
  Base.deserializeFunc (LRU.base c) = Some f →
  f k (LRU.value it) = (v', Some err) →
  err ≠ KeyNotFoundError →
  ∃ c', LRU.GetIFPresent clk k c = Some (c', Returns v' (Some err))
        ∧ LRU.Get clk k c = Some (c', Returns v' (Some err)).
Proof.
  intros Hk Hit Hexp Hde Hf Hne. unfold LRU.GetIFPresent, LRU.Get, LRU.get.
  rewrite Hk, Hit. simpl. rewrite Hexp, Hde, Hf. simpl.
  rewrite bool_decide_eq_false_2 by (by intros [= ->]). eauto.
Qed.

(** The lookup of [LRUCache] counts every outcome once: a miss for an
    absent key and for an expired entry, a hit otherwise. *)
Lemma lru_get_counts clk k c :
  LRU.bijection c →
  ∃ c' r, LRU.get clk k false c = Some (c', r)
    ∧ match LRU.store c !! k ≫= λ e, LRU.heap c !! e with
      | Some it =>
          if LRU.isExpired clk it None
          then r = (None, Some KeyNotFoundError)
               ∧ LRU.missCount c' = S (LRU.missCount c)
               ∧ LRU.hitCount c' = LRU.hitCount c
          else LRU.missCount c' = LRU.missCount c
               ∧ LRU.hitCount c' = S (LRU.hitCount c)
      | None => r = (None, Some KeyNotFoundError)
                ∧ LRU.missCount c' = S (LRU.missCount c)
                ∧ LRU.hitCount c' = LRU.hitCount c
      end.
Proof.
  intros Hb. destruct (LRU.store c !! k) as [e|] eqn:Hk; simpl.
  - destruct (LRU.bij_store c Hb k e Hk) as (Hin & it & Hit & Hkey). rewrite Hit.
    destruct (LRU.isExpired clk it None) eqn:Hexp.
    + destruct (lru_get_expired clk k false c e it Hb Hk Hit Hexp)
        as (c' & Hget & _ & _ & _ & _ & _ & _ & Hhi & Hmi & _).
      eexists _, _. split; [exact Hget|done].
    + destruct (lru_get_hit clk k false c e it Hb Hk Hit Hexp)
        as (c' & Hget & _ & _ & _ & _ & _ & _ & Hhi & Hmi & _).
      eexists _, _. split; [exact Hget|done].
  - rewrite lru_get_absent by done. eexists _, _. split; [done|]. done.
Qed.

(** ** Capacity *)

(** After [Set] calls only, the list never exceeds a positive capacity,
    and it still holds every key set so far as long as it is below it. *)
Lemma lru_sets_capacity cb ops : ∀ c,
  Base.serialize_total cb → (0 < Base.capacity cb)%Z →
  forallb LRU.is_set ops = true →
  LRU.run ops (LRU.newLRUCache cb) = Some c →
  LRU.bijection c ∧ LRU.base c = cb
  ∧ (Z.of_nat (length (LRU.list_keys c)) ≤ Base.capacity cb)%Z
  ∧ ((Z.of_nat (length (LRU.list_keys c)) < Base.capacity cb)%Z →
     ∀ k, k ∈ omap LRU.op_key ops → k ∈ LRU.list_keys c).
Proof.
  induction ops as [|o ops IH] using rev_ind; intros c Htot Hcap Hsets Hrun.
  - injection Hrun as <-. split; [apply lru_new_bijection|]. split; [done|].
    split; [simpl; lia|]. intros _ k Hk. by apply elem_of_nil in Hk.
  - rewrite forallb_app in Hsets. apply andb_true_iff in Hsets as [Hsets Ho].
    rewrite lru_run_app in Hrun.
    destruct (LRU.run ops (LRU.newLRUCache cb)) as [c0|] eqn:Hrun0; [|done].
    destruct (IH c0 Htot Hcap Hsets eq_refl) as (Hb0 & Hba0 & Hle0 & Hall0).
    destruct o as [clk k v| | | | | |]; try done. clear Ho.
    simpl in Hrun.
    assert (∃ v1, Base.serialize (LRU.base c0) k v = (v1, None)) as [v1 Hser].
    { rewrite Hba0. specialize (Htot k v).
      destruct (Base.serialize cb k v) as [v1 err]. simpl in Htot. subst err. eauto. }
    pose proof (lru_list_keys_NoDup c0 Hb0) as Hnd0.
    pose proof (lru_list_keys_length c0 Hb0) as Hlen0.
    rewrite omap_app. simpl.
    destruct (LRU.store c0 !! k) as [e|] eqn:Hk.
    + destruct (LRU.bij_store c0 Hb0 k e Hk) as (Hin & it & Hit & Hkey).
      destruct (lru_set_existing clk k v c0 v1 e it Hb0 Hser Hk Hit)
        as (c' & Hset & Hb' & _ & _ & Hlk & _ & Hba & _).
      unfold LRU.Set_ in Hrun. rewrite Hset in Hrun. simpl in Hrun. injection Hrun as <-.
      assert (k ∈ LRU.list_keys c0) as Hkin
        by (rewrite lru_list_keys_elem_of by done; eauto).
      assert (length (LRU.list_keys c') = length (LRU.list_keys c0)) as Hlen.
      { rewrite Hlk. simpl. rewrite filter_ne_length by done.
        destruct (LRU.list_keys c0); [by apply elem_of_nil in Hkin|simpl; lia]. }
      split; [done|]. split; [congruence|]. rewrite Hlen. split; [done|].
      intros Hlt k' Hk'. rewrite Hlk.
      destruct (decide (k' = k)) as [->|Hne]; [apply list_elem_of_here|].
      apply list_elem_of_further, list_elem_of_filter. split; [done|].
      apply elem_of_app in Hk' as [Hk'|Hk']; [by apply Hall0|].
      apply list_elem_of_singleton in Hk'. done.
    + destruct (lru_set_new clk k v c0 v1 Hb0 Hser Hk)
        as (c' & Hset & Hb' & _ & _ & Hlk & _ & Hba & _).
      unfold LRU.Set_ in Hrun. rewrite Hset in Hrun. simpl in Hrun. injection Hrun as <-.
      split; [done|]. split; [congruence|].
      unfold LRU.list_Len in Hlk. rewrite <- Hlen0, Hba0 in Hlk.
      destruct (bool_decide _) eqn:Hfull; rewrite Hlk; cbn [length].
      * apply bool_decide_eq_true in Hfull.
        rewrite length_take. split; [lia|]. intros Hlt. lia.
      * apply bool_decide_eq_false in Hfull.
        split; [lia|]. intros Hlt k' Hk'.
        apply elem_of_app in Hk' as [Hk'|Hk'].
        -- apply list_elem_of_further, Hall0; [lia|done].
        -- apply list_elem_of_singleton in Hk' as ->. apply list_elem_of_here.
Qed.

(** The capacity invariant of the LRU cache: [Len() <= capacity] after
    every [Set], and [Len() = capacity] once more distinct keys than the
    capacity have been set. *)
Lemma lru_capacity_invariant cb ops c :
  Base.serialize_total cb → (0 < Base.capacity cb)%Z →
  forallb LRU.is_set ops = true →
  LRU.run ops (LRU.newLRUCache cb) = Some c →
  (LRU.Len c ≤ Base.capacity cb)%Z
  ∧ ((Base.capacity cb < Z.of_nat (LRU.distinct_keys ops))%Z →
     LRU.Len c = Base.capacity cb).
Proof.
  intros Htot Hcap Hsets Hrun.
  destruct (lru_sets_capacity cb ops c Htot Hcap Hsets Hrun) as (Hb & Hba & Hle & Hall).
  unfold LRU.Len. rewrite lru_store_size by done. split; [done|].
  intros Hdist.
  destruct (decide (Z.of_nat (length (LRU.list_keys c)) < Base.capacity cb)%Z) as [Hlt|]; [|lia].
  specialize (Hall Hlt).
  assert (LRU.distinct_keys ops ≤ length (LRU.list_keys c)); [|lia].
  unfold LRU.distinct_keys.
  rewrite <- (size_list_to_set (C:=gset K) (LRU.list_keys c))
    by (by apply lru_list_keys_NoDup).
  apply subseteq_size. intros k. rewrite !elem_of_list_to_set. apply Hall.
Qed.

(** ** The key an overflowing [Set] evicts *)

Lemma lru_overflow_victim cb ops c clk k v :
  Base.serialize_total cb → (0 < Base.capacity cb)%Z →
  LRU.run ops (LRU.newLRUCache cb) = Some c →
  LRU.store c !! k = None → (LRU.Len c >= Base.capacity cb)%Z →
  ∃ c' victim value,
    LRU.Set_ clk k v c = Some (c', None)
    ∧ last (LRU.list_keys c) = Some victim
    ∧ is_Some (LRU.store c !! victim)
    ∧ (∀ k', is_Some (LRU.store c' !! k')
             ↔ k' = k ∨ (k' ≠ victim ∧ is_Some (LRU.store c !! k')))
    ∧ (∀ k', is_Some (LRU.store c !! k') → k' ≠ victim →
             LRU.last_touch ops victim < LRU.last_touch ops k')
    ∧ LRU.hookCalls c'
      = (if Base.addedFunc cb then [AddedCall k (Base.serialize cb k v).1] else [])
        ++ (if Base.evictedFunc cb then [EvictedCall victim value] else [])
        ++ LRU.hookCalls c.
Proof.
  intros Htot Hcap Hrun Hk Hfull.
  destruct (lru_run_recency_sorted cb ops c Htot Hrun) as (Hb & Hba & Hsorted).
  assert (∃ v1, Base.serialize cb k v = (v1, None)) as [v1 Hser].
  { specialize (Htot k v). destruct (Base.serialize cb k v) as [v1 err].
    simpl in Htot. subst err. eauto. }
  pose proof (lru_list_keys_NoDup c Hb) as Hnd.
  pose proof (lru_list_keys_length c Hb) as Hlen.
  pose proof (lru_store_size c Hb) as Hsize.
  unfold LRU.Len in Hfull.
  rewrite <- Hba in Hser.
  destruct (lru_set_new clk k v c v1 Hb Hser Hk)
    as (c' & Hset & Hb' & _ & _ & Hlk & _ & _ & _ & _ & Hca).
  rewrite Hba in Hser.
  unfold LRU.list_Len in Hlk, Hca. rewrite ?Hba in Hlk, Hca.
  rewrite bool_decide_eq_true_2 in Hlk, Hca by lia.
  destruct (last (LRU.list_keys c)) as [victim|] eqn:Hlast.
  2:{ apply last_None in Hlast. rewrite Hlast in Hsize. simpl in Hsize. lia. }
  destruct (last (LRU.evictList c)) as [b|] eqn:Hlastb.
  2:{ apply last_None in Hlastb. rewrite Hlastb in Hlen. simpl in Hlen. lia. }
  apply last_Some in Hlast as [L0 HL]. apply last_Some in Hlastb as [l0 Hl].
  assert (b ∈ LRU.evictList c) as Hbin
    by (rewrite Hl, elem_of_app; right; apply list_elem_of_here).
  destruct (LRU.bij_list c Hb b Hbin) as (itb & Hitb & Hkb).
  assert (LRU.key itb = victim) as Hvictim.
  { assert (LRU.list_keys c = omap (LRU.elem_key c) l0 ++ [LRU.key itb]) as HL'.
    { unfold LRU.list_keys. rewrite Hl, omap_app. f_equal. csimpl.
      unfold LRU.elem_key at 1. by rewrite Hitb. }
    rewrite HL in HL'. apply app_inj_2 in HL' as [_ [= ->]]; done. }
  rewrite HL in Hlk. rewrite length_app in Hlk. simpl in Hlk.
  replace (length L0 + 1 - 1) with (length L0) in Hlk by lia.
  rewrite take_app_length in Hlk.
  rewrite Hl in Hca. rewrite length_app in Hca. simpl in Hca.
  replace (length l0 + 1 - 1) with (length l0) in Hca by lia.
  rewrite drop_app_length in Hca.
  exists c', victim, (LRU.value itb). unfold LRU.Set_. rewrite Hset. simpl.
  split; [done|]. split; [done|].
  assert (∀ k', is_Some (LRU.store c !! k') ↔ k' ∈ L0 ∨ k' = victim) as Hmem.
  { intros k'. rewrite <- lru_list_keys_elem_of by done.
    rewrite HL, elem_of_app, list_elem_of_singleton. done. }
  assert (victim ∉ L0) as Hvnot.
  { rewrite HL in Hnd. apply NoDup_app in Hnd as (_ & Hdisj & _).
    intros Hin. apply (Hdisj victim Hin), list_elem_of_here. }
  split; [apply Hmem; by right|]. split; [|split].
  - intros k'. rewrite <- (lru_list_keys_elem_of c' k') by done.
    rewrite Hlk, elem_of_cons, Hmem. split.
    + intros [->|Hin]; [by left|]. right. split; [|by left]. by intros ->.
    + intros [->|[Hne [Hin| ->]]]; [by left|by right|done].
  - intros k' Hin Hne. apply Hmem in Hin as [Hin| ->]; [|done].
    unfold LRU.recency_sorted in Hsorted. rewrite HL in Hsorted.
    apply (StronglySorted_app_1_elem_of _ _ _ k' victim Hsorted Hin).
    apply list_elem_of_here.
  - rewrite Hca, Hser. simpl. f_equal. f_equal.
    unfold LRU.evicted_calls. rewrite Hba. destruct (Base.evictedFunc cb); [|done].
    csimpl. rewrite Hitb. simpl. by rewrite Hvictim.
Qed.
End LRUProofs.

(** * The two caches side by side *)

Section Claims.
Context `{Countable K} {V : Type}.
Implicit Types (cs : Simple.SimpleCache K V) (cl : LRU.LRUCache K V).

(** C3 (as amended). A key is set with expiration instant [t = clk0 + d],
    through [SetWithExpire] or through [Set] under a default time-to-live
    [d]; no hook and no loader is configured.  In both caches a [Get] at
    an instant [clk <= t] returns the value, and a [Get] at an instant
    [clk > t] reports the key as not found and removes the entry. *)
Theorem expiration_boundary_strict cs cl order clk0 k v d clk cs1 cl1 :
  Base.serializeFunc (Simple.base cs) = None →
  Base.deserializeFunc (Simple.base cs) = None →
  Base.loaderExpireFunc (Simple.base cs) = false →
  Base.serializeFunc (LRU.base cl) = None →
  Base.deserializeFunc (LRU.base cl) = None →
  Base.loaderExpireFunc (LRU.base cl) = false →
  LRU.bijection cl →
  (Simple.SetWithExpire order clk0 k v d cs = (cs1, None)
   ∨ (Base.expiration (Simple.base cs) = Some d
      ∧ Simple.Set_ order clk0 k v cs = (cs1, None))) →
  (LRU.SetWithExpire clk0 k v d cl = Some (cl1, None)
   ∨ (Base.expiration (LRU.base cl) = Some d
      ∧ LRU.Set_ clk0 k v cl = Some (cl1, None))) →
  (((clk ≤ clk0 + d)%Z → (Simple.Get clk k cs1).2 = Returns (Some v) None)
   ∧ ((clk0 + d < clk)%Z →
      (Simple.Get clk k cs1).2 = Returns None (Some KeyNotFoundError)
      ∧ Simple.store (Simple.Get clk k cs1).1 !! k = None))
  ∧ (((clk ≤ clk0 + d)%Z → ∃ cl2, LRU.Get clk k cl1 = Some (cl2, Returns (Some v) None))
     ∧ ((clk0 + d < clk)%Z →
        ∃ cl2, LRU.Get clk k cl1 = Some (cl2, Returns None (Some KeyNotFoundError))
               ∧ LRU.store cl2 !! k = None)).
Proof.
  intros Hs1 Hs2 Hs3 Hl1 Hl2 Hl3 Hb Hsets Hsetl. split.
  - by apply (simple_expiration_boundary order clk0 k v d cs clk).
  - by apply (lru_expiration_boundary clk0 k v d cl clk).
Qed.

(** C6. When the serialize hook returns an error, [Set] and
    [SetWithExpire] return that error and the cache is exactly as it
    was: same entries, same recency list, same counters, and no call
    made to the added or evicted hooks. *)
Theorem serialization_failure_atomic cs cl f order clk k v d err :
  Base.serializeFunc (Simple.base cs) = Some f →
  Base.serializeFunc (LRU.base cl) = Some f →
  (f k v).2 = Some err →
  Simple.Set_ order clk k v cs = (cs, Some err)
  ∧ Simple.SetWithExpire order clk k v d cs = (cs, Some err)
  ∧ LRU.Set_ clk k v cl = Some (cl, Some err)
  ∧ LRU.SetWithExpire clk k v d cl = Some (cl, Some err).
Proof.
  intros Hs Hl Hf.
  assert (Base.serialize (Simple.base cs) k v = ((f k v).1, Some err)) as Hsers.
  { unfold Base.serialize. rewrite Hs. destruct (f k v). simpl in *. by subst. }
  assert (Base.serialize (LRU.base cl) k v = ((f k v).1, Some err)) as Hserl.
  { unfold Base.serialize. rewrite Hl. destruct (f k v). simpl in *. by subst. }
  destruct (simple_Set_error order clk k v cs _ err Hsers) as [HS1 HS2].
  split; [done|]. split; [done|].
  unfold LRU.Set_, LRU.SetWithExpire.
  by rewrite (lru_set_error clk k v cl _ err Hserl).
Qed.

(** C9. Without serialize and deserialize hooks, without default
    time-to-live and with no expiration on the entry the key may already
    have, [Set(k, v)] succeeds and the [Get(k)] that follows returns
    [v] without error, in both caches. *)
Theorem set_get_round_trip cs cl order clk clk' k v :
  Base.serializeFunc (Simple.base cs) = None →
  Base.deserializeFunc (Simple.base cs) = None →
  Base.expiration (Simple.base cs) = None →
  (∀ item, Simple.store cs !! k = Some item → Simple.expiration item = None) →
  Base.serializeFunc (LRU.base cl) = None →
  Base.deserializeFunc (LRU.base cl) = None →
  Base.expiration (LRU.base cl) = None →
  (∀ e it, LRU.store cl !! k = Some e → LRU.heap cl !! e = Some it →
           LRU.expiration it = None) →
  LRU.bijection cl →
  (∃ cs1, Simple.Set_ order clk k v cs = (cs1, None)
          ∧ (Simple.Get clk' k cs1).2 = Returns (Some v) None)
  ∧ (∃ cl1 cl2, LRU.Set_ clk k v cl = Some (cl1, None)
                ∧ LRU.Get clk' k cl1 = Some (cl2, Returns (Some v) None)).
Proof.
  intros Hs1 Hs2 Hs3 Hs4 Hl1 Hl2 Hl3 Hl4 Hb. split.
  - by apply simple_Set_Get.
  - by apply lru_Set_Get.
Qed.

(** C10. For a key that is present and not expired, when the deserialize
    hook returns an error other than [KeyNotFoundError]:
    [SimpleCache.GetIFPresent] returns the value of the hook with a
    [nil] error, whereas [LRUCache.GetIFPresent] returns the error (as
    both [Get] do). *)
Theorem GetIFPresent_error_handling cs cl clk k item e it f v' err :
  Simple.store cs !! k = Some item →
  Simple.IsExpired clk item None = false →
  Base.deserializeFunc (Simple.base cs) = Some f →
  f k (Simple.value item) = (v', Some err) →
  LRU.store cl !! k = Some e → LRU.heap cl !! e = Some it →
  LRU.isExpired clk it None = false →
  Base.deserializeFunc (LRU.base cl) = Some f →
  f k (LRU.value it) = (v', Some err) →
  err ≠ KeyNotFoundError →
  (Simple.GetIFPresent clk k cs).2 = Returns v' None
  ∧ (Simple.Get clk k cs).2 = Returns v' (Some err)
  ∧ ∃ cl', LRU.GetIFPresent clk k cl = Some (cl', Returns v' (Some err)).
Proof.
  intros Hs1 Hs2 Hs3 Hs4 Hl1 Hl2 Hl3 Hl4 Hl5 Hne.
  destruct (simple_GetIFPresent_drops_error clk k cs item f v' err) as [-> ->]; try done.
  split; [done|]. split; [done|].
  destruct (lru_GetIFPresent_propagates_error clk k cl e it f v' err)
    as (cl' & -> & _); try done. eauto.
Qed.

(** C8. Whatever operations are applied to a new LRU cache, each of them
    runs to completion and leaves the map and the recency list in
    bijection: the element of every mapped key is in the list, the key of
    every element of the list is mapped to it, no element occurs twice,
    and the two have the same number of entries. *)
Theorem lru_bijection_invariant (cb : Base.baseCache K V) ops :
  ∃ c, LRU.run ops (LRU.newLRUCache cb) = Some c
       ∧ LRU.bijection c
       ∧ LRU.Len c = LRU.list_Len (LRU.evictList c).
Proof.
  destruct (lru_run_total ops (LRU.newLRUCache cb) (lru_new_bijection cb))
    as (c & Hrun & Hb & _).
  exists c. split; [done|]. split; [done|].
  unfold LRU.Len, LRU.list_Len. by rewrite lru_bijection_Len.
Qed.

(** C5. In a state [c] that a sequence [ops] of operations builds from a
    new LRU cache with a positive capacity (the serialize hook, if any,
    never failing):
    - [Set] on a key of the map moves its element to the front of the
      list;
    - a [Get] that hits moves the element to the front;
    - [evict n] removes the last [n] elements of the list (all of them
      if there are fewer), the last one first;
    - a [Set] of an absent key on a full cache evicts exactly one key,
      the one at the back of the list, and that key is the least
      recently touched: every other key of the cache was last touched
      later in [ops]. *)
Theorem lru_recency_order (cb : Base.baseCache K V) ops c :
  Base.serialize_total cb → (0 < Base.capacity cb)%Z →
  LRU.run ops (LRU.newLRUCache cb) = Some c →
  (∀ clk k v e, LRU.store c !! k = Some e →
     ∃ c', LRU.Set_ clk k v c = Some (c', None)
           ∧ LRU.evictList c' = e :: filter (λ x, x ≠ e) (LRU.evictList c))
  ∧ (∀ clk k e it,
       LRU.store c !! k = Some e → LRU.heap c !! e = Some it →
       LRU.isExpired clk it None = false →
       ∃ c' r, LRU.Get clk k c = Some (c', r)
               ∧ LRU.evictList c' = e :: filter (λ x, x ≠ e) (LRU.evictList c))
  ∧ (∀ n, ∃ c', LRU.evict n c = Some c'
                ∧ LRU.evictList c'
                  = take (length (LRU.evictList c) - Z.to_nat n) (LRU.evictList c)
                ∧ LRU.hookCalls c'
                  = LRU.evicted_calls c
                      (drop (length (LRU.evictList c) - Z.to_nat n) (LRU.evictList c))
                    ++ LRU.hookCalls c)
  ∧ (∀ clk k v,
       LRU.store c !! k = None → (LRU.Len c >= Base.capacity cb)%Z →
       ∃ c' victim value,
         LRU.Set_ clk k v c = Some (c', None)
         ∧ last (LRU.list_keys c) = Some victim
         ∧ is_Some (LRU.store c !! victim)
         ∧ (∀ k', is_Some (LRU.store c' !! k')
                  ↔ k' = k ∨ (k' ≠ victim ∧ is_Some (LRU.store c !! k')))
         ∧ (∀ k', is_Some (LRU.store c !! k') → k' ≠ victim →
                  LRU.last_touch ops victim < LRU.last_touch ops k')
         ∧ LRU.hookCalls c'
           = (if Base.addedFunc cb then [AddedCall k (Base.serialize cb k v).1] else [])
             ++ (if Base.evictedFunc cb then [EvictedCall victim value] else [])
             ++ LRU.hookCalls c).
Proof.
  intros Htot Hcap Hrun.
  destruct (lru_run_recency_sorted cb ops c Htot Hrun) as (Hb & Hba & _).
  split_and!.
  - intros clk k v e Hk.
    destruct (LRU.bij_store c Hb k e Hk) as (_ & it & Hit & _).
    assert (∃ v1, Base.serialize (LRU.base c) k v = (v1, None)) as [v1 Hser].
    { rewrite Hba. specialize (Htot k v). destruct (Base.serialize cb k v) as [v1 err].
      simpl in Htot. subst err. eauto. }
    destruct (lru_set_existing clk k v c v1 e it Hb Hser Hk Hit) as (c' & Hset & _ & _ & Hl & _).
    exists c'. unfold LRU.Set_. by rewrite Hset.
  - intros clk k e it Hk Hit Hexp.
    destruct (lru_get_hit clk k false c e it Hb Hk Hit Hexp) as (c' & Hget & _ & _ & Hl & _).
    unfold LRU.Get. rewrite Hget. simpl. case_bool_decide; eauto.
  - intros n. unfold LRU.evict.
    destruct (lru_evict_loop_spec (Z.to_nat n) c Hb)
      as (c' & Hev & _ & Hl & _ & _ & _ & _ & _ & _ & Hca). eauto.
  - intros clk k v. by apply lru_overflow_victim.
Qed.
End Claims.

(** C3, witness: key 1 set with expiration instant 5, read at instant 5. *)
Lemma expiration_boundary_strict_witness :
  let cs := Simple.newSimpleCache (Examples.config 0 0 None) in
  let cl := LRU.newLRUCache (Examples.config 0 5 None) in
  (Simple.Get 5 1 (Simple.SetWithExpire [] 0 1 10 5 cs).1).2 = Returns (Some 10) None
  ∧ ∃ cl2, LRU.Get 5 1 (Examples.lru_after (Examples.config 0 5 None)
                          [LRU.OpSetWithExpire 0 1 10 5])
           = Some (cl2, Returns (Some 10) None).
Proof.
  intros cs cl.
  destruct (expiration_boundary_strict cs cl [] 0 1 10 5 5
              (Simple.SetWithExpire [] 0 1 10 5 cs).1
              (Examples.lru_after (Examples.config 0 5 None) [LRU.OpSetWithExpire 0 1 10 5]))
    as [[Hs _] [Hl _]].
  - reflexivity.
  - reflexivity.
  - reflexivity.
  - reflexivity.
  - reflexivity.
  - reflexivity.
  - apply lru_new_bijection.
  - left. vm_compute. reflexivity.
  - left. vm_compute. reflexivity.
  - split; [apply Hs; lia|apply Hl; lia].
Defined.

(** C3, counterexample: at the expiration instant itself the entry is
    still served, by both caches. *)
Lemma get_at_expiration_instant_returns_value :
  let cs := (Simple.SetWithExpire [] 0 1 10 5
               (Simple.newSimpleCache (Examples.config 0 0 None))).1 in
  let cl := Examples.lru_after (Examples.config 0 5 None) [LRU.OpSetWithExpire 0 1 10 5] in
  (Simple.store cs !! 1 = Some (Examples.item 10 (Some 5%Z))
   ∧ (Simple.Get 5 1 cs).2 = Returns (Some 10) None
   ∧ (Simple.Get 5 1 cs).2 ≠ Returns None (Some KeyNotFoundError))
  ∧ (LRU.run [LRU.OpSetWithExpire 0 1 10 5] (LRU.newLRUCache (Examples.config 0 5 None))
     = Some cl
     ∧ snd <$> LRU.Get 5 1 cl = Some (Returns (Some 10) None)
     ∧ snd <$> LRU.Get 5 1 cl ≠ Some (Returns None (Some KeyNotFoundError))).
Proof.
  intros cs cl. split; split_and!; try (vm_compute; reflexivity); vm_compute; discriminate.
Qed.

(** C6, witness: a serialize hook that always fails, on new caches. *)
Lemma serialization_failure_atomic_witness :
  let cs := Simple.newSimpleCache (Examples.hooked_config true false) in
  let cl := LRU.newLRUCache (Examples.hooked_config true false) in
  Simple.Set_ [] 0 1 10 cs = (cs, Some (OtherError 1))
  ∧ Simple.SetWithExpire [] 0 1 10 5 cs = (cs, Some (OtherError 1))
  ∧ LRU.Set_ 0 1 10 cl = Some (cl, Some (OtherError 1))
  ∧ LRU.SetWithExpire 0 1 10 5 cl = Some (cl, Some (OtherError 1)).
Proof.
  intros cs cl.
  apply (serialization_failure_atomic cs cl Examples.failing_serialize [] 0 1 10 5
           (OtherError 1)); reflexivity.
Defined.

(** C9, witness: new caches of capacity 1. *)
Lemma set_get_round_trip_witness :
  let cs := Simple.newSimpleCache (Examples.config 1 1 None) in
  let cl := LRU.newLRUCache (Examples.config 1 1 None) in
  (∃ cs1, Simple.Set_ [] 0 1 10 cs = (cs1, None)
          ∧ (Simple.Get 7 1 cs1).2 = Returns (Some 10) None)
  ∧ (∃ cl1 cl2, LRU.Set_ 0 1 10 cl = Some (cl1, None)
                ∧ LRU.Get 7 1 cl1 = Some (cl2, Returns (Some 10) None)).
Proof.
  intros cs cl. apply (set_get_round_trip cs cl [] 0 7 1 10).
  - reflexivity.
  - reflexivity.
  - reflexivity.
  - intros item Hk. vm_compute in Hk. discriminate.
  - reflexivity.
  - reflexivity.
  - reflexivity.
  - intros e it Hk. vm_compute in Hk. discriminate.
  - apply lru_new_bijection.
Defined.

(** C10, witness: key 1 present in both caches, under a deserialize hook
    that always fails. *)
Lemma GetIFPresent_error_handling_witness :
  let cs := Examples.simple_of (Examples.hooked_config false true)
              [(1, Examples.item 10 None)] in
  let cl := Examples.lru_after (Examples.hooked_config false true) [LRU.OpSet 0 1 10] in
  (Simple.GetIFPresent 3 1 cs).2 = Returns None None
  ∧ (Simple.Get 3 1 cs).2 = Returns None (Some (OtherError 2))
  ∧ ∃ cl', LRU.GetIFPresent 3 1 cl = Some (cl', Returns None (Some (OtherError 2))).
Proof.
  intros cs cl.
  apply (GetIFPresent_error_handling cs cl 3 1 (Examples.item 10 None) 0
           {| LRU.key := 1; LRU.value := 10; LRU.expiration := None |}
           Examples.failing_deserialize None (OtherError 2)).
  - vm_compute. reflexivity.
  - reflexivity.
  - reflexivity.
  - reflexivity.
  - vm_compute. reflexivity.
  - vm_compute. reflexivity.
  - reflexivity.
  - reflexivity.
  - reflexivity.
  - discriminate.
Defined.

(** C5, witness: capacity 2; keys 1 and 2 are set, key 1 is read, and the
    [Set] of key 3 evicts key 2. *)
Lemma lru_recency_order_witness :
  let cb := Examples.observed_config 0 2 None in
  let ops := [LRU.OpSet 0 1 10; LRU.OpSet 1 2 20; LRU.OpGet 2 1] in
  let c := Examples.lru_after cb ops in
  LRU.run ops (LRU.newLRUCache cb) = Some c
  ∧ ∃ c', LRU.Set_ 3 3 30 c = Some (c', None)
          ∧ LRU.hookCalls c' = [EvictedCall 2 20]
          ∧ LRU.last_touch ops 2 < LRU.last_touch ops 1.
Proof.
  intros cb ops c.
  assert (LRU.run ops (LRU.newLRUCache cb) = Some c) as Hrun by (vm_compute; reflexivity).
  split; [exact Hrun|].
  assert (Base.serialize_total cb) as Htot by (intros k v; reflexivity).
  assert (0 < Base.capacity cb)%Z as Hcap by (simpl; lia).
  destruct (lru_recency_order cb ops c Htot Hcap Hrun) as (_ & _ & _ & Hov).
  destruct (Hov 3%Z 3 30) as (c' & victim & value & Hset & Hlast & _ & _ & Hrec & Hca).
  - vm_compute. reflexivity.
  - vm_compute. discriminate.
  - assert (victim = 2) as ->.
    { vm_compute in Hlast. by injection Hlast as <-. }
    exists c'. split; [exact Hset|]. split.
    + vm_compute in Hset. injection Hset as <-. vm_compute. reflexivity.
    + apply Hrec; [|discriminate]. vm_compute. eexists. reflexivity.
Defined.

(** * Further properties of the unordered cache *)

Section SimpleMore.
Context `{Countable K} {V : Type}.
Implicit Types (c : Simple.SimpleCache K V) (st : gmap K (Simple.simpleItem V)).
Implicit Types (item : Simple.simpleItem V) (order ks : list K) (k key : K).

Lemma simple_range_order_length order c :
  Simple.range_order order c → length order = size (Simple.store c).
Proof.
  intros [Hnd Hdom]. rewrite <- size_dom.
  assert (dom (Simple.store c) = list_to_set order) as ->.
  { apply set_eq. intros k. by rewrite elem_of_dom, elem_of_list_to_set, Hdom. }
  symmetry. by apply size_list_to_set.
Qed.

Lemma simple_Get_state clk k c :
  (Simple.Get clk k c).1 = (Simple.get clk k false c).1
  ∧ (Simple.GetIFPresent clk k c).1 = (Simple.get clk k false c).1.
Proof.
  unfold Simple.Get, Simple.GetIFPresent.
  destruct (Simple.get clk k false c) as [c' [v err]]. by case_bool_decide.
Qed.

(** What a lookup does to the map: it removes the entry it finds expired,
    and nothing else. *)
Lemma simple_get_store clk k onLoad c :
  Simple.store (Simple.get clk k onLoad c).1
  = (if Simple.stale clk (Simple.store c) k then delete k (Simple.store c) else Simple.store c)
  ∧ Simple.base (Simple.get clk k onLoad c).1 = Simple.base c.
Proof.
  unfold Simple.get, Simple.stale.
  destruct (Simple.store c !! k) as [item|] eqn:Hk.
  - destruct (Simple.IsExpired clk item None).
    + simpl. by rewrite simple_remove_store, simple_remove_base.
    + destruct onLoad; simpl; by destruct (Base.deserializeFunc _).
  - by destruct onLoad.
Qed.

Lemma simple_Set_state order clk k v c :
  (Simple.Set_ order clk k v c).1 = (Simple.set order clk k v c).1.
Proof. unfold Simple.Set_. by destruct (Simple.set order clk k v c) as [c' [i e]]. Qed.

Lemma simple_serialize_cases c k v :
  (∃ v1, Base.serialize (Simple.base c) k v = (v1, None))
  ∨ (∃ v1 err, Base.serialize (Simple.base c) k v = (v1, Some err)).
Proof. destruct (Base.serialize (Simple.base c) k v) as [v1 [err|]]; eauto. Qed.

Lemma simple_Purge_proj order c :
  Simple.store (Simple.Purge order c) = ∅
  ∧ Simple.base (Simple.Purge order c) = Simple.base c
  ∧ Simple.hitCount (Simple.Purge order c) = Simple.hitCount c
  ∧ Simple.missCount (Simple.Purge order c) = Simple.missCount c
  ∧ Simple.hookCalls (Simple.Purge order c) = Simple.purge_calls c order ++ Simple.hookCalls c.
Proof.
  unfold Simple.Purge, Simple.purge_calls.
  destruct (Base.purgeVisitorFunc (Simple.base c)); [|done]. simpl.
  set (f := λ (c' : Simple.SimpleCache K V) key,
         match Simple.store c !! key with
         | Some item => Simple.call_hook true (PurgeVisitorCall key (Simple.value item)) c'
         | None => c'
         end).
  assert (∀ l c0, Simple.base (foldl f c0 l) = Simple.base c0
                  ∧ Simple.hitCount (foldl f c0 l) = Simple.hitCount c0
                  ∧ Simple.missCount (foldl f c0 l) = Simple.missCount c0
                  ∧ Simple.hookCalls (foldl f c0 l)
                    = omap (λ k, (λ item, PurgeVisitorCall k (Simple.value item))
                                   <$> Simple.store c !! k) (reverse l)
                      ++ Simple.hookCalls c0) as Hfold.
  { induction l as [|k l IH]; intros c0; [done|]. simpl.
    destruct (IH (f c0 k)) as (Hb & Hh & Hm & Hc).
    rewrite Hb, Hh, Hm, Hc, reverse_cons, omap_app. csimpl. unfold f at 1 2 3 4.
    destruct (Simple.store c !! k) as [item|]; simpl.
    - by rewrite <- app_assoc.
    - by rewrite app_nil_r. }
  destruct (Hfold order c) as (? & ? & ? & ?). done.
Qed.

Lemma simple_step_base (o : Simple.op K V) c : Simple.base (Simple.step o c) = Simple.base c.
Proof.
  destruct o as [order clk k v|order clk k v d|clk k|clk k|k|order]; simpl.
  - rewrite simple_Set_state.
    destruct (simple_serialize_cases c k v) as [[v1 Hser]|(v1 & err & Hser)].
    + by destruct (simple_set_ok order clk k v c v1 Hser) as (c' & -> & ? & _).
    + by rewrite (simple_set_error order clk k v c v1 err Hser).
  - destruct (simple_serialize_cases c k v) as [[v1 Hser]|(v1 & err & Hser)].
    + by destruct (simple_SetWithExpire_ok order clk k v d c v1 Hser) as (c' & -> & ? & _).
    + by destruct (simple_Set_error order clk k v c v1 err Hser) as [_ ->].
  - destruct (simple_Get_state clk k c) as [-> _]. apply simple_get_store.
  - destruct (simple_Get_state clk k c) as [_ ->]. apply simple_get_store.
  - apply simple_remove_base.
  - apply simple_Purge_proj.
Qed.

Lemma simple_run_base (ops : list (Simple.op K V)) : ∀ c,
  Simple.base (Simple.run ops c) = Simple.base c.
Proof.
  induction ops as [|o ops IH]; intros c; simpl; [done|].
  by rewrite IH, simple_step_base.
Qed.

Lemma simple_run_app (ops1 ops2 : list (Simple.op K V)) c :
  Simple.run (ops1 ++ ops2) c = Simple.run ops2 (Simple.run ops1 c).
Proof. revert c. induction ops1 as [|o ops1 IH]; intros c; simpl; [done|]. apply IH. Qed.

(** With no expiration anywhere, the first key of the iteration is the one
    [evict(1)] removes. *)
Lemma simple_evict_one_no_expiration k0 rest clk c :
  is_Some (Simple.store c !! k0) →
  (∀ k item, Simple.store c !! k = Some item → Simple.expiration item = None) →
  Simple.store (Simple.evict (k0 :: rest) clk 1 c) = delete k0 (Simple.store c).
Proof.
  intros [item Hk0] Hnone.
  destruct (simple_evict_spec (k0 :: rest) clk 1 c) as (-> & _).
  simpl. unfold Simple.candidate at 1. rewrite Hk0.
  unfold Simple.evictable. rewrite (Hnone k0 item Hk0). done.
Qed.

(** One operation other than [SetWithExpire], on a cache without default
    time-to-live whose entries carry no expiration: the entries still
    carry none, and the size bound still holds. *)
Lemma simple_step_bounded (o : Simple.op K V) c :
  (0 < Base.size (Simple.base c))%Z →
  Base.expiration (Simple.base c) = None →
  Simple.sets_expiration o = false →
  Simple.op_order_ok o c →
  (∀ k item, Simple.store c !! k = Some item → Simple.expiration item = None) →
  (Simple.Len c ≤ Base.size (Simple.base c))%Z →
  (∀ k item, Simple.store (Simple.step o c) !! k = Some item → Simple.expiration item = None)
  ∧ (Simple.Len (Simple.step o c) ≤ Base.size (Simple.base c))%Z.
Proof.
  intros Hsize Hexp Hop Hord Hnone Hlen. unfold Simple.Len in *.
  assert (∀ clk k, Simple.stale clk (Simple.store c) k = false) as Hstale.
  { intros clk k. unfold Simple.stale. destruct (Simple.store c !! k) as [item|] eqn:Hk; [|done].
    unfold Simple.IsExpired. by rewrite (Hnone k item Hk). }
  destruct o as [order clk k v|order clk k v d|clk k|clk k|k|order];
    cbn [Simple.step Simple.sets_expiration Simple.op_order_ok] in *; try done.
  - rewrite simple_Set_state.
    destruct (simple_serialize_cases c k v) as [[v1 Hser]|(v1 & err & Hser)].
    2:{ by rewrite (simple_set_error order clk k v c v1 err Hser). }
    rewrite (simple_set_store order clk k v c v1 Hser), Hexp.
    destruct (Simple.store c !! k) as [item|] eqn:Hk; simpl.
    + rewrite (Hnone k item Hk). split.
      * intros k' item' Hk'. apply lookup_insert_Some in Hk' as [[_ <-]|[_ Hk']]; [done|eauto].
      * rewrite map_size_insert_Some by eauto. done.
    + destruct (bool_decide (Z.of_nat (size (Simple.store c)) >= Base.size (Simple.base c))%Z
                && bool_decide (Base.size (Simple.base c) > 0)%Z) eqn:Hfull.
      * apply andb_true_iff in Hfull as [Hfull _]. apply bool_decide_eq_true in Hfull.
        pose proof (simple_range_order_length order c Hord) as Hlo.
        destruct order as [|k0 rest]; [simpl in Hlo; lia|].
        assert (is_Some (Simple.store c !! k0)) as Hk0
          by (apply Hord, list_elem_of_here).
        rewrite (simple_evict_one_no_expiration k0 rest clk c Hk0 Hnone). split.
        -- intros k' item' Hk'. apply lookup_insert_Some in Hk' as [[_ <-]|[_ Hk']]; [done|].
           apply lookup_delete_Some in Hk' as [_ Hk']. eauto.
        -- rewrite map_size_insert_None.
           ++ rewrite map_size_delete_Some by done. lia.
           ++ apply lookup_delete_None. by right.
      * split.
        -- intros k' item' Hk'. apply lookup_insert_Some in Hk' as [[_ <-]|[_ Hk']]; [done|eauto].
        -- rewrite map_size_insert_None by done.
           apply andb_false_iff in Hfull as [Hfull|Hfull];
             apply bool_decide_eq_false in Hfull; lia.
  - destruct (simple_Get_state clk k c) as [-> _].
    destruct (simple_get_store clk k false c) as [-> _]. by rewrite Hstale.
  - destruct (simple_Get_state clk k c) as [_ ->].
    destruct (simple_get_store clk k false c) as [-> _]. by rewrite Hstale.
  - unfold Simple.Remove. rewrite simple_remove_store. split.
    + intros k' item' Hk'. apply lookup_delete_Some in Hk' as [_ Hk']. eauto.
    + pose proof (map_size_delete k (Simple.store c)) as Hs.
      destruct (Simple.store c !! k); simpl in Hs; lia.
  - destruct (simple_Purge_proj order c) as (-> & _). split.
    + intros k' item' Hk'. by rewrite lookup_empty in Hk'.
    + rewrite map_size_empty. lia.
Qed.

Lemma simple_run_bounded (ops : list (Simple.op K V)) : ∀ c,
  (0 < Base.size (Simple.base c))%Z →
  Base.expiration (Simple.base c) = None →
  existsb Simple.sets_expiration ops = false →
  Simple.orders_ok ops c →
  (∀ k item, Simple.store c !! k = Some item → Simple.expiration item = None) →
  (Simple.Len c ≤ Base.size (Simple.base c))%Z →
  (Simple.Len (Simple.run ops c) ≤ Base.size (Simple.base c))%Z
  ∧ ∀ k item, Simple.store (Simple.run ops c) !! k = Some item
              → Simple.expiration item = None.
Proof.
  induction ops as [|o ops IH]; intros c Hsize Hexp Hops Hok Hnone Hlen; simpl; [done|].
  simpl in Hops. apply orb_false_iff in Hops as [Ho Hops]. destruct Hok as [Hoo Hok].
  destruct (simple_step_bounded o c Hsize Hexp Ho Hoo Hnone Hlen) as [Hnone' Hlen'].
  rewrite <- (simple_step_base o c). rewrite <- (simple_step_base o c) in Hsize, Hexp, Hlen'.
  by apply IH.
Qed.

(** X1. A Simple cache with a positive size, no default time-to-live and
    no loader, used without [SetWithExpire], keeps its size bound: after any sequence
    of [Set], [Get], [GetIFPresent], [Remove] and [Purge], whatever the
    iteration orders, [Len() <= size], and no entry carries an
    expiration. *)
Theorem simple_bounded_without_expiration (cb : Base.baseCache K V) ops :
  (0 < Base.size cb)%Z →
  Base.expiration cb = None →
  Base.loaderExpireFunc cb = false →
  existsb Simple.sets_expiration ops = false →
  Simple.orders_ok ops (Simple.newSimpleCache cb) →
  let c := Simple.run ops (Simple.newSimpleCache cb) in
  (Simple.Len c ≤ Base.size cb)%Z
  ∧ ∀ k item, Simple.store c !! k = Some item → Simple.expiration item = None.
Proof.
  intros Hsize Hexp _ Hops Hord.
  apply (simple_run_bounded ops (Simple.newSimpleCache cb)); try done.
  unfold Simple.Len. simpl. rewrite map_size_empty. lia.
Qed.

(** X2. [Remove] succeeds exactly when the key is present.  It deletes
    that key and no other, tells the evicted hook about it (once, with
    the stored value), and leaves the counters alone; when the key is
    absent it returns [KeyNotFoundError] and the cache is unchanged.
    Either way the key is absent afterwards: a second [Remove] fails and
    a lookup misses. *)
Theorem simple_Remove_effect k c :
  let r := Simple.Remove k c in
  (r.2 = None ↔ is_Some (Simple.store c !! k))
  ∧ (r.2 ≠ None → r = (c, Some KeyNotFoundError))
  ∧ Simple.store r.1 = delete k (Simple.store c)
  ∧ Simple.hookCalls r.1 = Simple.evicted_calls c [k] ++ Simple.hookCalls c
  ∧ Simple.hitCount r.1 = Simple.hitCount c
  ∧ Simple.missCount r.1 = Simple.missCount c
  ∧ Simple.Remove k r.1 = (r.1, Some KeyNotFoundError)
  ∧ ∀ clk, (Simple.get clk k false r.1).2 = (None, Some KeyNotFoundError).
Proof.
  intros r. unfold r, Simple.Remove.
  assert (Simple.store (Simple.remove k c).1 !! k = None) as Hgone
    by (rewrite simple_remove_store; apply lookup_delete_eq).
  split_and!.
  - unfold Simple.remove. destruct (Simple.store c !! k) as [item|]; simpl.
    + split; eauto.
    + split; [done|]. by intros [? ?].
  - unfold Simple.remove. by destruct (Simple.store c !! k) as [item|].
  - apply simple_remove_store.
  - unfold Simple.remove, Simple.evicted_calls, Simple.call_hook. csimpl.
    destruct (Simple.store c !! k) as [item|]; simpl; by destruct (Base.evictedFunc _).
  - apply simple_remove_counters.
  - apply simple_remove_counters.
  - unfold Simple.remove at 1. by rewrite Hgone.
  - intros clk. unfold Simple.get. by rewrite Hgone.
Qed.

(** X3. [Purge] leaves the cache empty.  When a purge visitor is
    configured it is called once for each entry, with the key and the
    stored value, in iteration order; the evicted hook is not called and
    the counters do not move. *)
Theorem simple_Purge_complete order c :
  Simple.range_order order c →
  let c' := Simple.Purge order c in
  Simple.Len c' = 0%Z
  ∧ (∀ clk k, (Simple.get clk k false c').2 = (None, Some KeyNotFoundError))
  ∧ Simple.hookCalls c' = Simple.purge_calls c order ++ Simple.hookCalls c
  ∧ (Base.purgeVisitorFunc (Simple.base c) = true →
     length (Simple.purge_calls c order) = size (Simple.store c)
     ∧ ∀ k item, Simple.store c !! k = Some item →
                 PurgeVisitorCall k (Simple.value item) ∈ Simple.purge_calls c order)
  ∧ Simple.hitCount c' = Simple.hitCount c
  ∧ Simple.missCount c' = Simple.missCount c.
Proof.
  intros Hord c'. subst c'.
  destruct (simple_Purge_proj order c) as (Hs & Hb & Hh & Hm & Hc).
  split_and!; try done.
  intros Hpv. unfold Simple.purge_calls. rewrite Hpv. split.
  - rewrite omap_length_total.
    + rewrite length_reverse. by apply simple_range_order_length.
    + intros k Hk. apply elem_of_reverse, Hord in Hk as [item ->]. eauto.
  - intros k item Hk. apply list_elem_of_omap. exists k. split.
    + apply elem_of_reverse, Hord. eauto.
    + by rewrite Hk.
Qed.

Lemma simple_set_hookCalls_no_eviction order clk k v c v1 :
  Base.serialize (Simple.base c) k v = (v1, None) →
  (is_Some (Simple.store c !! k) ∨ (Base.size (Simple.base c) ≤ 0)%Z
   ∨ (Simple.Len c < Base.size (Simple.base c))%Z) →
  Simple.hookCalls (Simple.set order clk k v c).1
  = (if Base.addedFunc (Simple.base c) then [AddedCall k v1] else []) ++ Simple.hookCalls c
  ∧ Simple.store (Simple.set order clk k v c).1
    = <[k := {| Simple.value := v1;
                Simple.expiration :=
                  match Base.expiration (Simple.base c) with
                  | Some d => Some (clk + d)%Z
                  | None => Simple.store c !! k ≫= Simple.expiration
                  end |}]> (Simple.store c).
Proof.
  intros Hser Hcase. split.
  - unfold Simple.set. rewrite Hser.
    destruct (Simple.store c !! k) as [item|] eqn:Hk.
    + unfold Simple.call_hook.
      destruct (Base.expiration _), (Base.addedFunc _); done.
    + assert (bool_decide (Z.of_nat (size (Simple.store c)) >= Base.size (Simple.base c))%Z
              && bool_decide (Base.size (Simple.base c) > 0)%Z = false) as ->.
      { destruct Hcase as [[? ?]|[Hle|Hlt]]; [done| |].
        - apply andb_false_iff. right. apply bool_decide_eq_false. lia.
        - apply andb_false_iff. left. apply bool_decide_eq_false.
          unfold Simple.Len in Hlt. lia. }
      unfold Simple.call_hook.
      destruct (Base.expiration _), (Base.addedFunc _); done.
  - rewrite (simple_set_store order clk k v c v1 Hser).
    destruct (Simple.store c !! k) as [item|] eqn:Hk; [done|].
    assert (bool_decide (Z.of_nat (size (Simple.store c)) >= Base.size (Simple.base c))%Z
            && bool_decide (Base.size (Simple.base c) > 0)%Z = false) as ->; [|done].
    destruct Hcase as [[? ?]|[Hle|Hlt]]; [done| |].
    + apply andb_false_iff. right. apply bool_decide_eq_false. lia.
    + apply andb_false_iff. left. apply bool_decide_eq_false.
      unfold Simple.Len in Hlt. lia.
Qed.

(** X4. [Set] evicts only when it inserts a new key into a full cache.
    When the key is already there, when the size is zero or negative
    (unbounded), or when the cache is below its size, every other entry
    is kept, the evicted hook is not called, and the cache gains at most
    the one entry. *)
Theorem simple_Set_no_eviction order clk k v c v1 :
  Base.serialize (Simple.base c) k v = (v1, None) →
  (is_Some (Simple.store c !! k) ∨ (Base.size (Simple.base c) ≤ 0)%Z
   ∨ (Simple.Len c < Base.size (Simple.base c))%Z) →
  let c' := (Simple.Set_ order clk k v c).1 in
  (Simple.Set_ order clk k v c).2 = None
  ∧ (∀ k', k' ≠ k → Simple.store c' !! k' = Simple.store c !! k')
  ∧ (∃ item, Simple.store c' !! k = Some item ∧ Simple.value item = v1)
  ∧ Simple.Len c'
    = (if bool_decide (is_Some (Simple.store c !! k)) then Simple.Len c
       else Simple.Len c + 1)%Z
  ∧ Simple.hookCalls c'
    = (if Base.addedFunc (Simple.base c) then [AddedCall k v1] else [])
      ++ Simple.hookCalls c.
Proof.
  intros Hser Hcase c'.
  destruct (simple_set_hookCalls_no_eviction order clk k v c v1 Hser Hcase) as [Hca Hst].
  destruct (simple_Set_ok order clk k v c v1 Hser) as (c1 & Hset & _).
  unfold c', Simple.Len. rewrite simple_Set_state, Hst, Hca. rewrite Hset. simpl.
  split_and!; try done.
  - intros k' Hne. by rewrite lookup_insert_ne.
  - eexists. by rewrite lookup_insert_eq.
  - case_bool_decide as Hin.
    + by rewrite map_size_insert_Some.
    + rewrite map_size_insert_None; [lia|]. by apply eq_None_not_Some.
Qed.

(** [Set] on an entry that carries an expiration, in a cache without
    default time-to-live, replaces the value and keeps the expiration. *)
Lemma simple_Set_keeps_expiration order clk k v c v1 item t :
  Base.serialize (Simple.base c) k v = (v1, None) →
  Base.expiration (Simple.base c) = None →
  Simple.store c !! k = Some item → Simple.expiration item = Some t →
  Base.loaderExpireFunc (Simple.base c) = false →
  ∃ c1, Simple.Set_ order clk k v c = (c1, None)
        ∧ Simple.store c1 !! k = Some {| Simple.value := v1; Simple.expiration := Some t |}
        ∧ ∀ clk', (t < clk')%Z →
                  (Simple.Get clk' k c1).2 = Returns None (Some KeyNotFoundError).
Proof.
  intros Hser Hexp Hk Ht Hlo.
  destruct (simple_Set_ok order clk k v c v1 Hser) as (c1 & Hset & Hb & Hlk).
  rewrite Hexp, Hk in Hlk. simpl in Hlk. rewrite Ht in Hlk.
  exists c1. split; [done|]. split; [done|]. intros clk' Hlt.
  rewrite (simple_Get_expired clk' k c1 _ Hlk); [done| |by rewrite Hb].
  apply simple_IsExpired_iff. eauto.
Qed.

(** A lookup made on behalf of the loader ([onLoad]) returns what an
    ordinary lookup returns and does the same to the map, without
    touching the counters. *)
Lemma simple_get_onLoad clk k c :
  (Simple.get clk k true c).2 = (Simple.get clk k false c).2
  ∧ Simple.store (Simple.get clk k true c).1 = Simple.store (Simple.get clk k false c).1
  ∧ Simple.hookCalls (Simple.get clk k true c).1 = Simple.hookCalls (Simple.get clk k false c).1
  ∧ Simple.hitCount (Simple.get clk k true c).1 = Simple.hitCount c
  ∧ Simple.missCount (Simple.get clk k true c).1 = Simple.missCount c.
Proof.
  unfold Simple.get. destruct (Simple.store c !! k) as [item|]; [|done].
  destruct (Simple.IsExpired clk item None).
  - simpl. split_and!; try done; apply simple_remove_counters.
  - simpl. by destruct (Base.deserializeFunc _).
Qed.

(** ** Bulk reads *)

Lemma simple_delete_all_delete ks k st :
  Simple.delete_all ks (delete k st) = delete k (Simple.delete_all ks st).
Proof.
  unfold Simple.delete_all. induction ks as [|k' ks IH]; simpl; [done|].
  rewrite IH. apply delete_delete.
Qed.

Lemma simple_live_stale_cases clk st k :
  match st !! k with
  | Some item =>
      Simple.live clk st k = negb (Simple.IsExpired clk item None)
      ∧ Simple.stale clk st k = Simple.IsExpired clk item None
  | None => Simple.live clk st k = false ∧ Simple.stale clk st k = false
  end.
Proof. unfold Simple.live, Simple.stale. by destruct (st !! k). Qed.

(** One probe of a key of the map, without loader. *)
Lemma simple_GetIFPresent_probe clk k c item :
  Base.loaderExpireFunc (Simple.base c) = false →
  Base.deserialize_no_KeyNotFound (Simple.base c) →
  Simple.store c !! k = Some item →
  if Simple.IsExpired clk item None
  then Simple.GetIFPresent clk k c
       = ((Simple.remove k c).1, Returns None (Some KeyNotFoundError))
  else ∃ v, Simple.read_value c k = Some v
            ∧ Simple.GetIFPresent clk k c = (Simple.IncrHitCount c, Returns v None).
Proof.
  intros Hlo Hde Hk. destruct (Simple.IsExpired clk item None) eqn:Hexp.
  - unfold Simple.GetIFPresent. rewrite (simple_get_expired clk k c item Hk Hexp). simpl.
    unfold Simple.getWithLoader. by rewrite simple_remove_base, Hlo.
  - unfold Simple.GetIFPresent, Simple.read_value.
    rewrite (simple_get_hit clk k c item Hk Hexp), Hk. simpl.
    destruct (Base.deserializeFunc (Simple.base c)) as [f|] eqn:Hf.
    + destruct (f k (Simple.value item)) as [v err] eqn:Hfk.
      rewrite bool_decide_eq_false_2.
      * exists v. done.
      * intros ->. apply (Hde f k (Simple.value item) Hf). by rewrite Hfk.
    + eexists. done.
Qed.

(** The loops of [Keys] and [GetALL] over keys of the map: they go
    through the same states, list or map the live entries, and remove the
    expired ones. *)
Lemma simple_bulk_loops clk ks : ∀ c acc m,
  NoDup ks →
  (∀ k, k ∈ ks → is_Some (Simple.store c !! k)) →
  Base.loaderExpireFunc (Simple.base c) = false →
  Base.deserialize_no_KeyNotFound (Simple.base c) →
  ∃ c' m',
    Simple.Keys_loop clk ks c acc
    = Some (c', acc ++ List.filter (Simple.live clk (Simple.store c)) ks)
    ∧ Simple.GetALL_loop clk ks c m = Some (c', m')
    ∧ (∀ k, m' !! k = if bool_decide (k ∈ List.filter (Simple.live clk (Simple.store c)) ks)
                      then Simple.read_value c k else m !! k)
    ∧ Simple.base c' = Simple.base c
    ∧ Simple.store c'
      = Simple.delete_all (List.filter (Simple.stale clk (Simple.store c)) ks) (Simple.store c)
    ∧ Simple.hitCount c'
      = Simple.hitCount c + length (List.filter (Simple.live clk (Simple.store c)) ks)
    ∧ Simple.missCount c' = Simple.missCount c.
Proof.
  induction ks as [|k rest IH]; intros c acc m Hnd Hin Hlo Hde.
  - exists c, m. simpl. rewrite app_nil_r. split_and!; first [done|lia].
  - apply NoDup_cons in Hnd as [Hk Hnd].
    destruct (Hin k (list_elem_of_here _ _)) as [item Hitem].
    pose proof (simple_live_stale_cases clk (Simple.store c) k) as Hls.
    rewrite Hitem in Hls. destruct Hls as [Hlive Hstale].
    pose proof (simple_GetIFPresent_probe clk k c item Hlo Hde Hitem) as Hprobe.
    cbn [List.filter]. rewrite Hlive, Hstale.
    destruct (Simple.IsExpired clk item None) eqn:Hexp; cbn [negb].
    + (* expired: removed, not listed *)
      set (c1 := (Simple.remove k c).1) in *.
      assert (Simple.base c1 = Simple.base c) as Hb1 by apply simple_remove_base.
      assert (Simple.store c1 = delete k (Simple.store c)) as Hs1 by apply simple_remove_store.
      assert (∀ k', k' ∈ rest → Simple.store c1 !! k' = Simple.store c !! k') as Hsame.
      { intros k' Hk'. rewrite Hs1, lookup_delete_ne; [done|]. by intros ->. }
      destruct (IH c1 acc m) as (c' & m' & HK & HG & Hm & Hb & Hs & Hh & Hmi);
        try done.
      { intros k' Hk'. rewrite Hsame by done. apply Hin. by apply list_elem_of_further. }
      { by rewrite Hb1. }
      { by rewrite Hb1. }
      assert (List.filter (Simple.live clk (Simple.store c1)) rest
              = List.filter (Simple.live clk (Simple.store c)) rest) as Hfl.
      { apply filter_ext_in. intros k' Hk'. apply list_elem_of_In in Hk'.
        unfold Simple.live. by rewrite Hsame. }
      assert (List.filter (Simple.stale clk (Simple.store c1)) rest
              = List.filter (Simple.stale clk (Simple.store c)) rest) as Hfs.
      { apply filter_ext_in. intros k' Hk'. apply list_elem_of_In in Hk'.
        unfold Simple.stale. by rewrite Hsame. }
      rewrite Hfl in HK, Hm, Hh. rewrite Hfs in Hs.
      exists c', m'. simpl. rewrite Hprobe. fold c1.
      split_and!; try done; try congruence.
      * intros k'. rewrite Hm. case_bool_decide as Hk'; [|done].
        apply list_elem_of_In, filter_In in Hk' as [Hk' _]. apply list_elem_of_In in Hk'.
        unfold Simple.read_value. by rewrite Hb1, Hsame.
      * rewrite Hs, Hs1. apply simple_delete_all_delete.
      * by destruct (simple_remove_counters k c) as [<- _].
      * by destruct (simple_remove_counters k c) as [_ <-].
    + (* live: listed, counted as a hit *)
      destruct Hprobe as (v & Hv & Hprobe).
      set (c1 := Simple.IncrHitCount c) in *.
      destruct (IH c1 (acc ++ [k]) (<[k := v]> m)) as (c' & m' & HK & HG & Hm & Hb & Hs & Hh & Hmi);
        try done.
      { intros k' Hk'. apply Hin. by apply list_elem_of_further. }
      change (Simple.store c1) with (Simple.store c) in *.
      change (Simple.base c1) with (Simple.base c) in *.
      exists c', m'. simpl. rewrite Hprobe. fold c1.
      split_and!; try done.
      * by rewrite HK, <- app_assoc.
      * intros k'. rewrite Hm.
        destruct (decide (k' = k)) as [->|Hne].
        -- rewrite bool_decide_eq_false_2.
           ++ rewrite lookup_insert_eq, bool_decide_eq_true_2; [done|apply list_elem_of_here].
           ++ intros Hk'. apply list_elem_of_In, filter_In in Hk' as [Hk' _].
              by apply list_elem_of_In in Hk'.
        -- rewrite lookup_insert_ne by done.
           assert (bool_decide (k' ∈ k :: List.filter (Simple.live clk (Simple.store c)) rest)
                   = bool_decide (k' ∈ List.filter (Simple.live clk (Simple.store c)) rest))
             as ->; [|done].
           apply bool_decide_ext. rewrite elem_of_cons. split; [|by right]. by intros [?|?].
      * rewrite Hh. simpl. lia.
Qed.

Lemma simple_keys_range_order order c :
  Simple.range_order order c → Simple.keys order c = order.
Proof.
  intros [_ Hdom]. unfold Simple.keys.
  assert (∀ k, k ∈ order → Simple.present (Simple.store c) k = true) as Hall.
  { intros k Hk. apply bool_decide_eq_true. by apply Hdom. }
  clear Hdom. induction order as [|k order IH]; [done|]. simpl.
  rewrite Hall by apply list_elem_of_here. f_equal. apply IH.
  intros k' Hk'. apply Hall. by apply list_elem_of_further.
Qed.

Lemma simple_live_filter_elem_of order clk c k :
  Simple.range_order order c →
  k ∈ List.filter (Simple.live clk (Simple.store c)) order
  ↔ Simple.live clk (Simple.store c) k = true.
Proof.
  intros [_ Hdom]. rewrite list_elem_of_In, filter_In, <- list_elem_of_In. split; [by intros [_ ?]|].
  intros Hl. split; [|done]. apply Hdom. unfold Simple.live in Hl.
  destruct (Simple.store c !! k); [eauto|done].
Qed.

Lemma simple_bulk_store order clk c k :
  Simple.range_order order c →
  Simple.delete_all (List.filter (Simple.stale clk (Simple.store c)) order) (Simple.store c) !! k
  = if Simple.live clk (Simple.store c) k then Simple.store c !! k else None.
Proof.
  intros [_ Hdom].
  pose proof (simple_live_stale_cases clk (Simple.store c) k) as Hls.
  destruct (decide (k ∈ List.filter (Simple.stale clk (Simple.store c)) order)) as [Hin|Hnin].
  - rewrite simple_delete_all_lookup_in by done.
    apply list_elem_of_In, filter_In in Hin as [_ Hst].
    destruct (Simple.store c !! k) as [item|]; destruct Hls as [-> Hs]; [|done].
    rewrite Hst in Hs. by rewrite <- Hs.
  - rewrite simple_delete_all_lookup_notin by done.
    destruct (Simple.store c !! k) as [item|] eqn:Hk; destruct Hls as [-> Hs]; [|done].
    destruct (Simple.IsExpired clk item None) eqn:Hexp; [|done].
    destruct Hnin. apply list_elem_of_In, filter_In. split; [|done].
    apply list_elem_of_In, Hdom. eauto.
Qed.

(** X5. [Keys], without loader: it returns the keys whose entries have
    not expired, in iteration order.  As it goes it removes every expired
    entry from the map and counts one hit per key returned; the miss
    counter does not move. *)
Theorem simple_Keys_lists_live order clk c :
  Simple.range_order order c →
  Base.loaderExpireFunc (Simple.base c) = false →
  Base.deserialize_no_KeyNotFound (Simple.base c) →
  ∃ c',
    Simple.Keys order clk c
    = Some (c', List.filter (Simple.live clk (Simple.store c)) order)
    ∧ (∀ k, Simple.store c' !! k
            = if Simple.live clk (Simple.store c) k then Simple.store c !! k else None)
    ∧ Simple.hitCount c'
      = Simple.hitCount c + length (List.filter (Simple.live clk (Simple.store c)) order)
    ∧ Simple.missCount c' = Simple.missCount c.
Proof.
  intros Hord Hlo Hde. unfold Simple.Keys. rewrite (simple_keys_range_order order c Hord).
  destruct (simple_bulk_loops clk order c [] ∅) as (c' & m' & HK & _ & _ & _ & Hs & Hh & Hm);
    try done; [apply Hord|apply Hord|].
  exists c'. split; [done|]. split; [|done].
  intros k. rewrite Hs. by apply simple_bulk_store.
Qed.

(** X6. [GetALL], without loader: it returns the map of the keys whose
    entries have not expired to what a read of each returns (the stored
    value, or the value of the deserialize hook).  It has the side
    effects of [Keys]: expired entries are removed, and every entry
    returned counts as a hit. *)
Theorem simple_GetALL_maps_live order clk c :
  Simple.range_order order c →
  Base.loaderExpireFunc (Simple.base c) = false →
  Base.deserialize_no_KeyNotFound (Simple.base c) →
  ∃ c' m,
    Simple.GetALL order clk c = Some (c', m)
    ∧ (∀ k, m !! k = if Simple.live clk (Simple.store c) k
                     then Simple.read_value c k else None)
    ∧ (∀ k, Simple.store c' !! k
            = if Simple.live clk (Simple.store c) k then Simple.store c !! k else None)
    ∧ Simple.hitCount c' = Simple.hitCount c + size m
    ∧ Simple.missCount c' = Simple.missCount c.
Proof.
  intros Hord Hlo Hde. unfold Simple.GetALL. rewrite (simple_keys_range_order order c Hord).
  destruct (simple_bulk_loops clk order c [] ∅) as (c' & m' & _ & HG & Hm' & _ & Hs & Hh & Hm);
    try done; [apply Hord|apply Hord|].
  assert (∀ k, m' !! k = if Simple.live clk (Simple.store c) k
                         then Simple.read_value c k else None) as Hmk.
  { intros k. rewrite Hm'. rewrite lookup_empty.
    destruct (Simple.live clk (Simple.store c) k) eqn:Hl.
    - rewrite bool_decide_eq_true_2; [done|]. by apply simple_live_filter_elem_of.
    - rewrite bool_decide_eq_false_2; [done|].
      rewrite simple_live_filter_elem_of by done. by rewrite Hl. }
  exists c', m'. split; [done|]. split; [done|]. split; [|split; [|done]].
  - intros k. rewrite Hs. by apply simple_bulk_store.
  - rewrite Hh. f_equal.
    rewrite <- size_dom.
    assert (dom m' = list_to_set (List.filter (Simple.live clk (Simple.store c)) order)) as ->.
    { apply set_eq. intros k. rewrite elem_of_dom, elem_of_list_to_set, Hmk.
      rewrite simple_live_filter_elem_of by done.
      unfold Simple.live, Simple.read_value.
      destruct (Simple.store c !! k) as [item|]; simpl.
      - destruct (negb _).
        + split; [done|eauto].
        + split; [by intros [? ?]|done].
      - split; [by intros [? ?]|done]. }
    rewrite size_list_to_set; [done|].
    apply NoDup_ListNoDup, List.NoDup_filter, NoDup_ListNoDup, Hord.
Qed.

(** X7. The bounds of [evict] on the unordered cache, for any count: it
    removes [count] candidates (entries without expiration or with a
    passed one), or all of them when there are fewer; a count of zero or
    less changes nothing; an entry whose expiration has not passed is never
    removed, no entry is modified, and the counters do not move. *)
Theorem simple_evict_bounds order clk count c :
  Simple.range_order order c →
  let c' := Simple.evict order clk count c in
  let candidates := List.filter (Simple.candidate clk (Simple.store c)) order in
  ((count ≤ 0)%Z → Simple.store c' = Simple.store c ∧ Simple.hookCalls c' = Simple.hookCalls c)
  ∧ (∀ k item, Simple.store c !! k = Some item → Simple.evictable clk item = false →
               Simple.store c' !! k = Some item)
  ∧ (∀ k, Simple.store c' !! k = None ∨ Simple.store c' !! k = Simple.store c !! k)
  ∧ Simple.Len c' = (Simple.Len c - Z.min (Z.max 0 count) (Z.of_nat (length candidates)))%Z
  ∧ ((Z.of_nat (length candidates) ≤ count)%Z →
     ∀ k item, Simple.store c' !! k = Some item → Simple.evictable clk item = false)
  ∧ Simple.hitCount c' = Simple.hitCount c
  ∧ Simple.missCount c' = Simple.missCount c.
Proof.
  intros [Hnd Hdom] c' candidates.
  destruct (simple_evict_spec order clk count c) as (Hs & _ & Hhi & Hmi & Hca).
  fold c' candidates in Hs, Hhi, Hmi, Hca. specialize (Hca Hnd).
  set (victims := firstn (Z.to_nat count) candidates) in *.
  assert (∀ k, k ∈ candidates → Simple.candidate clk (Simple.store c) k = true) as Hcand.
  { intros k Hk. by apply list_elem_of_In, filter_In in Hk as [_ ?]. }
  assert (∀ k, k ∈ victims → k ∈ candidates) as Hvc.
  { intros k Hk. eapply elem_of_sublist; [exact Hk|]. apply sublist_take. }
  assert (NoDup candidates) as Hndc.
  { apply NoDup_ListNoDup, List.NoDup_filter, NoDup_ListNoDup, Hnd. }
  assert (NoDup victims) as Hndv.
  { unfold victims. rewrite <- (take_drop (Z.to_nat count) candidates) in Hndc.
    by apply NoDup_app in Hndc as [? _]. }
  split_and!; try done.
  - intros Hle. unfold victims in *. replace (Z.to_nat count) with 0 in * by lia.
    simpl in *. split; [done|]. rewrite Hca. unfold Simple.evicted_calls.
    by destruct (Base.evictedFunc _).
  - intros k item Hk Hev. rewrite Hs, simple_delete_all_lookup_notin; [done|].
    intros Hin. apply Hvc, Hcand in Hin. unfold Simple.candidate in Hin.
    rewrite Hk in Hin. congruence.
  - intros k. rewrite Hs. destruct (decide (k ∈ victims)) as [Hin|Hnin].
    + left. by apply simple_delete_all_lookup_in.
    + right. by apply simple_delete_all_lookup_notin.
  - unfold Simple.Len. rewrite Hs, simple_delete_all_size; [|done|].
    + assert (length victims ≤ size (Simple.store c)).
      { rewrite <- (simple_range_order_length order c) by done.
        unfold victims. rewrite length_take.
        pose proof (filter_length_le (Simple.candidate clk (Simple.store c)) order) as Hfl.
        fold candidates in Hfl. lia. }
      unfold victims in *. rewrite length_take in *. lia.
    + intros k Hk. by apply (simple_candidate_present clk), Hcand, Hvc.
  - intros Hle k item Hk. rewrite Hs in Hk.
    destruct (decide (k ∈ victims)) as [Hin|Hnin].
    { by rewrite simple_delete_all_lookup_in in Hk. }
    rewrite simple_delete_all_lookup_notin in Hk by done.
    destruct (Simple.evictable clk item) eqn:Hev; [|done]. exfalso. apply Hnin.
    unfold victims. rewrite firstn_all2 by lia.
    apply list_elem_of_In, filter_In. split.
    + apply list_elem_of_In, Hdom. eauto.
    + unfold Simple.candidate. by rewrite Hk.
Qed.

End SimpleMore.

(** * Further properties of the recency-ordered cache *)

Section LRUMore.
Context `{Countable K} {V : Type}.
Implicit Types (c : LRU.LRUCache K V) (e : nat) (k key : K) (it : LRU.lruItem K V).
Implicit Types (order ks : list K).

Lemma lru_Len_list_keys c :
  LRU.bijection c → LRU.Len c = Z.of_nat (length (LRU.list_keys c)).
Proof. intros Hb. unfold LRU.Len. by rewrite lru_store_size. Qed.

Lemma lru_purge_range_proj c0 order : ∀ c c',
  LRU.purge_range c0 order c = Some c' →
  LRU.store c' = LRU.store c ∧ LRU.evictList c' = LRU.evictList c
  ∧ LRU.heap c' = LRU.heap c ∧ LRU.base c' = LRU.base c
  ∧ LRU.hitCount c' = LRU.hitCount c ∧ LRU.missCount c' = LRU.missCount c
  ∧ LRU.hookCalls c'
    = omap (λ k, (λ it, PurgeVisitorCall k (LRU.value it)) <$> LRU.item_of c0 k) (reverse order)
      ++ LRU.hookCalls c.
Proof.
  induction order as [|k order IH]; intros c c' Hp; simpl in Hp.
  - by injection Hp as <-.
  - rewrite reverse_cons, omap_app. csimpl. unfold LRU.item_of at 2.
    destruct (LRU.store c0 !! k) as [e|]; simpl.
    + destruct (LRU.heap c0 !! e) as [it|]; [|done]. simpl in Hp.
      destruct (IH _ _ Hp) as (-> & -> & -> & -> & -> & -> & ->).
      simpl. by rewrite <- app_assoc.
    + destruct (IH _ _ Hp) as (-> & -> & -> & -> & -> & -> & ->).
      by rewrite app_nil_r.
Qed.

Lemma lru_Purge_proj order c c' :
  LRU.Purge order c = Some c' →
  LRU.store c' = ∅ ∧ LRU.evictList c' = []
  ∧ LRU.heap c' = LRU.heap c ∧ LRU.base c' = LRU.base c
  ∧ LRU.hitCount c' = LRU.hitCount c ∧ LRU.missCount c' = LRU.missCount c
  ∧ LRU.hookCalls c' = LRU.purge_calls c order ++ LRU.hookCalls c.
Proof.
  unfold LRU.Purge, LRU.purge_calls. intros Hp.
  destruct (Base.purgeVisitorFunc (LRU.base c)).
  - destruct (LRU.purge_range c order c) as [c1|] eqn:Hpr; [|done].
    simpl in Hp. injection Hp as <-.
    destruct (lru_purge_range_proj c order c c1 Hpr) as (? & ? & ? & ? & ? & ? & ?).
    simpl. done.
  - simpl in Hp. by injection Hp as <-.
Qed.

(** What an operation does to the counters and to the number of entries:
    a read counts one hit or one miss, nothing else counts anything; and
    only a [Set] can add an entry, never beyond the capacity (or beyond
    one entry, when the capacity is not positive). *)
Lemma lru_step_effect (o : LRU.op K V) c :
  LRU.bijection c →
  ∃ c', LRU.step o c = Some c'
    ∧ LRU.bijection c' ∧ LRU.base c' = LRU.base c
    ∧ LRU.hitCount c' + LRU.missCount c'
      = LRU.hitCount c + LRU.missCount c + (if LRU.is_read o then 1 else 0)
    ∧ (LRU.Len c' ≤ Z.max (LRU.Len c) (Z.max (Base.capacity (LRU.base c)) 1))%Z.
Proof.
  intros Hb.
  assert (∀ clk k v, ∃ c' item err,
    LRU.set clk k v c = Some (c', (item, err))
    ∧ LRU.bijection c' ∧ LRU.base c' = LRU.base c
    ∧ LRU.hitCount c' = LRU.hitCount c ∧ LRU.missCount c' = LRU.missCount c
    ∧ (LRU.Len c' ≤ Z.max (LRU.Len c) (Z.max (Base.capacity (LRU.base c)) 1))%Z
    ∧ (err = None → is_Some item)) as Hset.
  { intros clk k v.
    destruct (lru_serialize_cases c k v) as [[v1 Hser]|(v1 & err & Hser)].
    - destruct (LRU.store c !! k) as [e|] eqn:Hk.
      + destruct (LRU.bij_store c Hb k e Hk) as (Hin & it & Hit & Hkey).
        destruct (lru_set_existing clk k v c v1 e it Hb Hser Hk Hit)
          as (c' & -> & Hb' & Hs' & _ & _ & _ & Hba' & Hhi & Hmi & _).
        eexists _, _, _.
        split_and!; try done; try (by eauto). unfold LRU.Len; rewrite Hs'; lia.
      + destruct (lru_set_new clk k v c v1 Hb Hser Hk)
          as (c' & -> & Hb' & _ & _ & Hlk & _ & Hba' & Hhi & Hmi & _).
        eexists _, _, _. split_and!; try done; try (by eauto).
        rewrite (lru_Len_list_keys c' Hb'), (lru_Len_list_keys c Hb).
        unfold LRU.list_Len in Hlk. rewrite <- (lru_list_keys_length c Hb) in Hlk.
        destruct (bool_decide _) eqn:Hfull; rewrite Hlk; cbn [length].
        * rewrite length_take. lia.
        * apply bool_decide_eq_false in Hfull. lia.
    - rewrite (lru_set_error clk k v c v1 err Hser).
      eexists _, _, _. split_and!; first [done|lia]. }
  assert (∀ clk k, ∃ c' r,
    LRU.get clk k false c = Some (c', r)
    ∧ LRU.bijection c' ∧ LRU.base c' = LRU.base c
    ∧ LRU.hitCount c' + LRU.missCount c' = LRU.hitCount c + LRU.missCount c + 1
    ∧ (LRU.Len c' ≤ LRU.Len c)%Z) as Hget.
  { intros clk k. destruct (LRU.store c !! k) as [e|] eqn:Hk.
    - destruct (LRU.bij_store c Hb k e Hk) as (Hin & it & Hit & Hkey).
      destruct (LRU.isExpired clk it None) eqn:Hexp.
      + destruct (lru_get_expired clk k false c e it Hb Hk Hit Hexp)
          as (c' & -> & Hb' & Hs & _ & _ & _ & Hba & Hhi & Hmi & _).
        eexists _, _. split_and!; try done; try lia.
        unfold LRU.Len. rewrite Hs.
        pose proof (map_size_delete k (LRU.store c)) as Hsz. rewrite Hk in Hsz. simpl in Hsz. lia.
      + destruct (lru_get_hit clk k false c e it Hb Hk Hit Hexp)
          as (c' & -> & Hb' & Hs & _ & _ & _ & Hba & Hhi & Hmi & _).
        eexists _, _. split_and!; try done; try lia.
        unfold LRU.Len. by rewrite Hs.
    - rewrite lru_get_absent by done. eexists _, _. split; [done|]. simpl.
      split_and!; try done; try lia.
      eapply lru_bijection_ext; [| | |exact Hb]; done. }
  destruct o as [clk k v|clk k v d|clk k|clk k|k|n|order]; simpl.
  - destruct (Hset clk k v) as (c' & item & err & Hs & Hb' & Hba & Hhi & Hmi & Hlen & _).
    unfold LRU.Set_. rewrite Hs. simpl. exists c'. split_and!; first [done|lia].
  - destruct (Hset clk k v) as (c' & item & err & Hs & Hb' & Hba & Hhi & Hmi & Hlen & Hok).
    unfold LRU.SetWithExpire. rewrite Hs. simpl.
    destruct err as [err|].
    + destruct item; simpl; exists c'; split_and!; first [done|lia].
    + destruct (Hok eq_refl) as [e ->]. simpl. eexists. split; [done|].
      split; [by apply lru_set_expiration_bijection|]. simpl.
      split_and!; first [done|lia].
  - destruct (Hget clk k) as (c' & r & Hg & Hb' & Hba & Hcnt & Hlen).
    unfold LRU.Get. rewrite Hg. simpl. exists c'.
    split; [by case_bool_decide|]. split_and!; first [done|lia].
  - destruct (Hget clk k) as (c' & r & Hg & Hb' & Hba & Hcnt & Hlen).
    unfold LRU.GetIFPresent. rewrite Hg. simpl. exists c'.
    split; [by case_bool_decide|]. split_and!; first [done|lia].
  - unfold LRU.Remove, LRU.remove. destruct (LRU.store c !! k) as [e|] eqn:Hk.
    + destruct (LRU.bij_store c Hb k e Hk) as (Hin & _).
      destruct (lru_removeElement_spec c e Hb Hin)
        as (c' & it & -> & _ & _ & Hs & _ & _ & Hba & Hhi & Hmi & _ & Hb' & _).
      simpl. exists c'. split_and!; try done; try lia.
      unfold LRU.Len. rewrite Hs.
      pose proof (map_size_delete (LRU.key it) (LRU.store c)) as Hsz.
      destruct (LRU.store c !! LRU.key it); simpl in Hsz; lia.
    + simpl. exists c. split_and!; first [done|lia].
  - unfold LRU.evict.
    destruct (lru_evict_loop_spec (Z.to_nat n) c Hb)
      as (c' & -> & Hb' & _ & _ & Hs & _ & Hba & Hhi & Hmi & _).
    exists c'. split_and!; try done; try lia.
    unfold LRU.Len. apply map_subseteq_size in Hs. lia.
  - destruct (lru_Purge_total order c Hb) as (c' & Hp & Hb' & Hba & _).
    destruct (lru_Purge_proj order c c' Hp) as (Hs & _ & _ & _ & Hhi & Hmi & _).
    exists c'. split_and!; try done; try lia.
    unfold LRU.Len. rewrite Hs, map_size_empty. lia.
Qed.

Lemma lru_reads_app (ops1 ops2 : list (LRU.op K V)) :
  LRU.reads (ops1 ++ ops2) = LRU.reads ops1 + LRU.reads ops2.
Proof. unfold LRU.reads. by rewrite List.filter_app, length_app. Qed.

Lemma lru_run_effect (ops : list (LRU.op K V)) : ∀ c,
  LRU.bijection c →
  ∃ c', LRU.run ops c = Some c'
    ∧ LRU.bijection c' ∧ LRU.base c' = LRU.base c
    ∧ LRU.hitCount c' + LRU.missCount c'
      = LRU.hitCount c + LRU.missCount c + LRU.reads ops
    ∧ ((LRU.Len c ≤ Z.max (Base.capacity (LRU.base c)) 1)%Z →
       (LRU.Len c' ≤ Z.max (Base.capacity (LRU.base c)) 1)%Z).
Proof.
  induction ops as [|o ops IH]; intros c Hb; simpl.
  - exists c. unfold LRU.reads. simpl. split_and!; first [done|lia].
  - destruct (lru_step_effect o c Hb) as (c1 & -> & Hb1 & Hba1 & Hcnt1 & Hlen1). simpl.
    destruct (IH c1 Hb1) as (c' & -> & Hb' & Hba' & Hcnt' & Hlen').
    exists c'. rewrite Hba1 in Hlen'. split_and!; try done.
    + congruence.
    + change (o :: ops) with ([o] ++ ops). rewrite lru_reads_app.
      unfold LRU.reads at 1. simpl. destruct (LRU.is_read o); simpl; lia.
    + intros Hlen. apply Hlen'. lia.
Qed.

(** X8. Whatever operations are applied to a new LRU cache without
    loader, it never holds more entries than its capacity; a cache whose
    capacity is zero or negative never holds more than one entry. *)
Theorem lru_Len_bounded (cb : Base.baseCache K V) ops :
  Base.loaderExpireFunc cb = false →
  ∃ c, LRU.run ops (LRU.newLRUCache cb) = Some c
       ∧ (LRU.Len c ≤ Z.max (Base.capacity cb) 1)%Z
       ∧ ((0 < Base.capacity cb)%Z → (LRU.Len c ≤ Base.capacity cb)%Z).
Proof.
  intros _. destruct (lru_run_effect ops (LRU.newLRUCache cb) (lru_new_bijection cb))
    as (c & Hrun & _ & _ & _ & Hlen).
  exists c. split; [done|].
  assert (LRU.Len c ≤ Z.max (Base.capacity cb) 1)%Z as Hle.
  { apply Hlen. unfold LRU.Len. simpl. rewrite map_size_empty. lia. }
  split; [done|]. intros Hcap. simpl in Hle. lia.
Qed.

(** X9. The counters of the LRU cache account for every read: after any
    sequence of operations on a new cache without loader, hits plus misses
    is the number of [Get] and [GetIFPresent] calls made. *)
Theorem lru_stats_accounting (cb : Base.baseCache K V) ops :
  Base.loaderExpireFunc cb = false →
  ∃ c, LRU.run ops (LRU.newLRUCache cb) = Some c
       ∧ LRU.hitCount c + LRU.missCount c = LRU.reads ops.
Proof.
  intros _. destruct (lru_run_effect ops (LRU.newLRUCache cb) (lru_new_bijection cb))
    as (c & Hrun & _ & _ & Hcnt & _).
  exists c. split; [done|]. simpl in Hcnt. lia.
Qed.

(** X10. With a capacity of zero or less the LRU cache does not become
    unbounded: the list is always found full, so every [Set] of a new key
    first evicts the entry the cache holds, and the new key is then the
    only one. *)
Theorem lru_nonpositive_capacity_single_entry (cb : Base.baseCache K V) ops c clk k v v1 :
  (Base.capacity cb ≤ 0)%Z →
  Base.loaderExpireFunc cb = false →
  LRU.run ops (LRU.newLRUCache cb) = Some c →
  Base.serialize cb k v = (v1, None) →
  LRU.store c !! k = None →
  ∃ c', LRU.Set_ clk k v c = Some (c', None)
        ∧ LRU.list_keys c' = [k]
        ∧ LRU.Len c' = 1%Z
        ∧ ∀ k', is_Some (LRU.store c' !! k') ↔ k' = k.
Proof.
  intros Hcap _ Hrun Hser Hk.
  destruct (lru_run_effect ops (LRU.newLRUCache cb) (lru_new_bijection cb))
    as (c0 & Hrun0 & Hb & Hba & _ & Hlen).
  rewrite Hrun in Hrun0. injection Hrun0 as <-.
  assert (LRU.Len c ≤ 1)%Z as Hle.
  { simpl in Hlen. etrans; [apply Hlen|lia].
    unfold LRU.Len. simpl. rewrite map_size_empty. lia. }
  simpl in Hba. rewrite <- Hba in Hser.
  destruct (lru_set_new clk k v c v1 Hb Hser Hk)
    as (c' & Hset & Hb' & _ & _ & Hlk & _).
  unfold LRU.list_Len in Hlk. rewrite Hba in Hlk.
  rewrite bool_decide_eq_true_2 in Hlk by lia.
  rewrite (lru_Len_list_keys c Hb) in Hle.
  assert (LRU.list_keys c' = [k]) as Hlk'.
  { rewrite Hlk. f_equal.
    replace (length (LRU.list_keys c) - 1) with 0 by lia. done. }
  exists c'. unfold LRU.Set_. rewrite Hset. simpl.
  split; [done|]. split; [done|]. split.
  - by rewrite (lru_Len_list_keys c' Hb'), Hlk'.
  - intros k'. rewrite <- (lru_list_keys_elem_of c' k' Hb'), Hlk'.
    apply list_elem_of_singleton.
Qed.

Lemma lru_item_of_Some c k it :
  LRU.item_of c k = Some it ↔ ∃ e, LRU.store c !! k = Some e ∧ LRU.heap c !! e = Some it.
Proof.
  unfold LRU.item_of. destruct (LRU.store c !! k) as [e|]; simpl.
  - split; [eauto|]. by intros (e' & [= <-] & ?).
  - split; [done|]. by intros (? & ? & _).
Qed.

Lemma lru_item_of_is_Some c k :
  LRU.bijection c → is_Some (LRU.item_of c k) ↔ is_Some (LRU.store c !! k).
Proof.
  intros Hb. unfold LRU.item_of. destruct (LRU.store c !! k) as [e|] eqn:Hk; simpl.
  - destruct (LRU.bij_store c Hb k e Hk) as (_ & it & -> & _). split; eauto.
  - split; by intros [? ?].
Qed.

(** X11. [Remove] on the LRU cache succeeds exactly when the key is
    present.  It takes the key out of the map and its element out of the
    list, tells the evicted hook (once, with the stored value) and leaves
    the counters alone; when the key is absent it returns
    [KeyNotFoundError] and the cache is unchanged.  Either way a second
    [Remove] fails and a lookup misses. *)
Theorem lru_Remove_effect k c :
  LRU.bijection c →
  ∃ c' err,
    LRU.Remove k c = Some (c', err)
    ∧ (err = None ↔ is_Some (LRU.store c !! k))
    ∧ (err ≠ None → err = Some KeyNotFoundError ∧ c' = c)
    ∧ LRU.store c' = delete k (LRU.store c)
    ∧ LRU.list_keys c' = filter (λ k', k' ≠ k) (LRU.list_keys c)
    ∧ LRU.bijection c'
    ∧ LRU.hookCalls c'
      = (if Base.evictedFunc (LRU.base c)
         then from_option (λ it, [EvictedCall k (LRU.value it)]) [] (LRU.item_of c k)
         else [])
        ++ LRU.hookCalls c
    ∧ LRU.hitCount c' = LRU.hitCount c
    ∧ LRU.missCount c' = LRU.missCount c
    ∧ LRU.Remove k c' = Some (c', Some KeyNotFoundError)
    ∧ ∀ clk, (λ r, r.2) <$> LRU.get clk k true c' = Some (None, Some KeyNotFoundError).
Proof.
  intros Hb. unfold LRU.Remove at 1, LRU.remove, LRU.item_of.
  destruct (LRU.store c !! k) as [e|] eqn:Hk; simpl.
  - destruct (LRU.bij_store c Hb k e Hk) as (Hin & it & Hit & Hkey).
    destruct (lru_removeElement_spec c e Hb Hin)
      as (c' & it' & -> & Hit' & _ & Hs & _ & _ & Hba & Hhi & Hmi & Hca & Hb' & Hlk).
    assert (it' = it) as -> by congruence. rewrite Hkey in Hs, Hlk. simpl.
    assert (LRU.store c' !! k = None) as Hgone by (rewrite Hs; apply lookup_delete_eq).
    exists c', None. rewrite Hit. simpl. split_and!; try done.
    + rewrite Hca. unfold LRU.evicted_calls. csimpl. rewrite Hit. simpl.
      rewrite Hkey. by destruct (Base.evictedFunc _).
    + unfold LRU.Remove, LRU.remove. by rewrite Hgone.
    + intros clk. by rewrite lru_get_absent.
  - exists c, (Some KeyNotFoundError). split_and!; try done.
    + symmetry. by apply delete_id.
    + symmetry. apply filter_ne_notin. rewrite lru_list_keys_elem_of by done.
      rewrite Hk. by intros [? ?].
    + by destruct (Base.evictedFunc _).
    + unfold LRU.Remove, LRU.remove. by rewrite Hk.
    + intros clk. by rewrite lru_get_absent.
Qed.

Lemma lru_range_order_length order c :
  LRU.range_order order c → length order = size (LRU.store c).
Proof.
  intros [Hnd Hdom]. rewrite <- size_dom.
  assert (dom (LRU.store c) = list_to_set order) as ->.
  { apply set_eq. intros k. by rewrite elem_of_dom, elem_of_list_to_set, Hdom. }
  symmetry. by apply size_list_to_set.
Qed.

(** X12. [Purge] on the LRU cache empties both the map and the list.
    When a purge visitor is configured it is called once for each entry,
    with the key and the stored value, in iteration order; the evicted
    hook is not called and the counters do not move. *)
Theorem lru_Purge_complete order c :
  LRU.bijection c → LRU.range_order order c →
  ∃ c',
    LRU.Purge order c = Some c'
    ∧ LRU.Len c' = 0%Z ∧ LRU.evictList c' = [] ∧ LRU.bijection c'
    ∧ LRU.hookCalls c' = LRU.purge_calls c order ++ LRU.hookCalls c
    ∧ (Base.purgeVisitorFunc (LRU.base c) = true →
       length (LRU.purge_calls c order) = size (LRU.store c)
       ∧ ∀ k it, LRU.item_of c k = Some it →
                 PurgeVisitorCall k (LRU.value it) ∈ LRU.purge_calls c order)
    ∧ LRU.hitCount c' = LRU.hitCount c
    ∧ LRU.missCount c' = LRU.missCount c.
Proof.
  intros Hb Hord.
  destruct (lru_Purge_total order c Hb) as (c' & Hp & Hb' & Hba & _).
  destruct (lru_Purge_proj order c c' Hp) as (Hs & Hl & _ & _ & Hhi & Hmi & Hca).
  exists c'. split_and!; try done.
  - unfold LRU.Len. by rewrite Hs, map_size_empty.
  - intros Hpv. unfold LRU.purge_calls. rewrite Hpv. split.
    + rewrite omap_length_total.
      * rewrite length_reverse. by apply lru_range_order_length.
      * intros k Hk. apply elem_of_reverse, Hord in Hk.
        apply (lru_item_of_is_Some c k Hb) in Hk as [it ->]. eauto.
    + intros k it Hk. apply list_elem_of_omap. exists k. split.
      * apply elem_of_reverse, Hord, (lru_item_of_is_Some c k Hb). eauto.
      * by rewrite Hk.
Qed.

(** X13. The bounds of [evict]: a count of zero or less changes nothing;
    otherwise the cache loses its [count] least recently used entries, or
    all of them when it holds no more than [count], and the evicted hook
    is told of each entry removed. *)
Theorem lru_evict_bounds count c :
  LRU.bijection c →
  ∃ c',
    LRU.evict count c = Some c'
    ∧ ((count ≤ 0)%Z → c' = c)
    ∧ LRU.list_keys c'
      = take (length (LRU.list_keys c) - Z.to_nat count) (LRU.list_keys c)
    ∧ LRU.Len c' = Z.max 0 (LRU.Len c - Z.max 0 count)
    ∧ LRU.hookCalls c'
      = LRU.evicted_calls c
          (drop (length (LRU.evictList c) - Z.to_nat count) (LRU.evictList c))
        ++ LRU.hookCalls c
    ∧ ((LRU.Len c ≤ count)%Z →
       LRU.store c' = ∅ ∧ LRU.evictList c' = []
       ∧ LRU.hookCalls c' = LRU.evicted_calls c (LRU.evictList c) ++ LRU.hookCalls c)
    ∧ LRU.bijection c'.
Proof.
  intros Hb. unfold LRU.evict.
  destruct (lru_evict_loop_spec (Z.to_nat count) c Hb)
    as (c' & Hev & Hb' & Hl & Hlk & _ & _ & _ & _ & _ & Hca).
  exists c'. split; [done|].
  pose proof (lru_list_keys_length c Hb) as Hlen.
  split_and!; try done.
  - intros Hle. replace (Z.to_nat count) with 0 in Hev by lia.
    simpl in Hev. by injection Hev as <-.
  - rewrite (lru_Len_list_keys c' Hb'), (lru_Len_list_keys c Hb), Hlk, length_take. lia.
  - intros Hle. rewrite (lru_Len_list_keys c Hb), Hlen in Hle.
    replace (length (LRU.evictList c) - Z.to_nat count) with 0 in Hl, Hca by lia.
    rewrite take_0 in Hl. rewrite drop_0 in Hca. split; [|done].
    apply map_size_empty_inv. by rewrite (lru_bijection_Len c' Hb'), Hl.
Qed.

Lemma lru_take_last {A} (l : list A) :
  l = take (length l - 1) l ++ option_list (last l).
Proof.
  destruct l as [|x l _] using rev_ind; [done|].
  rewrite length_app, last_snoc. simpl.
  replace (length l + 1 - 1) with (length l) by lia.
  by rewrite take_app_length.
Qed.

Lemma lru_evict_loop_heap n : ∀ c c',
  LRU.evict_loop n c = Some c' → LRU.heap c' = LRU.heap c.
Proof.
  induction n as [|n IH]; intros c c'; simpl.
  - by intros [= <-].
  - destruct (LRU.list_Back _) as [b|]; [|by intros [= <-]].
    unfold LRU.removeElement. destruct (LRU.heap c !! b) as [it|]; [|done]. simpl.
    intros Hev. apply IH in Hev. rewrite Hev.
    by destruct (lru_call_hook_proj (Base.evictedFunc (LRU.base c))
                   (EvictedCall (LRU.key it) (LRU.value it))
                   (LRU.with_store (delete (LRU.key it) (LRU.store c))
                      (LRU.with_evictList (LRU.list_Remove b (LRU.evictList c)) c)))
      as (_ & _ & -> & _).
Qed.

(** [set] writes one element of the arena, the one it returns. *)
Lemma lru_set_heap_frame clk k v c c' e :
  LRU.set clk k v c = Some (c', (Some e, None)) →
  ∀ e', e' < length (LRU.heap c) → e' ≠ e → LRU.heap c' !! e' = LRU.heap c !! e'.
Proof.
  unfold LRU.set. destruct (Base.serialize _ _ _) as [v1 [err|]]; [done|].
  destruct (LRU.store c !! k) as [e0|].
  - destruct (LRU.heap c !! e0) as [it|]; [|done]. simpl.
    intros [= <- <-] e' _ Hne.
    destruct (lru_call_hook_proj (Base.addedFunc (LRU.base c)) (AddedCall k v1)
      (match Base.expiration (LRU.base c) with
       | Some d => LRU.set_expiration e0 (clk + d)
                     (LRU.set_value e0 v1
                        (LRU.with_evictList (LRU.list_MoveToFront e0 (LRU.evictList c)) c))
       | None => LRU.set_value e0 v1
                   (LRU.with_evictList (LRU.list_MoveToFront e0 (LRU.evictList c)) c)
       end)) as (_ & _ & -> & _).
    destruct (Base.expiration _); simpl; by rewrite !list_lookup_alter_ne.
  - destruct (if bool_decide _ then _ else _) as [c0|] eqn:Hc0; [|done]. simpl.
    assert (LRU.heap c0 = LRU.heap c) as Hh0.
    { destruct (bool_decide _); [|congruence]. by apply lru_evict_loop_heap in Hc0. }
    intros [= <- <-] e' Hlt Hne. rewrite Hh0 in *.
    match goal with |- LRU.heap (LRU.call_hook ?b ?ev ?x) !! _ = _ =>
      destruct (lru_call_hook_proj b ev x) as (_ & _ & -> & _) end.
    destruct (Base.expiration _); simpl;
      rewrite ?list_lookup_alter_ne by done; by apply lookup_app_l.
Qed.

(** X14. What a successful [Set] changes on the LRU cache: the key it
    writes maps to the serialized value, and every other key keeps its
    entry (value and expiration), with one exception: when the key is new
    and the cache is full, the least recently used key is dropped. *)
Theorem lru_Set_frame clk k v c v1 :
  LRU.bijection c →
  Base.serialize (LRU.base c) k v = (v1, None) →
  ∃ c',
    LRU.Set_ clk k v c = Some (c', None)
    ∧ (LRU.value <$> LRU.item_of c' k) = Some v1
    ∧ ∀ k', k' ≠ k →
        LRU.item_of c' k'
        = if bool_decide (LRU.store c !! k = None
                          ∧ (Base.capacity (LRU.base c) ≤ LRU.Len c)%Z
                          ∧ last (LRU.list_keys c) = Some k')
          then None else LRU.item_of c k'.
Proof.
  intros Hb Hser.
  destruct (lru_Set_ok clk k v c v1 Hb Hser) as (c' & e & Hset & HSet & Hb' & _ & Hs' & Hh').
  exists c'. split; [done|]. split.
  { unfold LRU.item_of. rewrite Hs'. simpl. by rewrite Hh'. }
  pose proof (lru_set_heap_frame clk k v c c' e Hset) as Hframe.
  assert (∀ k' e', k' ≠ k → LRU.store c' !! k' = Some e' →
            LRU.store c !! k' = Some e' ∧ LRU.heap c' !! e' = LRU.heap c !! e') as Hold.
  { intros k' e' Hne Hk'.
    destruct (LRU.bij_store c' Hb' k' e' Hk') as (Hin' & it' & Hit' & Hkey').
    assert (e' ≠ e) as Hee.
    { intros ->. rewrite Hh' in Hit'. injection Hit' as <-. by simpl in Hkey'. }
    assert (e' ∈ LRU.evictList c) as Hin.
    { destruct (LRU.store c !! k) as [e0|] eqn:Hk.
      - destruct (LRU.bij_store c Hb k e0 Hk) as (_ & it & Hit & _).
        destruct (lru_set_existing clk k v c v1 e0 it Hb Hser Hk Hit)
          as (c2 & Hset2 & _ & _ & Hl2 & _).
        rewrite Hset in Hset2. injection Hset2 as <- <-.
        rewrite Hl2 in Hin'. apply elem_of_cons in Hin' as [?|Hin']; [done|].
        by apply list_elem_of_filter in Hin' as [_ ?].
      - destruct (lru_set_new clk k v c v1 Hb Hser Hk) as (c2 & Hset2 & _ & _ & Hl2 & _).
        rewrite Hset in Hset2. injection Hset2 as <- He.
        rewrite Hl2 in Hin'. apply elem_of_cons in Hin' as [?|Hin']; [congruence|].
        destruct (bool_decide _); [|done].
        eapply elem_of_sublist; [exact Hin'|]. apply sublist_take. }
    destruct (LRU.bij_list c Hb e' Hin) as (it & Hit & Hst).
    assert (LRU.heap c' !! e' = LRU.heap c !! e') as Hhe.
    { apply Hframe; [|done]. by eapply lookup_lt_Some. }
    split; [|done]. rewrite Hhe, Hit in Hit'. injection Hit' as <-. by rewrite <- Hkey'. }
  intros k' Hne. unfold LRU.item_of at 1.
  destruct (LRU.store c' !! k') as [e'|] eqn:Hk'; simpl.
  - destruct (Hold k' e' Hne Hk') as (Hk0 & Hhe).
    rewrite bool_decide_eq_false_2.
    + unfold LRU.item_of. rewrite Hk0. simpl. done.
    + intros (Hk & Hfull & Hlast).
      destruct (lru_set_new clk k v c v1 Hb Hser Hk) as (c2 & Hset2 & _ & _ & _ & Hlk2 & _).
      rewrite Hset in Hset2. injection Hset2 as <- _.
      rewrite bool_decide_eq_true_2 in Hlk2
        by (unfold LRU.list_Len; rewrite <- lru_bijection_Len by done;
            unfold LRU.Len in Hfull; lia).
      assert (k' ∈ LRU.list_keys c') as Hin by (apply lru_list_keys_elem_of; eauto).
      rewrite Hlk2 in Hin. apply elem_of_cons in Hin as [?|Hin]; [done|].
      pose proof (lru_list_keys_NoDup c Hb) as Hnd.
      rewrite (lru_take_last (LRU.list_keys c)), Hlast in Hnd. simpl in Hnd.
      apply NoDup_app in Hnd as (_ & Hdisj & _).
      apply (Hdisj k' Hin), list_elem_of_singleton. done.
  - destruct (bool_decide _) eqn:Hbd; [done|]. apply bool_decide_eq_false in Hbd.
    unfold LRU.item_of. destruct (LRU.store c !! k') as [e0|] eqn:Hk0; [|done].
    exfalso.
    assert (k' ∈ LRU.list_keys c) as Hin by (apply lru_list_keys_elem_of; eauto).
    assert (k' ∉ LRU.list_keys c') as Hnin.
    { rewrite lru_list_keys_elem_of by done. rewrite Hk'. by intros [? ?]. }
    destruct (LRU.store c !! k) as [ek|] eqn:Hk.
    + destruct (LRU.bij_store c Hb k ek Hk) as (_ & it & Hit & _).
      destruct (lru_set_existing clk k v c v1 ek it Hb Hser Hk Hit)
        as (c2 & Hset2 & _ & _ & _ & Hlk2 & _).
      rewrite Hset in Hset2. injection Hset2 as <- _.
      apply Hnin. rewrite Hlk2. apply elem_of_cons. right.
      by apply list_elem_of_filter.
    + destruct (lru_set_new clk k v c v1 Hb Hser Hk) as (c2 & Hset2 & _ & _ & _ & Hlk2 & _).
      rewrite Hset in Hset2. injection Hset2 as <- _.
      apply Hnin. rewrite Hlk2. apply elem_of_cons. right.
      destruct (bool_decide _) eqn:Hfull; [|done].
      apply bool_decide_eq_true in Hfull.
      rewrite (lru_take_last (LRU.list_keys c)) in Hin.
      apply elem_of_app in Hin as [?|Hin]; [done|].
      destruct (last (LRU.list_keys c)) as [kb|] eqn:Hlast; simpl in Hin.
      * apply list_elem_of_singleton in Hin as ->. exfalso. apply Hbd.
        split; [done|]. split; [|done].
        unfold LRU.list_Len in Hfull. rewrite <- lru_bijection_Len in Hfull by done.
        unfold LRU.Len. lia.
      * by apply elem_of_nil in Hin.
Qed.

(** ** Bulk reads *)

Lemma lru_filter_notin_cons (k : K) (rest l : list K) :
  filter (λ x, x ∉ rest) (filter (λ x, x ≠ k) l) = filter (λ x, x ∉ k :: rest) l.
Proof.
  induction l as [|x l IH]; [done|].
  rewrite (filter_cons (λ x, x ≠ k)), (filter_cons (λ x, x ∉ k :: rest)).
  destruct (decide (x ≠ k)) as [Hne|Heq].
  - rewrite filter_cons. destruct (decide (x ∉ rest)) as [Hn|Hi].
    + rewrite decide_True by (rewrite not_elem_of_cons; done). by rewrite IH.
    + rewrite decide_False; [done|]. rewrite not_elem_of_cons. by intros [_ ?].
  - rewrite decide_False; [done|]. rewrite not_elem_of_cons. by intros [? _].
Qed.

Lemma lru_filter_none {A} (P : A → Prop) `{!∀ x, Decision (P x)} (l : list A) :
  (∀ x, x ∈ l → ¬ P x) → filter P l = [].
Proof.
  induction l as [|x l IH]; intros Hl; [done|].
  rewrite filter_cons, decide_False by (apply Hl, list_elem_of_here).
  apply IH. intros y Hy. by apply Hl, list_elem_of_further.
Qed.

Lemma lru_filter_all {A} (P : A → Prop) `{!∀ x, Decision (P x)} (l : list A) :
  (∀ x, x ∈ l → P x) → filter P l = l.
Proof.
  induction l as [|x l IH]; intros Hl; [done|].
  rewrite filter_cons, decide_True by (apply Hl, list_elem_of_here).
  f_equal. apply IH. intros y Hy. by apply Hl, list_elem_of_further.
Qed.

Lemma lru_live_stale_cases clk c k e it :
  LRU.store c !! k = Some e → LRU.heap c !! e = Some it →
  LRU.item_of c k = Some it
  ∧ LRU.live clk c k = negb (LRU.isExpired clk it None)
  ∧ LRU.stale clk c k = LRU.isExpired clk it None
  ∧ LRU.readable clk c k
    = negb (LRU.isExpired clk it None) && bool_decide ((LRU.read_result c k it).2 = None).
Proof.
  intros Hk Hit. unfold LRU.live, LRU.stale, LRU.readable, LRU.item_of.
  rewrite Hk. simpl. by rewrite Hit.
Qed.

(** One probe of [Keys] or [GetALL], on a key of the map. *)
Lemma lru_GetIFPresent_probe clk k c e it :
  LRU.bijection c →
  Base.loaderExpireFunc (LRU.base c) = false →
  Base.deserialize_no_KeyNotFound (LRU.base c) →
  LRU.store c !! k = Some e → LRU.heap c !! e = Some it →
  let expired := LRU.isExpired clk it None in
  ∃ c1,
    LRU.GetIFPresent clk k c
    = Some (c1, if expired then Returns None (Some KeyNotFoundError)
                else Returns (LRU.read_result c k it).1 (LRU.read_result c k it).2)
    ∧ LRU.bijection c1 ∧ LRU.base c1 = LRU.base c ∧ LRU.heap c1 = LRU.heap c
    ∧ LRU.store c1 = (if expired then delete k (LRU.store c) else LRU.store c)
    ∧ LRU.list_keys c1
      = (if expired then [] else [k]) ++ filter (λ k', k' ≠ k) (LRU.list_keys c)
    ∧ LRU.hitCount c1 = (if expired then 0 else 1) + LRU.hitCount c
    ∧ LRU.missCount c1 = (if expired then 1 else 0) + LRU.missCount c.
Proof.
  intros Hb Hlo Hde Hk Hit expired. unfold expired.
  destruct (LRU.isExpired clk it None) eqn:Hexp.
  - destruct (lru_get_expired clk k false c e it Hb Hk Hit Hexp)
      as (c1 & Hget & Hb1 & Hs1 & _ & Hlk1 & Hh1 & Hba1 & Hhi1 & Hmi1 & _).
    exists c1. unfold LRU.GetIFPresent. rewrite Hget. simpl.
    unfold LRU.getWithLoader. rewrite Hba1, Hlo. done.
  - destruct (lru_get_hit clk k false c e it Hb Hk Hit Hexp)
      as (c1 & Hget & Hb1 & Hs1 & _ & Hlk1 & Hh1 & Hba1 & Hhi1 & Hmi1 & _).
    exists c1. unfold LRU.GetIFPresent. rewrite Hget. simpl.
    fold (LRU.read_result c k it).
    rewrite bool_decide_eq_false_2; [done|].
    unfold LRU.read_result. destruct (Base.deserializeFunc _) as [f|] eqn:Hf; [|done].
    by apply Hde.
Qed.

(** The loops of [Keys] and [GetALL] over keys of the map: they go
    through the same states; each live entry is read and moved to the
    front of the list, each expired one is removed. *)
Lemma lru_bulk_loops clk ks : ∀ c acc m,
  LRU.bijection c → NoDup ks →
  (∀ k, k ∈ ks → is_Some (LRU.store c !! k)) →
  Base.loaderExpireFunc (LRU.base c) = false →
  Base.deserialize_no_KeyNotFound (LRU.base c) →
  ∃ c' m',
    LRU.Keys_loop clk ks c acc = Some (c', acc ++ List.filter (LRU.readable clk c) ks)
    ∧ LRU.GetALL_loop clk ks c m = Some (c', m')
    ∧ (∀ k, m' !! k = if bool_decide (k ∈ List.filter (LRU.readable clk c) ks)
                      then (λ it, (LRU.read_result c k it).1) <$> LRU.item_of c k
                      else m !! k)
    ∧ LRU.bijection c' ∧ LRU.base c' = LRU.base c ∧ LRU.heap c' = LRU.heap c
    ∧ (∀ k, LRU.store c' !! k
            = if bool_decide (k ∈ List.filter (LRU.stale clk c) ks) then None
              else LRU.store c !! k)
    ∧ LRU.list_keys c'
      = reverse (List.filter (LRU.live clk c) ks) ++ filter (λ k, k ∉ ks) (LRU.list_keys c)
    ∧ LRU.hitCount c' = LRU.hitCount c + length (List.filter (LRU.live clk c) ks)
    ∧ LRU.missCount c' = LRU.missCount c + length (List.filter (LRU.stale clk c) ks).
Proof.
  induction ks as [|k rest IH]; intros c acc m Hb Hnd Hin Hlo Hde.
  - exists c, m. simpl. rewrite app_nil_r. split_and!; try done; try lia.
    symmetry. apply lru_filter_all. intros x _. apply not_elem_of_nil.
  - apply NoDup_cons in Hnd as [Hk Hnd].
    destruct (Hin k (list_elem_of_here _ _)) as [e He].
    destruct (LRU.bij_store c Hb k e He) as (_ & it & Hit & _).
    destruct (lru_live_stale_cases clk c k e it He Hit) as (Hitem & Hlive & Hstale & Hread).
    destruct (lru_GetIFPresent_probe clk k c e it Hb Hlo Hde He Hit)
      as (c1 & Hprobe & Hb1 & Hba1 & Hh1 & Hs1 & Hlk1 & Hhi1 & Hmi1).
    assert (∀ k', k' ∈ rest → LRU.store c1 !! k' = LRU.store c !! k') as Hst.
    { intros k' Hk'. rewrite Hs1. destruct (LRU.isExpired clk it None); [|done].
      rewrite lookup_delete_ne; [done|]. by intros ->. }
    assert (∀ k', k' ∈ rest → LRU.item_of c1 k' = LRU.item_of c k') as Hsame.
    { intros k' Hk'. unfold LRU.item_of. by rewrite Hst, Hh1. }
    assert (∀ k' it', LRU.read_result c1 k' it' = LRU.read_result c k' it') as Hrr.
    { intros k' it'. unfold LRU.read_result. by rewrite Hba1. }
    assert (List.filter (LRU.live clk c1) rest = List.filter (LRU.live clk c) rest) as Hfl.
    { apply filter_ext_in. intros k' Hk'. apply list_elem_of_In in Hk'.
      unfold LRU.live. by rewrite Hsame. }
    assert (List.filter (LRU.stale clk c1) rest = List.filter (LRU.stale clk c) rest) as Hfs.
    { apply filter_ext_in. intros k' Hk'. apply list_elem_of_In in Hk'.
      unfold LRU.stale. by rewrite Hsame. }
    assert (List.filter (LRU.readable clk c1) rest = List.filter (LRU.readable clk c) rest)
      as Hfr.
    { apply filter_ext_in. intros k' Hk'. apply list_elem_of_In in Hk'.
      unfold LRU.readable. rewrite Hsame by done.
      destruct (LRU.item_of c k'); [|done]. by rewrite Hrr. }
    assert (∀ (F : list K) k', k' ≠ k → bool_decide (k' ∈ k :: F) = bool_decide (k' ∈ F))
      as Hbd.
    { intros F k' Hne. apply bool_decide_ext. rewrite elem_of_cons.
      split; [|by right]. by intros [?|?]. }
    assert (∀ (f : K → bool), k ∉ List.filter f rest) as Hkf.
    { intros f Hk'. apply list_elem_of_In, filter_In in Hk' as [Hk' _].
      by apply list_elem_of_In in Hk'. }
    assert (∀ (f : K → bool) k', k' ∈ List.filter f rest → k' ∈ rest) as Hfin.
    { intros f k' Hk'. apply list_elem_of_In, filter_In in Hk' as [Hk' _].
      by apply list_elem_of_In. }
    cbn [List.filter]. rewrite Hlive, Hstale, Hread.
    destruct (LRU.isExpired clk it None) eqn:Hexp; cbn [negb andb] in *.
    + (* expired: removed, counted as a miss *)
      destruct (IH c1 acc m) as (c' & m' & HK & HG & Hm & Hb' & Hba & Hh & Hs & Hlk & Hhi & Hmi);
        try done.
      { intros k' Hk'. rewrite Hst by done. apply Hin. by apply list_elem_of_further. }
      { by rewrite Hba1. }
      { by rewrite Hba1. }
      rewrite Hfl in Hlk, Hhi. rewrite Hfs in Hs, Hmi. rewrite Hfr in HK, Hm.
      exists c', m'. simpl. rewrite Hprobe. simpl.
      split_and!; try done; try congruence.
      * intros k'. rewrite Hm. case_bool_decide as Hk'; [|done].
        rewrite Hsame by eauto. destruct (LRU.item_of c k'); [|done]. simpl. by rewrite Hrr.
      * intros k'. rewrite Hs. destruct (decide (k' = k)) as [->|Hne].
        -- rewrite bool_decide_eq_false_2 by apply Hkf.
           rewrite bool_decide_eq_true_2 by apply list_elem_of_here.
           rewrite Hs1. apply lookup_delete_eq.
        -- rewrite Hbd by done. rewrite Hs1, lookup_delete_ne; [done|]. by intros ->.
      * rewrite Hlk, Hlk1. simpl. by rewrite lru_filter_notin_cons.
      * rewrite Hhi, Hhi1. lia.
      * rewrite Hmi, Hmi1. simpl. lia.
    + (* live: read, moved to the front, counted as a hit *)
      destruct (LRU.read_result c k it) as [v err] eqn:Hres. simpl in *.
      destruct err as [err|]; simpl.
      * clear Hread. destruct (IH c1 acc m)
          as (c' & m' & HK & HG & Hm & Hb' & Hba & Hh & Hs & Hlk & Hhi & Hmi); try done.
        { intros k' Hk'. rewrite Hst by done. apply Hin. by apply list_elem_of_further. }
        { by rewrite Hba1. }
        { by rewrite Hba1. }
        rewrite Hfl in Hlk, Hhi. rewrite Hfs in Hs, Hmi. rewrite Hfr in HK, Hm.
        exists c', m'. simpl. rewrite Hprobe. simpl.
        split_and!; try done; try congruence.
        -- intros k'. rewrite Hm. case_bool_decide as Hk'; [|done].
           rewrite Hsame by eauto. destruct (LRU.item_of c k'); [|done]. simpl. by rewrite Hrr.
        -- intros k'. rewrite Hs. by rewrite Hs1.
        -- rewrite Hlk, Hlk1. simpl. rewrite reverse_cons, <- app_assoc. simpl.
           rewrite filter_cons, decide_True by done. by rewrite lru_filter_notin_cons.
        -- rewrite Hhi, Hhi1. simpl. lia.
      * clear Hread. destruct (IH c1 (acc ++ [k]) (<[k := v]> m))
          as (c' & m' & HK & HG & Hm & Hb' & Hba & Hh & Hs & Hlk & Hhi & Hmi); try done.
        { intros k' Hk'. rewrite Hst by done. apply Hin. by apply list_elem_of_further. }
        { by rewrite Hba1. }
        { by rewrite Hba1. }
        rewrite Hfl in Hlk, Hhi. rewrite Hfs in Hs, Hmi. rewrite Hfr in HK, Hm.
        exists c', m'. simpl. rewrite Hprobe. simpl.
        split_and!; try done; try congruence.
        -- by rewrite HK, <- app_assoc.
        -- intros k'. rewrite Hm. destruct (decide (k' = k)) as [->|Hne].
           ++ rewrite bool_decide_eq_false_2 by apply Hkf.
              rewrite bool_decide_eq_true_2 by apply list_elem_of_here.
              rewrite lookup_insert_eq, Hitem. simpl. by rewrite Hres.
           ++ rewrite Hbd by done. rewrite lookup_insert_ne by done.
              case_bool_decide as Hk'; [|done].
              rewrite Hsame by eauto. destruct (LRU.item_of c k'); [|done]. simpl.
              by rewrite Hrr.
        -- intros k'. rewrite Hs. by rewrite Hs1.
        -- rewrite Hlk, Hlk1. simpl. rewrite reverse_cons, <- app_assoc. simpl.
           rewrite filter_cons, decide_True by done. by rewrite lru_filter_notin_cons.
        -- rewrite Hhi, Hhi1. simpl. lia.
Qed.

Lemma lru_filter_partition {A} (f g : A → bool) (l : list A) :
  (∀ x, x ∈ l → g x = negb (f x)) →
  length (List.filter f l) + length (List.filter g l) = length l.
Proof.
  induction l as [|x l IH]; intros Hneg; [done|]. simpl.
  rewrite (Hneg x) by apply list_elem_of_here.
  assert (length (List.filter f l) + length (List.filter g l) = length l) as IH'.
  { apply IH. intros y Hy. by apply Hneg, list_elem_of_further. }
  destruct (f x); simpl; lia.
Qed.

Lemma lru_keys_range_order order c :
  LRU.range_order order c → LRU.keys order c = order.
Proof.
  intros [_ Hdom]. unfold LRU.keys.
  assert (∀ k, k ∈ order → LRU.present (LRU.store c) k = true) as Hall.
  { intros k Hk. apply bool_decide_eq_true_2. by apply Hdom. }
  clear Hdom. induction order as [|k order IH]; [done|]. simpl.
  rewrite Hall by apply list_elem_of_here. f_equal. apply IH.
  intros k' Hk'. by apply Hall, list_elem_of_further.
Qed.

Lemma lru_bulk_reads order clk c :
  LRU.bijection c → LRU.range_order order c →
  Base.loaderExpireFunc (LRU.base c) = false →
  Base.deserialize_no_KeyNotFound (LRU.base c) →
  ∃ c' m,
    LRU.Keys order clk c = Some (c', List.filter (LRU.readable clk c) order)
    ∧ LRU.GetALL order clk c = Some (c', m)
    ∧ (∀ k, m !! k = if LRU.readable clk c k
                     then (λ it, (LRU.read_result c k it).1) <$> LRU.item_of c k
                     else None)
    ∧ LRU.bijection c'
    ∧ LRU.list_keys c' = reverse (List.filter (LRU.live clk c) order)
    ∧ (∀ k, LRU.item_of c' k = if LRU.live clk c k then LRU.item_of c k else None)
    ∧ LRU.hitCount c' = LRU.hitCount c + length (List.filter (LRU.live clk c) order)
    ∧ LRU.missCount c' = LRU.missCount c + length (List.filter (LRU.stale clk c) order).
Proof.
  intros Hb Hord Hlo Hde. pose proof Hord as [Hnd Hdom].
  destruct (lru_bulk_loops clk order c [] ∅ Hb Hnd) as
    (c' & m & HK & HG & Hm & Hb' & Hba & Hh & Hs & Hlk & Hhi & Hmi); try done.
  { intros k Hk. by apply Hdom. }
  exists c', m. unfold LRU.Keys, LRU.GetALL. rewrite lru_keys_range_order by done.
  split_and!; try done.
  - intros k. rewrite Hm, lookup_empty.
    destruct (LRU.readable clk c k) eqn:Hr.
    + rewrite bool_decide_eq_true_2; [done|].
      apply list_elem_of_In, filter_In. split; [|done]. apply list_elem_of_In, Hdom.
      unfold LRU.readable, LRU.item_of in Hr.
      destruct (LRU.store c !! k); [eauto|done].
    + rewrite bool_decide_eq_false_2; [done|].
      intros Hk. apply list_elem_of_In, filter_In in Hk as [_ Hk]. congruence.
  - rewrite Hlk. rewrite (lru_filter_none (λ k, k ∉ order)); [by rewrite app_nil_r|].
    intros k Hk Hnin. apply Hnin, Hdom. by apply lru_list_keys_elem_of.
  - intros k. unfold LRU.item_of at 1. rewrite Hs, Hh.
    destruct (LRU.store c !! k) as [e|] eqn:Hk.
    + destruct (LRU.bij_store c Hb k e Hk) as (_ & it & Hit & _).
      destruct (lru_live_stale_cases clk c k e it Hk Hit) as (Hitem & Hlive & Hstale & _).
      rewrite Hlive. destruct (LRU.isExpired clk it None) eqn:Hexp; simpl.
      * rewrite bool_decide_eq_true_2; [done|].
        apply list_elem_of_In, filter_In. split; [|done]. apply list_elem_of_In, Hdom. eauto.
      * rewrite bool_decide_eq_false_2.
        -- simpl. by rewrite Hitem.
        -- intros Hk'. apply list_elem_of_In, filter_In in Hk' as [_ Hk']. congruence.
    + assert (LRU.live clk c k = false) as ->.
      { unfold LRU.live, LRU.item_of. by rewrite Hk. }
      by destruct (bool_decide _).
Qed.

(** X15. [Keys] on the LRU cache, without loader: it returns, in
    iteration order, the keys whose entries have not expired and whose
    values are read without error.  Every entry that has not expired is
    touched on the way, so that afterwards the recency order of the cache
    is the reverse of the iteration order, whatever it was before; the
    expired entries are removed.  Each live entry counts as a hit and each
    expired one as a miss. *)
Theorem lru_Keys_effect order clk c :
  LRU.bijection c → LRU.range_order order c →
  Base.loaderExpireFunc (LRU.base c) = false →
  Base.deserialize_no_KeyNotFound (LRU.base c) →
  ∃ c',
    LRU.Keys order clk c = Some (c', List.filter (LRU.readable clk c) order)
    ∧ LRU.list_keys c' = reverse (List.filter (LRU.live clk c) order)
    ∧ (∀ k, LRU.item_of c' k = if LRU.live clk c k then LRU.item_of c k else None)
    ∧ LRU.hitCount c' = LRU.hitCount c + length (List.filter (LRU.live clk c) order)
    ∧ LRU.missCount c' = LRU.missCount c + length (List.filter (LRU.stale clk c) order).
Proof.
  intros Hb Hord Hlo Hde.
  destruct (lru_bulk_reads order clk c Hb Hord Hlo Hde)
    as (c' & m & HK & _ & _ & _ & Hlk & Hit & Hhi & Hmi).
  by exists c'.
Qed.

(** X16. [GetALL] on the LRU cache, without loader: it returns the map of
    the keys whose entries have not expired and whose values are read
    without error, each with the value a lookup returns.  As [Keys] does,
    it leaves the recency order equal to the reverse of the iteration
    order and removes the expired entries. *)
Theorem lru_GetALL_effect order clk c :
  LRU.bijection c → LRU.range_order order c →
  Base.loaderExpireFunc (LRU.base c) = false →
  Base.deserialize_no_KeyNotFound (LRU.base c) →
  ∃ c' m,
    LRU.GetALL order clk c = Some (c', m)
    ∧ (∀ k, m !! k = if LRU.readable clk c k
                     then (λ it, (LRU.read_result c k it).1) <$> LRU.item_of c k
                     else None)
    ∧ LRU.list_keys c' = reverse (List.filter (LRU.live clk c) order)
    ∧ (∀ k, LRU.item_of c' k = if LRU.live clk c k then LRU.item_of c k else None)
    ∧ LRU.hitCount c' + LRU.missCount c'
      = LRU.hitCount c + LRU.missCount c + length order.
Proof.
  intros Hb Hord Hlo Hde.
  destruct (lru_bulk_reads order clk c Hb Hord Hlo Hde)
    as (c' & m & _ & HG & Hm & _ & Hlk & Hit & Hhi & Hmi).
  exists c', m. split_and!; try done.
  rewrite Hhi, Hmi.
  assert (length (List.filter (LRU.live clk c) order)
          + length (List.filter (LRU.stale clk c) order) = length order) as <-; [|lia].
  destruct Hord as [_ Hdom].
  assert (∀ k, k ∈ order → LRU.stale clk c k = negb (LRU.live clk c k)) as Hneg.
  { intros k Hk. apply Hdom in Hk as [e Hk].
    destruct (LRU.bij_store c Hb k e Hk) as (_ & it & Hit' & _).
    destruct (lru_live_stale_cases clk c k e it Hk Hit') as (_ & -> & -> & _).
    by rewrite negb_involutive. }
  by apply lru_filter_partition.
Qed.

(** A plain [Set] on a key that carries an expiration leaves it in place
    when no default time-to-live is configured. *)
Lemma lru_Set_keeps_expiration clk k v c v1 it t :
  LRU.bijection c →
  Base.serialize (LRU.base c) k v = (v1, None) →
  Base.expiration (LRU.base c) = None →
  LRU.item_of c k = Some it → LRU.expiration it = Some t →
  Base.loaderExpireFunc (LRU.base c) = false →
  ∃ c1, LRU.Set_ clk k v c = Some (c1, None)
        ∧ LRU.item_of c1 k
          = Some {| LRU.key := k; LRU.value := v1; LRU.expiration := Some t |}
        ∧ ∀ clk', (t < clk')%Z →
                  (λ r, r.2) <$> LRU.Get clk' k c1
                  = Some (Returns None (Some KeyNotFoundError)).
Proof.
  intros Hb Hser Hexp Hitem Ht Hlo.
  apply lru_item_of_Some in Hitem as (e0 & Hk & Hit).
  destruct (lru_Set_ok clk k v c v1 Hb Hser) as (c1 & e & _ & HSet & Hb1 & Hba1 & Hs1 & Hh1).
  rewrite Hexp, Hk in Hh1. simpl in Hh1. rewrite Hit in Hh1. simpl in Hh1.
  rewrite Ht in Hh1.
  exists c1. split; [done|]. split.
  { apply lru_item_of_Some. eauto. }
  intros clk' Hlt.
  destruct (lru_Get_expired clk' k c1 e _ Hb1 Hs1 Hh1) as (c2 & -> & _).
  - unfold LRU.isExpired. simpl. by apply bool_decide_eq_true_2.
  - by rewrite Hba1.
  - done.
Qed.

(** A lookup made on behalf of the loader ([onLoad]) returns what an
    ordinary lookup returns and does the same to the map and the list,
    without touching the counters. *)
Lemma lru_get_onLoad clk k c :
  match LRU.get clk k false c with
  | Some (c1, r) =>
      ∃ c2, LRU.get clk k true c = Some (c2, r)
            ∧ LRU.store c2 = LRU.store c1 ∧ LRU.evictList c2 = LRU.evictList c1
            ∧ LRU.heap c2 = LRU.heap c1 ∧ LRU.hookCalls c2 = LRU.hookCalls c1
            ∧ LRU.hitCount c2 = LRU.hitCount c ∧ LRU.missCount c2 = LRU.missCount c
  | None => LRU.get clk k true c = None
  end.
Proof.
  unfold LRU.get. destruct (LRU.store c !! k) as [e|]; simpl.
  - destruct (LRU.heap c !! e) as [it|] eqn:Hit; simpl; [|done].
    destruct (LRU.isExpired clk it None).
    + unfold LRU.removeElement. rewrite Hit. simpl. eexists. split; [done|].
      match goal with |- context [LRU.call_hook ?b ?ev ?x] =>
        destruct (lru_call_hook_proj b ev x) as (_ & _ & _ & _ & Hhi & Hmi & _) end.
      by rewrite Hhi, Hmi.
    + destruct (Base.deserializeFunc _); eexists; done.
  - eexists. done.
Qed.

End LRUMore.

(** * Further properties shared by the two caches *)

Section BothMore.
Context `{Countable K} {V : Type}.

(** X17. Without a default time-to-live, a plain [Set] on a key that
    carries an expiration stores the new value and leaves the expiration
    where it was: once that instant has passed, [Get] reports the new
    value as not found.  In both variants. *)
Theorem Set_keeps_earlier_expiration
    (cs : Simple.SimpleCache K V) (cl : LRU.LRUCache K V) order clk k v v1 item it t :
  Base.serialize (Simple.base cs) k v = (v1, None) →
  Base.expiration (Simple.base cs) = None →
  Base.loaderExpireFunc (Simple.base cs) = false →
  Simple.store cs !! k = Some item → Simple.expiration item = Some t →
  LRU.bijection cl →
  Base.serialize (LRU.base cl) k v = (v1, None) →
  Base.expiration (LRU.base cl) = None →
  Base.loaderExpireFunc (LRU.base cl) = false →
  LRU.item_of cl k = Some it → LRU.expiration it = Some t →
  (∃ cs1, Simple.Set_ order clk k v cs = (cs1, None)
          ∧ Simple.store cs1 !! k
            = Some {| Simple.value := v1; Simple.expiration := Some t |}
          ∧ ∀ clk', (t < clk')%Z →
                    (Simple.Get clk' k cs1).2 = Returns None (Some KeyNotFoundError))
  ∧ (∃ cl1, LRU.Set_ clk k v cl = Some (cl1, None)
            ∧ LRU.item_of cl1 k
              = Some {| LRU.key := k; LRU.value := v1; LRU.expiration := Some t |}
            ∧ ∀ clk', (t < clk')%Z →
                      (λ r, r.2) <$> LRU.Get clk' k cl1
                      = Some (Returns None (Some KeyNotFoundError))).
Proof.
  intros Hser Hexp Hlo Hk Ht Hb Hser' Hexp' Hlo' Hit Ht'. split.
  - by eapply simple_Set_keeps_expiration.
  - by eapply lru_Set_keeps_expiration.
Qed.

(** X18. [unsafeGet] with [onLoad] set, the lookup made on behalf of the
    loader: it returns what an ordinary lookup returns and has the same
    effect on the entries (an expired entry is removed, the evicted hook
    told, and in the LRU cache a live entry moves to the front), but it
    never changes the hit and miss counters.  In both variants. *)
Theorem unsafeGet_onLoad_keeps_counters
    (cs : Simple.SimpleCache K V) (cl : LRU.LRUCache K V) clk k :
  ((Simple.unsafeGet clk k true cs).2 = (Simple.unsafeGet clk k false cs).2
   ∧ Simple.store (Simple.unsafeGet clk k true cs).1
     = Simple.store (Simple.unsafeGet clk k false cs).1
   ∧ Simple.hookCalls (Simple.unsafeGet clk k true cs).1
     = Simple.hookCalls (Simple.unsafeGet clk k false cs).1
   ∧ Simple.hitCount (Simple.unsafeGet clk k true cs).1 = Simple.hitCount cs
   ∧ Simple.missCount (Simple.unsafeGet clk k true cs).1 = Simple.missCount cs)
  ∧ match LRU.unsafeGet clk k false cl with
    | Some (c1, r) =>
        ∃ c2, LRU.unsafeGet clk k true cl = Some (c2, r)
              ∧ LRU.store c2 = LRU.store c1 ∧ LRU.evictList c2 = LRU.evictList c1
              ∧ LRU.heap c2 = LRU.heap c1 ∧ LRU.hookCalls c2 = LRU.hookCalls c1
              ∧ LRU.hitCount c2 = LRU.hitCount cl ∧ LRU.missCount c2 = LRU.missCount cl
    | None => LRU.unsafeGet clk k true cl = None
    end.
Proof.
  split.
  - apply simple_get_onLoad.
  - apply lru_get_onLoad.
Qed.

Lemma simple_loader_on_miss (cs : Simple.SimpleCache K V) clk k :
  Base.loaderExpireFunc (Simple.base cs) = true →
  Base.deserialize_no_KeyNotFound (Simple.base cs) →
  if Simple.live clk (Simple.store cs) k
  then ∃ v err, (Simple.Get clk k cs).2 = Returns v err
                ∧ (Simple.GetIFPresent clk k cs).2 = Returns v None
  else (Simple.Get clk k cs).2 = CallsLoad k true
       ∧ (Simple.GetIFPresent clk k cs).2 = CallsLoad k false.
Proof.
  intros Hlo Hde. pose proof (simple_live_stale_cases clk (Simple.store cs) k) as Hls.
  unfold Simple.Get, Simple.GetIFPresent.
  destruct (Simple.store cs !! k) as [item|] eqn:Hk.
  - destruct Hls as [-> _]. destruct (Simple.IsExpired clk item None) eqn:Hexp; simpl.
    + rewrite (simple_get_expired clk k cs item Hk Hexp). simpl.
      unfold Simple.getWithLoader. by rewrite simple_remove_base, Hlo.
    + rewrite (simple_get_hit clk k cs item Hk Hexp).
      destruct (Base.deserializeFunc (Simple.base cs)) as [f|] eqn:Hf.
      * destruct (f k (Simple.value item)) as [v err] eqn:Hfk.
        rewrite bool_decide_eq_false_2.
        -- by exists v, err.
        -- intros ->. apply (Hde f k (Simple.value item) Hf). by rewrite Hfk.
      * simpl. by eexists _, _.
  - destruct Hls as [-> _]. rewrite (simple_get_absent clk k cs Hk). simpl.
    unfold Simple.getWithLoader. simpl. by rewrite Hlo.
Qed.

Lemma lru_loader_on_miss (cl : LRU.LRUCache K V) clk k :
  LRU.bijection cl →
  Base.loaderExpireFunc (LRU.base cl) = true →
  Base.deserialize_no_KeyNotFound (LRU.base cl) →
  ∃ c1 o1 o2,
    LRU.Get clk k cl = Some (c1, o1) ∧ LRU.GetIFPresent clk k cl = Some (c1, o2)
    ∧ if LRU.live clk cl k
      then ∃ v err, o1 = Returns v err ∧ o2 = Returns v err
      else o1 = CallsLoad k true ∧ o2 = CallsLoad k false.
Proof.
  intros Hb Hlo Hde. unfold LRU.Get, LRU.GetIFPresent.
  destruct (LRU.store cl !! k) as [e|] eqn:Hk.
  - destruct (LRU.bij_store cl Hb k e Hk) as (_ & it & Hit & _).
    destruct (lru_live_stale_cases clk cl k e it Hk Hit) as (_ & -> & _).
    destruct (LRU.isExpired clk it None) eqn:Hexp; simpl.
    + destruct (lru_get_expired clk k false cl e it Hb Hk Hit Hexp)
        as (c1 & -> & _ & _ & _ & _ & _ & Hba & _).
      simpl. unfold LRU.getWithLoader. rewrite Hba, Hlo. by eexists _, _, _.
    + destruct (lru_get_hit clk k false cl e it Hb Hk Hit Hexp) as (c1 & -> & _).
      simpl. rewrite bool_decide_eq_false_2.
      * eexists _, _, _. split; [done|]. split; [done|]. by eexists _, _.
      * destruct (Base.deserializeFunc _) as [f|] eqn:Hf; [|done]. by apply Hde.
  - assert (LRU.live clk cl k = false) as ->.
    { unfold LRU.live, LRU.item_of. by rewrite Hk. }
    rewrite (lru_get_absent clk k false cl Hk). simpl.
    unfold LRU.getWithLoader. simpl. rewrite Hlo. by eexists _, _, _.
Qed.

(** X19. When a loader is configured, [Get] and [GetIFPresent] hand the
    key to it exactly when the lookup misses, that is when the key is
    absent or its entry has expired: [Get] asks to wait for the load,
    [GetIFPresent] does not.  For a live entry both return the value
    without going to the loader (the deserialize hook, if any, never
    answering [KeyNotFoundError]).  In both variants. *)
Theorem loader_consulted_exactly_on_miss
    (cs : Simple.SimpleCache K V) (cl : LRU.LRUCache K V) clk k :
  Base.loaderExpireFunc (Simple.base cs) = true →
  Base.deserialize_no_KeyNotFound (Simple.base cs) →
  LRU.bijection cl →
  Base.loaderExpireFunc (LRU.base cl) = true →
  Base.deserialize_no_KeyNotFound (LRU.base cl) →
  (if Simple.live clk (Simple.store cs) k
   then ∃ v err, (Simple.Get clk k cs).2 = Returns v err
                 ∧ (Simple.GetIFPresent clk k cs).2 = Returns v None
   else (Simple.Get clk k cs).2 = CallsLoad k true
        ∧ (Simple.GetIFPresent clk k cs).2 = CallsLoad k false)
  ∧ ∃ c1 o1 o2,
      LRU.Get clk k cl = Some (c1, o1) ∧ LRU.GetIFPresent clk k cl = Some (c1, o2)
      ∧ if LRU.live clk cl k
        then ∃ v err, o1 = Returns v err ∧ o2 = Returns v err
        else o1 = CallsLoad k true ∧ o2 = CallsLoad k false.
Proof.
  intros Hlo Hde Hb Hlo' Hde'. split.
  - by apply simple_loader_on_miss.
  - by apply lru_loader_on_miss.
Qed.

End BothMore.

(** * Instances of the further properties *)

Lemma lru_range_order_dom `{Countable K} {V : Type} (order : list K) (c : LRU.LRUCache K V) :
  NoDup order → list_to_set order = dom (LRU.store c) → LRU.range_order order c.
Proof.
  intros Hnd Hdom. split; [done|]. intros k.
  by rewrite <- elem_of_dom, <- Hdom, elem_of_list_to_set.
Qed.

Lemma lru_after_bijection cb ops : LRU.bijection (Examples.lru_after cb ops).
Proof.
  unfold Examples.lru_after.
  by destruct (lru_run_total ops _ (lru_new_bijection cb)) as (c' & -> & Hb & _).
Qed.

Lemma examples_no_KeyNotFound size capacity expiration :
  Base.deserialize_no_KeyNotFound (Examples.config size capacity expiration).
Proof. intros f k v Hf. discriminate. Qed.

(** X1, witness: size 1; the second [Set] evicts key 1. *)
Lemma simple_bounded_without_expiration_witness :
  let cb := Examples.config 1 0 None in
  let ops := [Simple.OpSet [] 0 1 10; Simple.OpSet [1] 1 2 20; Simple.OpGet 2 1] in
  Simple.orders_ok ops (Simple.newSimpleCache cb)
  ∧ (Simple.Len (Simple.run ops (Simple.newSimpleCache cb)) ≤ 1)%Z.
Proof.
  intros cb ops.
  assert (Simple.orders_ok ops (Simple.newSimpleCache cb)) as Hord.
  { cbn [ops Simple.orders_ok Simple.op_order_ok]. split_and!; try done.
    - apply simple_range_order_dom; apply (bool_decide_unpack _); vm_compute; reflexivity.
    - apply simple_range_order_dom; apply (bool_decide_unpack _); vm_compute; reflexivity. }
  split; [exact Hord|].
  apply (simple_bounded_without_expiration cb ops).
  - simpl. lia.
  - reflexivity.
  - reflexivity.
  - reflexivity.
  - exact Hord.
Defined.

(** X3, witness for [Purge] on the unordered cache: two entries, visited in the order 2, 1. *)
Lemma simple_Purge_complete_witness :
  let c := Examples.simple_of (Examples.visited_config 0 0 None)
             [(1, Examples.item 10 None); (2, Examples.item 20 (Some 5%Z))] in
  Simple.range_order [2; 1] c
  ∧ Simple.Len (Simple.Purge [2; 1] c) = 0%Z
  ∧ Simple.hookCalls (Simple.Purge [2; 1] c)
    = Simple.purge_calls c [2; 1] ++ Simple.hookCalls c.
Proof.
  intros c.
  assert (Simple.range_order [2; 1] c) as Hord.
  { apply simple_range_order_dom; apply (bool_decide_unpack _); vm_compute; reflexivity. }
  split; [exact Hord|].
  destruct (simple_Purge_complete [2; 1] c Hord) as (Hlen & _ & Hca & _).
  split; [exact Hlen|exact Hca].
Defined.

(** X4, witness for [Set] below the size: one entry, size 2. *)
Lemma simple_Set_no_eviction_witness :
  let c := Examples.simple_of (Examples.visited_config 2 0 None)
             [(1, Examples.item 10 None)] in
  (Simple.Set_ [1] 0 2 20 c).2 = None
  ∧ Simple.hookCalls (Simple.Set_ [1] 0 2 20 c).1 = [AddedCall 2 20] ++ Simple.hookCalls c.
Proof.
  intros c.
  destruct (simple_Set_no_eviction [1] 0 2 20 c 20) as (Herr & _ & _ & _ & Hca).
  - reflexivity.
  - right. right. vm_compute. reflexivity.
  - split; [exact Herr|exact Hca].
Defined.

(** X5, witness for [Keys] on the unordered cache: at instant 50, key 2 has
    expired and keys 3 and 1 are returned. *)
Lemma simple_Keys_lists_live_witness :
  let c := Examples.simple_of (Examples.config 0 0 None)
             [(1, Examples.item 10 None); (2, Examples.item 20 (Some 5%Z));
              (3, Examples.item 30 (Some 100%Z))] in
  Simple.range_order [3; 1; 2] c
  ∧ ∃ c', Simple.Keys [3; 1; 2] 50 c = Some (c', [3; 1])
          ∧ Simple.hitCount c' = 2.
Proof.
  intros c.
  assert (Simple.range_order [3; 1; 2] c) as Hord.
  { apply simple_range_order_dom; apply (bool_decide_unpack _); vm_compute; reflexivity. }
  split; [exact Hord|].
  destruct (simple_Keys_lists_live [3; 1; 2] 50 c Hord) as (c' & HK & _ & Hhi & _).
  - reflexivity.
  - apply examples_no_KeyNotFound.
  - exists c'. split; [exact HK|exact Hhi].
Defined.

(** X6, witness for [GetALL] on the unordered cache, in the same state. *)
Lemma simple_GetALL_maps_live_witness :
  let c := Examples.simple_of (Examples.config 0 0 None)
             [(1, Examples.item 10 None); (2, Examples.item 20 (Some 5%Z));
              (3, Examples.item 30 (Some 100%Z))] in
  Simple.range_order [3; 1; 2] c
  ∧ ∃ c' m, Simple.GetALL [3; 1; 2] 50 c = Some (c', m)
            ∧ m !! 1 = Some (Some 10) ∧ m !! 2 = None ∧ m !! 3 = Some (Some 30).
Proof.
  intros c.
  assert (Simple.range_order [3; 1; 2] c) as Hord.
  { apply simple_range_order_dom; apply (bool_decide_unpack _); vm_compute; reflexivity. }
  split; [exact Hord|].
  destruct (simple_GetALL_maps_live [3; 1; 2] 50 c Hord) as (c' & m & HG & Hm & _).
  - reflexivity.
  - apply examples_no_KeyNotFound.
  - exists c', m. split; [exact HG|].
    split; [exact (Hm 1)|]. split; [exact (Hm 2)|exact (Hm 3)].
Defined.

(** X7, witness for the bounds of [evict]: a count of 5 with two candidates. *)
Lemma simple_evict_bounds_witness :
  let c := Examples.simple_of (Examples.config 0 0 None)
             [(1, Examples.item 10 None); (2, Examples.item 20 (Some 5%Z));
              (3, Examples.item 30 (Some 100%Z))] in
  Simple.range_order [3; 1; 2] c
  ∧ Simple.Len (Simple.evict [3; 1; 2] 50 5 c) = 1%Z
  ∧ Simple.store (Simple.evict [3; 1; 2] 50 5 c) !! 3 = Some (Examples.item 30 (Some 100%Z)).
Proof.
  intros c.
  assert (Simple.range_order [3; 1; 2] c) as Hord.
  { apply simple_range_order_dom; apply (bool_decide_unpack _); vm_compute; reflexivity. }
  split; [exact Hord|].
  destruct (simple_evict_bounds [3; 1; 2] 50 5 c Hord) as (_ & Hkeep & _ & Hlen & _).
  split; [exact Hlen|].
  apply Hkeep; vm_compute; reflexivity.
Defined.

(** X8, witness for the LRU cache without loader: capacity 2, three keys. *)
Lemma lru_Len_bounded_witness :
  let cb := Examples.config 0 2 None in
  let ops := [LRU.OpSet 0 1 10; LRU.OpSet 1 2 20; LRU.OpSet 2 3 30] in
  ∃ c, LRU.run ops (LRU.newLRUCache cb) = Some c ∧ (LRU.Len c ≤ 2)%Z.
Proof.
  intros cb ops.
  destruct (lru_Len_bounded cb ops) as (c & Hrun & _ & Hle).
  - reflexivity.
  - exists c. split; [exact Hrun|]. apply Hle. simpl. lia.
Defined.

(** X9, witness for the counters: two reads among four operations. *)
Lemma lru_stats_accounting_witness :
  let cb := Examples.config 0 2 None in
  let ops := [LRU.OpSet 0 1 10; LRU.OpGet 1 1; LRU.OpRemove 1; LRU.OpGetIFPresent 2 1] in
  ∃ c, LRU.run ops (LRU.newLRUCache cb) = Some c
       ∧ LRU.hitCount c + LRU.missCount c = 2.
Proof.
  intros cb ops. apply (lru_stats_accounting cb ops). reflexivity.
Defined.

(** X10, witness for a capacity of zero: after the [Set] of key 2 it is the only key. *)
Lemma lru_nonpositive_capacity_single_entry_witness :
  let cb := Examples.config 0 0 None in
  let c := Examples.lru_after cb [LRU.OpSet 0 1 10] in
  ∃ c', LRU.Set_ 1 2 20 c = Some (c', None) ∧ LRU.list_keys c' = [2].
Proof.
  intros cb c.
  destruct (lru_nonpositive_capacity_single_entry cb [LRU.OpSet 0 1 10] c 1 2 20 20)
    as (c' & Hset & Hlk & _).
  - simpl. lia.
  - reflexivity.
  - vm_compute. reflexivity.
  - reflexivity.
  - vm_compute. reflexivity.
  - exists c'. split; [exact Hset|exact Hlk].
Defined.

(** X11, witness for [Remove] on the LRU cache: keys 1 and 2, key 1 removed. *)
Lemma lru_Remove_effect_witness :
  let c := Examples.lru_after (Examples.visited_config 0 2 None)
             [LRU.OpSet 0 1 10; LRU.OpSet 1 2 20] in
  ∃ c', LRU.Remove 1 c = Some (c', None)
        ∧ LRU.list_keys c' = filter (λ k', k' ≠ 1) (LRU.list_keys c)
        ∧ LRU.Remove 1 c' = Some (c', Some KeyNotFoundError).
Proof.
  intros c.
  destruct (lru_Remove_effect 1 c (lru_after_bijection _ _))
    as (c' & err & Hrm & Herr & _ & _ & Hlk & _ & _ & _ & _ & Hrm' & _).
  assert (err = None) as ->.
  { apply Herr. vm_compute. eexists. reflexivity. }
  exists c'. split; [exact Hrm|]. split; [exact Hlk|exact Hrm'].
Defined.

(** X12, witness for [Purge] on the LRU cache. *)
Lemma lru_Purge_complete_witness :
  let c := Examples.lru_after (Examples.visited_config 0 2 None)
             [LRU.OpSet 0 1 10; LRU.OpSet 1 2 20] in
  LRU.range_order [2; 1] c
  ∧ ∃ c', LRU.Purge [2; 1] c = Some c' ∧ LRU.Len c' = 0%Z
          ∧ LRU.hookCalls c' = LRU.purge_calls c [2; 1] ++ LRU.hookCalls c.
Proof.
  intros c.
  assert (LRU.range_order [2; 1] c) as Hord.
  { apply lru_range_order_dom; apply (bool_decide_unpack _); vm_compute; reflexivity. }
  split; [exact Hord|].
  destruct (lru_Purge_complete [2; 1] c (lru_after_bijection _ _) Hord)
    as (c' & Hp & Hlen & _ & _ & Hca & _).
  exists c'. split; [exact Hp|]. split; [exact Hlen|exact Hca].
Defined.

(** X13, witness for the bounds of [evict] on the LRU cache: one of two
    entries is evicted. *)
Lemma lru_evict_bounds_witness :
  let c := Examples.lru_after (Examples.config 0 2 None)
             [LRU.OpSet 0 1 10; LRU.OpSet 1 2 20] in
  ∃ c', LRU.evict 1 c = Some c'
        ∧ LRU.list_keys c' = take (length (LRU.list_keys c) - Z.to_nat 1) (LRU.list_keys c).
Proof.
  intros c.
  destruct (lru_evict_bounds 1 c (lru_after_bijection _ _)) as (c' & Hev & _ & Hlk & _).
  exists c'. split; [exact Hev|exact Hlk].
Defined.

(** X14, witness for the frame of [Set]: capacity 2, keys 1 and 2, key 3 set. *)
Lemma lru_Set_frame_witness :
  let c := Examples.lru_after (Examples.config 0 2 None)
             [LRU.OpSet 0 1 10; LRU.OpSet 1 2 20] in
  ∃ c', LRU.Set_ 2 3 30 c = Some (c', None)
        ∧ LRU.item_of c' 1 = None
        ∧ LRU.item_of c' 2 = LRU.item_of c 2.
Proof.
  intros c.
  destruct (lru_Set_frame 2 3 30 c 30 (lru_after_bijection _ _)) as (c' & Hset & _ & Hframe).
  - reflexivity.
  - exists c'. split; [exact Hset|]. split.
    + apply (Hframe 1). discriminate.
    + apply (Hframe 2). discriminate.
Defined.

(** X15, witness for [Keys] on the LRU cache: key 2 has expired at instant 50. *)
Lemma lru_Keys_effect_witness :
  let c := Examples.lru_after (Examples.config 0 3 None)
             [LRU.OpSet 0 1 10; LRU.OpSetWithExpire 0 2 20 5; LRU.OpSet 0 3 30] in
  LRU.range_order [1; 2; 3] c
  ∧ ∃ c', LRU.Keys [1; 2; 3] 50 c = Some (c', [1; 3])
          ∧ LRU.list_keys c' = [3; 1].
Proof.
  intros c.
  assert (LRU.range_order [1; 2; 3] c) as Hord.
  { apply lru_range_order_dom; apply (bool_decide_unpack _); vm_compute; reflexivity. }
  split; [exact Hord|].
  destruct (lru_Keys_effect [1; 2; 3] 50 c (lru_after_bijection _ _) Hord)
    as (c' & HK & Hlk & _).
  - reflexivity.
  - apply examples_no_KeyNotFound.
  - exists c'. split; [exact HK|exact Hlk].
Defined.

(** X16, witness for [GetALL] on the LRU cache, in the same state. *)
Lemma lru_GetALL_effect_witness :
  let c := Examples.lru_after (Examples.config 0 3 None)
             [LRU.OpSet 0 1 10; LRU.OpSetWithExpire 0 2 20 5; LRU.OpSet 0 3 30] in
  LRU.range_order [1; 2; 3] c
  ∧ ∃ c' m, LRU.GetALL [1; 2; 3] 50 c = Some (c', m)
            ∧ m !! 1 = Some (Some 10) ∧ m !! 2 = None
            ∧ LRU.list_keys c' = [3; 1].
Proof.
  intros c.
  assert (LRU.range_order [1; 2; 3] c) as Hord.
  { apply lru_range_order_dom; apply (bool_decide_unpack _); vm_compute; reflexivity. }
  split; [exact Hord|].
  destruct (lru_GetALL_effect [1; 2; 3] 50 c (lru_after_bijection _ _) Hord)
    as (c' & m & HG & Hm & Hlk & _).
  - reflexivity.
  - apply examples_no_KeyNotFound.
  - exists c', m. split; [exact HG|]. split; [exact (Hm 1)|]. split; [exact (Hm 2)|exact Hlk].
Defined.

(** X17, witness for the expiration a plain [Set] leaves in place: key 1 set
    with expiration instant 5, set again at instant 1, read at instant 9. *)
Lemma Set_keeps_earlier_expiration_witness :
  let cs := Examples.simple_of (Examples.config 0 0 None) [(1, Examples.item 10 (Some 5%Z))] in
  let cl := Examples.lru_after (Examples.config 0 2 None) [LRU.OpSetWithExpire 0 1 10 5] in
  (∃ cs1, Simple.Set_ [1] 1 1 11 cs = (cs1, None)
          ∧ (Simple.Get 9 1 cs1).2 = Returns None (Some KeyNotFoundError))
  ∧ (∃ cl1, LRU.Set_ 1 1 11 cl = Some (cl1, None)
            ∧ (λ r, r.2) <$> LRU.Get 9 1 cl1 = Some (Returns None (Some KeyNotFoundError))).
Proof.
  intros cs cl.
  destruct (Set_keeps_earlier_expiration cs cl [1] 1 1 11 11 (Examples.item 10 (Some 5%Z))
              {| LRU.key := 1; LRU.value := 10; LRU.expiration := Some 5%Z |} 5)
    as [(cs1 & Hs & _ & Hgs) (cl1 & Hl & _ & Hgl)].
  - reflexivity.
  - reflexivity.
  - reflexivity.
  - vm_compute. reflexivity.
  - reflexivity.
  - apply lru_after_bijection.
  - reflexivity.
  - reflexivity.
  - reflexivity.
  - vm_compute. reflexivity.
  - reflexivity.
  - split.
    + exists cs1. split; [exact Hs|]. apply Hgs. lia.
    + exists cl1. split; [exact Hl|]. apply Hgl. lia.
Defined.

(** X19, witness for the loader: key 2 is absent from both caches. *)
Lemma loader_consulted_exactly_on_miss_witness :
  let cs := Examples.simple_of (Examples.loader_config 0 0 None) [(1, Examples.item 10 None)] in
  let cl := Examples.lru_after (Examples.loader_config 0 2 None) [LRU.OpSet 0 1 10] in
  (Simple.Get 0 2 cs).2 = CallsLoad 2 true
  ∧ ∃ c1, LRU.Get 0 2 cl = Some (c1, CallsLoad 2 true)
          ∧ LRU.GetIFPresent 0 2 cl = Some (c1, CallsLoad 2 false).
Proof.
  intros cs cl.
  destruct (loader_consulted_exactly_on_miss cs cl 0 2)
    as [Hs (c1 & o1 & o2 & HG & HI & Hl)].
  - reflexivity.
  - intros f k v Hf. discriminate.
  - apply lru_after_bijection.
  - reflexivity.
  - intros f k v Hf. discriminate.
  - change (Simple.live 0 (Simple.store cs) 2) with false in Hs.
    change (LRU.live 0 cl 2) with false in Hl.
    destruct Hs as [Hs _]. destruct Hl as [-> ->].
    split; [exact Hs|]. exists c1. split; [exact HG|exact HI].
Defined.
